(** * Lexical analysis routines of the MATLAB completion plugin (src/tool.ts)

    A shallow embedding of the text-scanning functions of [tool.ts] and of
    the part of the JavaScript runtime they rest on: strings as sequences of
    UTF-16 code units, the string methods the file calls, and a backtracking
    regular-expression matcher that follows the continuation-passing
    semantics of ECMAScript (RegExp objects carry their [lastIndex]). *)

From Stdlib Require Import String Ascii List NArith ZArith Bool Lia Arith Sorted.
Import ListNotations.

Set Implicit Arguments.

(* ================================================================== *)
(** ** JavaScript strings *)
(* ================================================================== *)

Module JS.

Local Open Scope N_scope.

(** A string is a sequence of 16-bit code units. *)
Definition jsstring := list N.

(** [u "text"] is the JavaScript string with the code units of an ASCII literal. *)
Definition u (s : string) : jsstring := map N_of_ascii (list_ascii_of_string s).

Definition str_eqb (a b : jsstring) : bool :=
  if list_eq_dec N.eq_dec a b then true else false.

(** The values held by the arrays of this program: strings, and [undefined]
    for a capturing group that took no part in a match. *)
Inductive value :=
  | Undefined
  | Str (s : jsstring).

(** [ToString], as applied by template literals and by [RegExp.prototype.test]. *)
Definition to_string (v : value) : jsstring :=
  match v with
  | Undefined => u "undefined"
  | Str s => s
  end.

(** Strict equality on these values. *)
Definition value_eqb (a b : value) : bool :=
  match a, b with
  | Undefined, Undefined => true
  | Str x, Str y => str_eqb x y
  | _, _ => false
  end.

(** [s.substring(i, j)] for [0 <= i <= j]. *)
Definition substring (s : jsstring) (i j : nat) : jsstring :=
  firstn (j - i) (skipn i s).

(** [String.prototype.slice(start, end)]: a negative index counts from the
    end of the string, and both indices are clamped to [0, length]. *)
Definition clamp_index (len k : Z) : Z :=
  if (k <? 0)%Z then Z.max (len + k) 0 else Z.min k len.

Definition slice (s : jsstring) (first last : Z) : jsstring :=
  let len := Z.of_nat (length s) in
  let from := clamp_index len first in
  let to := clamp_index len last in
  substring s (Z.to_nat from) (Z.to_nat (Z.max from to)).

Fixpoint starts_with (p s : jsstring) : bool :=
  match p, s with
  | [], _ => true
  | a :: p', b :: s' => (a =? b) && starts_with p' s'
  | _ :: _, [] => false
  end.

(** [String.prototype.indexOf(sub)]: first position of [sub], or -1. *)
Fixpoint index_from (sub s : jsstring) (i : nat) : Z :=
  if starts_with sub s then Z.of_nat i
  else match s with
       | [] => (-1)%Z
       | _ :: s' => index_from sub s' (S i)
       end.

Definition indexOf (s sub : jsstring) : Z := index_from sub s 0.

(** [String.prototype.includes(sub)]. *)
Definition includes (s sub : jsstring) : bool := negb (indexOf s sub =? -1)%Z.

(** [String.prototype.split(sep)] with a string separator.  [skip] counts the
    code units of a separator occurrence still to be passed over, [cur] holds
    the piece being read, reversed. *)
Fixpoint split_go (sep s : jsstring) (skip : nat) (cur : jsstring) : list jsstring :=
  match s with
  | [] => [rev cur]
  | c :: s' =>
      match skip with
      | S k => split_go sep s' k cur
      | O =>
          if starts_with sep s
          then rev cur :: split_go sep s' (length sep - 1) []
          else split_go sep s' 0 (c :: cur)
      end
  end.

Definition split (s sep : jsstring) : list jsstring :=
  match sep with
  | [] => map (fun c => [c]) s
  | _ => split_go sep s 0 []
  end.

(** [String.prototype.replace(pat, rep)] with a string pattern: only the
    first occurrence is replaced. *)
Fixpoint replace_first (pat rep s : jsstring) : jsstring :=
  if starts_with pat s then rep ++ skipn (length pat) s
  else match s with
       | [] => []
       | c :: s' => c :: replace_first pat rep s'
       end.

(** [Array.prototype.indexOf(v)]: first index of a strictly equal element, or -1. *)
Fixpoint array_index_from (v : value) (l : list value) (i : nat) : Z :=
  match l with
  | [] => (-1)%Z
  | x :: l' => if value_eqb x v then Z.of_nat i else array_index_from v l' (S i)
  end.

Definition array_indexOf (l : list value) (v : value) : Z :=
  array_index_from v l 0.

(** [Array.prototype.filter] with a callback that also receives the index. *)
Fixpoint filteri_from {A} (f : A -> nat -> bool) (l : list A) (i : nat) : list A :=
  match l with
  | [] => []
  | x :: l' => if f x i then x :: filteri_from f l' (S i) else filteri_from f l' (S i)
  end.

Definition filteri {A} (f : A -> nat -> bool) (l : list A) : list A :=
  filteri_from f l 0.

(** A [Set] keeps its elements in insertion order. *)
Definition set_has (s : list value) (v : value) : bool := existsb (value_eqb v) s.

Definition set_add (s : list value) (v : value) : list value :=
  if set_has s v then s else s ++ [v].

(** Character classes of the regular-expression language. *)
Definition in_range (lo hi c : N) : bool := (lo <=? c) && (c <=? hi).

Definition is_digit (c : N) : bool := in_range 48 57 c.

Definition is_word_char (c : N) : bool :=
  in_range 97 122 c || in_range 65 90 c || is_digit c || (c =? 95).

Definition is_line_terminator (c : N) : bool :=
  (c =? 10) || (c =? 13) || (c =? 8232) || (c =? 8233).

Definition is_white_space (c : N) : bool :=
  in_range 9 13 c || (c =? 32) || (c =? 160) || (c =? 5760)
  || in_range 8192 8202 c || (c =? 8232) || (c =? 8233) || (c =? 8239)
  || (c =? 8287) || (c =? 12288) || (c =? 65279).

End JS.

(* ================================================================== *)
(** ** Regular expressions *)
(* ================================================================== *)

Module Regex.

Import JS.
Local Open Scope N_scope.

(** *** Abstract syntax

    The fragment of the pattern language that is modelled: literals, [.],
    classes, the escapes [\d \D \w \W \s \S \b \B \n \t \r \f \v] and identity
    escapes, [^] and [$], groups (capturing, non-capturing, lookahead),
    alternation and the quantifiers [*], [+], [?] with their lazy forms. *)

Inductive class_atom :=
  | CChar (c : N)
  | CRange (lo hi : N)
  | CDigit | CNotDigit
  | CWord | CNotWord
  | CSpace | CNotSpace.

Inductive regex :=
  | Empty
  | Char (c : N)
  | Dot
  | Class (neg : bool) (items : list class_atom)
  | Seq (r1 r2 : regex)
  | Alt (r1 r2 : regex)
  | Quant (r : regex) (min : nat) (max : option nat) (greedy : bool)
  | Group (i : nat) (r : regex)
  | Look (neg : bool) (r : regex)
  | Bol
  | Eol
  | WordBoundary
  | NotWordBoundary.

Definition class_atom_mem (a : class_atom) (c : N) : bool :=
  match a with
  | CChar d => c =? d
  | CRange lo hi => in_range lo hi c
  | CDigit => is_digit c
  | CNotDigit => negb (is_digit c)
  | CWord => is_word_char c
  | CNotWord => negb (is_word_char c)
  | CSpace => is_white_space c
  | CNotSpace => negb (is_white_space c)
  end.

Definition class_mem (neg : bool) (items : list class_atom) (c : N) : bool :=
  xorb neg (existsb (fun a => class_atom_mem a c) items).

(** The capturing groups that occur in a term. *)
Fixpoint groups (r : regex) : list nat :=
  match r with
  | Seq r1 r2 | Alt r1 r2 => groups r1 ++ groups r2
  | Quant r' _ _ _ | Look _ r' => groups r'
  | Group i r' => i :: groups r'
  | _ => []
  end.

(** *** Pattern text to abstract syntax *)

Inductive gkind := GCapture | GNonCapture | GLook (neg : bool).

Inductive token :=
  | TAtom (r : regex) (quantifiable : bool)
  | TOpen (k : gkind)
  | TClose
  | TBar
  | TQuant (min : nat) (max : option nat) (greedy : bool).

(** The escapes shared by terms and classes. *)
Definition char_escape (e : N) : option N :=
  if e =? 110 then Some 10           (* \n *)
  else if e =? 116 then Some 9       (* \t *)
  else if e =? 114 then Some 13      (* \r *)
  else if e =? 102 then Some 12      (* \f *)
  else if e =? 118 then Some 11      (* \v *)
  else if in_range 97 122 e || in_range 65 90 e || is_digit e then None
  else Some e.                       (* identity escape *)

Definition class_escape (e : N) : option class_atom :=
  if e =? 100 then Some CDigit
  else if e =? 68 then Some CNotDigit
  else if e =? 119 then Some CWord
  else if e =? 87 then Some CNotWord
  else if e =? 115 then Some CSpace
  else if e =? 83 then Some CNotSpace
  else if e =? 98 then Some (CChar 8)   (* \b is backspace inside a class *)
  else option_map CChar (char_escape e).

Definition atom_escape (e : N) : option token :=
  if e =? 98 then Some (TAtom WordBoundary false)
  else if e =? 66 then Some (TAtom NotWordBoundary false)
  else if e =? 100 then Some (TAtom (Class false [CDigit]) true)
  else if e =? 68 then Some (TAtom (Class false [CNotDigit]) true)
  else if e =? 119 then Some (TAtom (Class false [CWord]) true)
  else if e =? 87 then Some (TAtom (Class false [CNotWord]) true)
  else if e =? 115 then Some (TAtom (Class false [CSpace]) true)
  else if e =? 83 then Some (TAtom (Class false [CNotSpace]) true)
  else option_map (fun c => TAtom (Char c) true) (char_escape e).

Definition cons_tok (t : token) (r : option (list token)) : option (list token) :=
  option_map (cons t) r.

(** The lexer.  [cls] is [Some (neg, items)] while the text of a class
    [[...]] is being read ([items] in reverse).  A pattern outside the
    modelled fragment, like one that [new RegExp] rejects, gives [None]. *)
Fixpoint lex (cls : option (bool * list class_atom)) (s : jsstring) {struct s}
  : option (list token) :=
  match cls with
  | Some (neg, items) =>
      match s with
      | [] => None
      | c :: t =>
          if c =? 93 then cons_tok (TAtom (Class neg (rev items)) true) (lex None t)
          else if c =? 92 then
            match t with
            | [] => None
            | e :: t' =>
                match class_escape e, t' with
                | None, _ => None
                | Some a, d1 :: d2 :: _ =>
                    if (d1 =? 45) && negb (d2 =? 93) then None
                    else lex (Some (neg, a :: items)) t'
                | Some a, _ => lex (Some (neg, a :: items)) t'
                end
            end
          else
            match t with
            | d1 :: d2 :: t'' =>
                if (d1 =? 45) && negb (d2 =? 93) then
                  if (d2 =? 92) || (d2 <? c) then None
                  else lex (Some (neg, CRange c d2 :: items)) t''
                else lex (Some (neg, CChar c :: items)) t
            | _ => lex (Some (neg, CChar c :: items)) t
            end
      end
  | None =>
      match s with
      | [] => Some []
      | c :: t =>
          if c =? 92 then
            match t with
            | [] => None
            | e :: t' =>
                match atom_escape e with
                | Some tok => cons_tok tok (lex None t')
                | None => None
                end
            end
          else if c =? 91 then
            match t with
            | d :: t' => if d =? 94 then lex (Some (true, [])) t'
                         else lex (Some (false, [])) t
            | [] => None
            end
          else if c =? 40 then
            match t with
            | q :: k :: t' =>
                if q =? 63 then
                  if k =? 58 then cons_tok (TOpen GNonCapture) (lex None t')
                  else if k =? 61 then cons_tok (TOpen (GLook false)) (lex None t')
                  else if k =? 33 then cons_tok (TOpen (GLook true)) (lex None t')
                  else None
                else cons_tok (TOpen GCapture) (lex None t)
            | _ => cons_tok (TOpen GCapture) (lex None t)
            end
          else if c =? 41 then cons_tok TClose (lex None t)
          else if c =? 124 then cons_tok TBar (lex None t)
          else if (c =? 42) || (c =? 43) || (c =? 63) then
            let min := if c =? 43 then 1%nat else 0%nat in
            let max := if c =? 63 then Some 1%nat else None in
            match t with
            | q :: t' =>
                if q =? 63 then cons_tok (TQuant min max false) (lex None t')
                else cons_tok (TQuant min max true) (lex None t)
            | [] => cons_tok (TQuant min max true) (lex None t)
            end
          else if c =? 46 then cons_tok (TAtom Dot true) (lex None t)
          else if c =? 94 then cons_tok (TAtom Bol false) (lex None t)
          else if c =? 36 then cons_tok (TAtom Eol false) (lex None t)
          else if (c =? 93) || (c =? 123) || (c =? 125) then None
          else cons_tok (TAtom (Char c) true) (lex None t)
      end
  end.

(** The parser keeps a stack of open groups.  A frame holds the kind of the
    group, its finished alternatives and the terms of the alternative being
    read, both in reverse. *)
Record frame := Frame {
  f_kind : option (gkind * nat);
  f_alts : list regex;
  f_seq : list (regex * bool)
}.

Definition seq_of (terms : list (regex * bool)) : regex :=
  fold_left (fun acc t => Seq (fst t) acc) terms Empty.

Fixpoint alts_of (first : regex) (others : list regex) : regex :=
  match others with
  | [] => first
  | r :: rs => Alt first (alts_of r rs)
  end.

(** The disjunction of a finished frame. *)
Definition close_frame (f : frame) : regex :=
  match rev (seq_of (f_seq f) :: f_alts f) with
  | [] => Empty
  | r :: rs => alts_of r rs
  end.

Definition wrap_group (k : option (gkind * nat)) (r : regex) : regex * bool :=
  match k with
  | Some (GCapture, i) => (Group i r, true)
  | Some (GLook neg, _) => (Look neg r, false)
  | _ => (r, true)
  end.

Definition push_term (t : regex * bool) (f : frame) : frame :=
  Frame (f_kind f) (f_alts f) (t :: f_seq f).

Fixpoint parse (toks : list token) (stack : list frame) (cur : frame) (ngroups : nat)
  : option (regex * nat) :=
  match toks with
  | [] => match stack with
          | [] => Some (close_frame cur, ngroups)
          | _ :: _ => None
          end
  | TAtom r q :: toks' => parse toks' stack (push_term (r, q) cur) ngroups
  | TQuant min max greedy :: toks' =>
      match f_seq cur with
      | (r, true) :: terms =>
          parse toks' stack
                (Frame (f_kind cur) (f_alts cur) ((Quant r min max greedy, false) :: terms))
                ngroups
      | _ => None
      end
  | TOpen GCapture :: toks' =>
      parse toks' (cur :: stack) (Frame (Some (GCapture, S ngroups)) [] []) (S ngroups)
  | TOpen k :: toks' =>
      parse toks' (cur :: stack) (Frame (Some (k, O)) [] []) ngroups
  | TClose :: toks' =>
      match stack with
      | [] => None
      | parent :: stack' =>
          parse toks' stack' (push_term (wrap_group (f_kind cur) (close_frame cur)) parent)
                ngroups
      end
  | TBar :: toks' =>
      parse toks' stack (Frame (f_kind cur) (seq_of (f_seq cur) :: f_alts cur) []) ngroups
  end.

(** [compile pattern] is the term of the pattern and its number of capturing groups. *)
Definition compile (pattern : jsstring) : option (regex * nat) :=
  match lex None pattern with
  | Some toks => parse toks [] (Frame None [] []) O
  | None => None
  end.

(** *** Matching

    A match state is a position in the input (the code unit before it, the
    text after it, its index) and the captures made so far, each a pair of
    a start and an end index. *)

Record MatchState := MkState {
  ms_prev : option N;
  ms_rest : jsstring;
  ms_end : nat;
  ms_caps : list (nat * (nat * nat))
}.

Definition Continuation := MatchState -> option MatchState.

Definition advance (x : MatchState) (c : N) (rest : jsstring) : MatchState :=
  MkState (Some c) rest (S (ms_end x)) (ms_caps x).

Definition set_capture (i : nat) (range : nat * nat) (x : MatchState) : MatchState :=
  MkState (ms_prev x) (ms_rest x) (ms_end x)
          ((i, range) :: filter (fun e => negb (Nat.eqb (fst e) i)) (ms_caps x)).

Definition clear_captures (gs : list nat) (x : MatchState) : MatchState :=
  MkState (ms_prev x) (ms_rest x) (ms_end x)
          (filter (fun e => negb (existsb (Nat.eqb (fst e)) gs)) (ms_caps x)).

Definition with_captures (caps : list (nat * (nat * nat))) (x : MatchState) : MatchState :=
  MkState (ms_prev x) (ms_rest x) (ms_end x) caps.

Definition word_before (x : MatchState) : bool :=
  match ms_prev x with Some c => is_word_char c | None => false end.

Definition word_after (x : MatchState) : bool :=
  match ms_rest x with c :: _ => is_word_char c | [] => false end.

Definition at_word_boundary (x : MatchState) : bool :=
  xorb (word_before x) (word_after x).

Definition at_line_start (multiline : bool) (x : MatchState) : bool :=
  match ms_prev x with
  | None => true
  | Some c => multiline && is_line_terminator c
  end.

Definition at_line_end (multiline : bool) (x : MatchState) : bool :=
  match ms_rest x with
  | [] => true
  | c :: _ => multiline && is_line_terminator c
  end.

(** One code unit that satisfies [p]. *)
Definition match_char (p : N -> bool) (x : MatchState) (c : Continuation)
  : option MatchState :=
  match ms_rest x with
  | a :: rest => if p a then c (advance x a rest) else None
  | [] => None
  end.

Definition or_else (a : option MatchState) (b : unit -> option MatchState)
  : option MatchState :=
  match a with
  | Some z => Some z
  | None => b tt
  end.

(** RepeatMatcher: [m] is the matcher of the quantified term and [gs] its
    capturing groups.  The captures of the term are cleared before each
    iteration, and once the mandatory iterations are done an iteration that
    consumes nothing fails.  Every iteration therefore uses up one mandatory
    iteration or consumes input, so [min] plus the length of the remaining
    input bounds their number: with that [fuel], the case [O] is reached only
    where no further iteration can succeed. *)
Fixpoint repeat_matcher (m : MatchState -> Continuation -> option MatchState)
  (gs : list nat) (greedy : bool) (c : Continuation)
  (fuel min : nat) (max : option nat) (x : MatchState) {struct fuel}
  : option MatchState :=
  match max, fuel with
  | Some O, _ => c x
  | _, O => c x
  | _, S fuel' =>
      let d := fun y =>
        if Nat.eqb min 0 && Nat.eqb (ms_end y) (ms_end x) then None
        else repeat_matcher m gs greedy c fuel' (pred min) (option_map pred max) y in
      let xr := clear_captures gs x in
      if negb (Nat.eqb min 0) then m xr d
      else if greedy then or_else (m xr d) (fun _ => c x)
      else or_else (c x) (fun _ => m xr d)
  end.

(** The matcher of a term, in continuation-passing style: [c] is what remains
    to be matched after the term, and backtracking is the order in which the
    alternatives are tried. *)
Fixpoint matcher (multiline : bool) (r : regex) (x : MatchState) (c : Continuation)
  {struct r} : option MatchState :=
  match r with
  | Empty => c x
  | Char ch => match_char (N.eqb ch) x c
  | Dot => match_char (fun a => negb (is_line_terminator a)) x c
  | Class neg items => match_char (class_mem neg items) x c
  | Seq r1 r2 => matcher multiline r1 x (fun y => matcher multiline r2 y c)
  | Alt r1 r2 => or_else (matcher multiline r1 x c) (fun _ => matcher multiline r2 x c)
  | Quant r' min max greedy =>
      repeat_matcher (matcher multiline r') (groups r') greedy c
                     (min + length (ms_rest x)) min max x
  | Group i r' =>
      matcher multiline r' x (fun y => c (set_capture i (ms_end x, ms_end y) y))
  | Look neg r' =>
      match matcher multiline r' x (fun y => Some y) with
      | Some y => if neg then None else c (with_captures (ms_caps y) x)
      | None => if neg then c x else None
      end
  | Bol => if at_line_start multiline x then c x else None
  | Eol => if at_line_end multiline x then c x else None
  | WordBoundary => if at_word_boundary x then c x else None
  | NotWordBoundary => if at_word_boundary x then None else c x
  end.

(** *** RegExp objects *)

Record RegExp := MkRegExp {
  re_term : regex;
  re_ngroups : nat;
  re_global : bool;
  re_multiline : bool;
  lastIndex : nat
}.

Definition set_lastIndex (re : RegExp) (i : nat) : RegExp :=
  MkRegExp (re_term re) (re_ngroups re) (re_global re) (re_multiline re) i.

(** The flags [g] and [m], each at most once. *)
Fixpoint parse_flags (fl : jsstring) (g m : bool) : option (bool * bool) :=
  match fl with
  | [] => Some (g, m)
  | c :: fl' =>
      if c =? 103 then (if g then None else parse_flags fl' true m)
      else if c =? 109 then (if m then None else parse_flags fl' g true)
      else None
  end.

(** [new RegExp(pattern, flags)], also a literal [/pattern/flags]. *)
Definition new_RegExp (pattern flags : jsstring) : option RegExp :=
  match compile pattern, parse_flags flags false false with
  | Some (r, n), Some (g, m) => Some (MkRegExp r n g m 0)
  | _, _ => None
  end.

(** The array that [exec] and [match] answer: [m_index] is its [index]
    property, element 0 the matched text, element [i] the text of group [i]
    or [undefined]; [m_end] is the index where the match ends. *)
Record MatchArray := MkMatch {
  m_index : nat;
  m_end : nat;
  m_items : list value
}.

Definition capture_text (input : jsstring) (caps : list (nat * (nat * nat))) (i : nat)
  : value :=
  match find (fun e => Nat.eqb (fst e) i) caps with
  | Some (_, (a, b)) => Str (substring input a b)
  | None => Undefined
  end.

(** [m[i]]; an index past the end of the array reads [undefined]. *)
Definition item (m : MatchArray) (i : nat) : value := nth i (m_items m) Undefined.

Definition match_array (re : RegExp) (input : jsstring) (start : nat) (y : MatchState)
  : MatchArray :=
  MkMatch start (ms_end y)
          (Str (substring input start (ms_end y))
           :: map (capture_text input (ms_caps y)) (seq 1 (re_ngroups re))).

(** The matcher of the whole pattern at one position. *)
Definition match_at (re : RegExp) (x : MatchState) : option MatchState :=
  matcher (re_multiline re) (re_term re) x (fun y => Some y).

(** Try the positions from the current one to the end of the input. *)
Fixpoint search (re : RegExp) (input : jsstring) (prev : option N) (rest : jsstring)
  (i : nat) {struct rest} : option MatchArray :=
  match match_at re (MkState prev rest i []) with
  | Some y => Some (match_array re input i y)
  | None =>
      match rest with
      | [] => None
      | c :: rest' => search re input (Some c) rest' (S i)
      end
  end.

Definition search_from (re : RegExp) (input : jsstring) (i : nat) : option MatchArray :=
  search re input (last (map Some (firstn i input)) None) (skipn i input) i.

(** [RegExp.prototype.exec]: the search starts at [lastIndex] for a global
    RegExp and at 0 otherwise; a global RegExp has its [lastIndex] set to the
    end of the match, or to 0 when there is none. *)
Definition exec (re : RegExp) (input : jsstring) : option MatchArray * RegExp :=
  let start := if re_global re then lastIndex re else O in
  if (length input <? start)%nat then
    (None, if re_global re then set_lastIndex re 0 else re)
  else
    match search_from re input start with
    | Some m => (Some m, if re_global re then set_lastIndex re (m_end m) else re)
    | None => (None, if re_global re then set_lastIndex re 0 else re)
    end.

(** [RegExp.prototype.test]. *)
Definition test (re : RegExp) (input : jsstring) : bool * RegExp :=
  match exec re input with
  | (Some _, re') => (true, re')
  | (None, re') => (false, re')
  end.

End Regex.

(* ================================================================== *)
(** ** The functions of tool.ts *)
(* ================================================================== *)

Module Tool.

Import JS Regex.

(** A call either returns or fails: [new RegExp] rejects the pattern (or the
    pattern is outside the modelled fragment), a method is called on
    [undefined], or a loop is cut off by its iteration bound. *)
Inductive failure := BadPattern | TypeError | OutOfFuel.

Inductive result (A : Type) :=
  | Ok (a : A)
  | Fail (f : failure).

Arguments Ok {A} a.
Arguments Fail {A} f.

Definition bind {A B} (r : result A) (k : A -> result B) : result B :=
  match r with
  | Ok a => k a
  | Fail f => Fail f
  end.

Notation "x <- r ;; k" := (bind r (fun x => k))
  (at level 61, r at next level, right associativity).

Definition regexp (pattern flags : jsstring) : result RegExp :=
  match new_RegExp pattern flags with
  | Some re => Ok re
  | None => Fail BadPattern
  end.

Fixpoint mapM {A B} (f : A -> result B) (l : list A) : result (list B) :=
  match l with
  | [] => Ok []
  | a :: l' => b <- f a ;; bs <- mapM f l' ;; Ok (b :: bs)
  end.

(** The loop [while ((m = regex.exec(str)) !== null) { if (m.index ===
    regex.lastIndex) regex.lastIndex++; body }] over a state [st]; it
    answers the final state and the RegExp object as the loop leaves it. *)
Fixpoint exec_while {St} (fuel : nat) (regex : RegExp) (str : jsstring)
  (body : MatchArray -> St -> St) (st : St) : result (St * RegExp) :=
  match fuel with
  | O => Fail OutOfFuel
  | S fuel' =>
      match exec regex str with
      | (None, regex') => Ok (st, regex')
      | (Some m, regex') =>
          let regex'' :=
            if Nat.eqb (m_index m) (lastIndex regex')
            then set_lastIndex regex' (S (lastIndex regex'))
            else regex' in
          exec_while fuel' regex'' str body (body m st)
      end
  end.

(** Each iteration moves [lastIndex] forward, and [exec] answers [null] once
    it is past the end of the text. *)
Definition loop_bound (str : jsstring) : nat := length str + 2.

(** Modelled from the spec: [TextUtils.matchAll] of utils/TextUtils, which is
    not among the sources: the generic match-all utility, the array of every
    match of a global RegExp in the text, in order. *)
Definition matchAll (content : jsstring) (regex : RegExp) : result (list MatchArray) :=
  r <- exec_while (loop_bound content) regex content (fun m acc => acc ++ [m]) [] ;;
  Ok (fst r).

(** [String.prototype.replace(regex, rep)] for a global RegExp and a
    replacement text without [$]: the text between the matches, with [rep]
    in place of each match. *)
Fixpoint splice (s : jsstring) (ms : list MatchArray) (rep : jsstring) (from : nat)
  : jsstring :=
  match ms with
  | [] => skipn from s
  | m :: ms' =>
      if (from <=? m_index m)%nat
      then substring s from (m_index m) ++ rep ++ splice s ms' rep (m_end m)
      else splice s ms' rep from
  end.

Definition replace_all (s : jsstring) (regex : RegExp) (rep : jsstring) : result jsstring :=
  ms <- matchAll s (set_lastIndex regex 0) ;;
  Ok (splice s ms rep 0).

Definition quote : jsstring := [34%N].
Definition newline : jsstring := [10%N].

(** *** matchAddPath *)

Definition addpath_pattern : jsstring :=
  u "^(?!\%)addpath\([" ++ quote ++ u "'](\S+)[" ++ quote ++ u "']\)".

Definition matchAddPath (str : jsstring) : result (list value) :=
  regex <- regexp addpath_pattern (u "gm") ;;
  r <- exec_while (loop_bound str) regex str
         (fun m addPaths =>
            (* m.forEach(() => { m && addPaths.push(m[1]) }) *)
            fold_left (fun acc _ => acc ++ [item m 1]) (m_items m) addPaths)
         [] ;;
  Ok (fst r).

(** *** getCurrentFileVariables *)

Definition keywordSet : list value :=
  map (fun k => Str (u k))
      ["break"; "case"; "catch"; "classdef"; "continue"; "else"; "elseif"; "end";
       "for"; "function"; "global"; "if"; "otherwise"; "parfor"; "persistent";
       "return"; "spmd"; "switch"; "try"; "while"]%string.

Definition getCurrentFileVariables (content : jsstring) : result (list value) :=
  regex <- regexp (u "\b([\w_]+)\b") (u "gm") ;;
  r <- exec_while (loop_bound content) regex content
         (fun m res => fold_left (fun acc match_ => set_add acc match_) (m_items m) res)
         [] ;;
  filter_re <- regexp (u "[^0-9]\S+") [] ;;
  Ok (filter (fun v => fst (test filter_re (to_string v)) && negb (set_has keywordSet v))
             (fst r)).

(** *** getRowCol *)

Record RowCol := MkRowCol { row : nat; col : nat }.

Definition FUNCTION_PART : jsstring := u "function ".

(** The [for] loop of case 2 from line [i] on: it stops at the first line
    that contains [FUNCTION_PART]. *)
Fixpoint function_line (word : jsstring) (arr : list jsstring) (i : nat)
  : result (option RowCol) :=
  match arr with
  | [] => Ok None
  | functionLine :: arr' =>
      if negb (indexOf functionLine FUNCTION_PART =? -1)%Z then
        regSingle <- regexp (u "\b" ++ word ++ u "\b") [] ;;
        match fst (exec regSingle functionLine) with
        | Some resSingle =>
            if negb (Nat.eqb (m_index resSingle) 0)
            then Ok (Some (MkRowCol i (m_index resSingle)))
            else Ok None
        | None => Ok None
        end
      else function_line word arr' (S i)
  end.

Definition getRowCol (content word : jsstring) : result (option RowCol) :=
  (* Case 1: in body. *)
  reg <- regexp (u "\b" ++ word ++ u "\s*=") (u "m") ;;
  match fst (exec reg content) with
  | Some res =>
      let rows := split (slice content 0 (Z.of_nat (m_index res))) newline in
      let row := (length rows - 1)%nat in
      let col := length (nth row rows []) in
      Ok (Some (MkRowCol row col))
  | None =>
      (* Case 2: in function declaration *)
      if negb (indexOf content FUNCTION_PART =? -1)%Z
      then function_line word (split content newline) 0
      else Ok None
  end.

(** *** getRangesByName *)

Record Range := MkRange { r_row : nat; r_column : nat }.

(** One callback of [content.split("\n").forEach((v, i) => ...)]: the RegExp
    object and the result array are shared by all the lines. *)
Definition ranges_of_line (v : jsstring) (i : nat) (st : RegExp * list Range)
  : result (RegExp * list Range) :=
  r <- exec_while (loop_bound v) (fst st) v
         (fun m result => result ++ [MkRange i (m_index m)]) (snd st) ;;
  Ok (snd r, fst r).

Fixpoint forEach_line (lines : list jsstring) (i : nat) (st : RegExp * list Range)
  : result (RegExp * list Range) :=
  match lines with
  | [] => Ok st
  | v :: lines' => st' <- ranges_of_line v i st ;; forEach_line lines' (S i) st'
  end.

Definition getRangesByName (content name : jsstring) : result (list Range) :=
  regex <- regexp (u "\b" ++ name ++ u "\b") (u "g") ;;
  st <- forEach_line (split content newline) 0 (regex, []) ;;
  Ok (snd st).

(** *** findMemberNames, getStructNames, getStructCompletions *)

(** A string method called on [undefined] throws. *)
Definition as_string (v : value) : result jsstring :=
  match v with
  | Str s => Ok s
  | Undefined => Fail TypeError
  end.

Definition findMemberNames (fileName content structName : jsstring)
  : result (list jsstring) :=
  regex <- regexp (u "\s?" ++ structName ++ u "\.(\S+);?") (u "gm") ;;
  res <- matchAll content regex ;;
  names <- mapM (fun v => s <- as_string (item v 1) ;;
                          Ok (replace_first (u ":") [] (replace_first (u ";") [] s)))
                res ;;
  (* exclude variant member names *)
  let names := filter (fun v => negb (includes v (u "("))) names in
  (* unique it *)
  Ok (filteri (fun v i => (array_indexOf (map Str names) (Str v) =? Z.of_nat i)%Z) names).

Definition getStructNames (fileName content : jsstring) : result (list value) :=
  (* get all struct names *)
  regex <- regexp (u "([a-zA-Z\_][0-9a-zA-Z\_]*)\.") (u "gm") ;;
  res <- matchAll content regex ;;
  let structNames := map (fun v => item v 1) res in
  (* unique it and exclude filename *)
  let basename := slice fileName 0 (Z.of_nat (length fileName) - 2) in
  Ok (filteri (fun v i => (array_indexOf structNames v =? Z.of_nat i)%Z
                          && negb (value_eqb v (Str basename)))
              structNames).

Record StructCompletion := MkStructCompletion {
  sc_name : value;
  sc_members : list jsstring
}.

Definition getStructCompletions (fileName content : jsstring)
  : result (list StructCompletion) :=
  structNames <- getStructNames fileName content ;;
  mapM (fun name =>
          members <- findMemberNames fileName content (to_string name) ;;
          Ok (MkStructCompletion name members))
       structNames.

(** *** getFunctionCall *)

Record FunctionCall := MkFunctionCall {
  fc_name : value;
  fc_params : list jsstring;
  fc_returns : list jsstring
}.

(** [v.replace(/\s/g, '').split(',')] *)
Definition comma_list (v : value) : result (list jsstring) :=
  s <- as_string v ;;
  ws <- regexp (u "\s") (u "g") ;;
  t <- replace_all s ws [] ;;
  Ok (split t (u ",")).

Definition getFunctionCall (content : jsstring) : result (list FunctionCall) :=
  (* multiple returns *)
  regexMultiple <- regexp (u "\[(.+)\]\s*=\s*(\S+)\((.*)\)") (u "g") ;;
  resMultiple <- matchAll content regexMultiple ;;
  res <- mapM (fun v =>
                 returns <- comma_list (item v 1) ;;
                 params <- comma_list (item v 3) ;;
                 Ok (MkFunctionCall (item v 2) params returns))
              resMultiple ;;
  Ok ([] ++ res).

End Tool.

(* ================================================================== *)
(** ** Properties *)
(* ================================================================== *)

Import JS Regex Tool.

Unset Implicit Arguments.

(** [eval_closed t] replaces the closed subterm [t] of the goal by its value. *)
Ltac eval_closed t :=
  let v := eval vm_compute in t in
  replace t with v by (vm_compute; reflexivity).

Ltac eval_regexp :=
  repeat match goal with
         | |- context [regexp ?p ?f] => eval_closed (regexp p f)
         end;
  cbn [bind].

Ltac eval_matchAll :=
  match goal with
  | |- context [matchAll ?c ?r] => eval_closed (matchAll c r)
  end;
  cbn [bind].

Lemma str_eqb_eq a b : str_eqb a b = true <-> a = b.
Proof. unfold str_eqb; destruct (list_eq_dec N.eq_dec a b); split; congruence. Qed.

Lemma str_eqb_neq a b : str_eqb a b = false <-> a <> b.
Proof. unfold str_eqb; destruct (list_eq_dec N.eq_dec a b); split; congruence. Qed.

Lemma str_eqb_refl a : str_eqb a a = true.
Proof. now apply str_eqb_eq. Qed.

Lemma value_eqb_eq a b : value_eqb a b = true <-> a = b.
Proof.
  destruct a as [|x], b as [|y]; simpl; try (split; congruence).
  rewrite str_eqb_eq. split; congruence.
Qed.

Lemma value_eqb_refl a : value_eqb a a = true.
Proof. now apply value_eqb_eq. Qed.

(** *** C1: struct names and members of a small text *)

Definition basename (fileName : jsstring) : jsstring :=
  slice fileName 0 (Z.of_nat (length fileName) - 2).

Definition struct_text : jsstring := u "s.a = 1; s.b(2); s.a;".

(** C1.  On the text [s.a = 1; s.b(2); s.a;], for a file whose base name is
    not [s], [getStructNames] answers exactly [["s"]] and [findMemberNames]
    for [s] answers exactly [["a"]]: the three tokens after [s.] are [a],
    [b(2);] and [a;], the second holds a parenthesis and is dropped, and the
    two [a] are one entry. *)
Theorem C1_struct_names_and_members (fileName : jsstring) :
  basename fileName <> u "s" ->
  getStructNames fileName struct_text = Ok [Str (u "s")]
  /\ findMemberNames fileName struct_text (u "s") = Ok [u "a"]
  /\ (exists regex res,
        regexp (u "\s?" ++ u "s" ++ u "\.(\S+);?") (u "gm") = Ok regex
        /\ matchAll struct_text regex = Ok res
        /\ map (fun v => item v 1) res = [Str (u "a"); Str (u "b(2);"); Str (u "a;")])
  /\ includes (u "b(2)") (u "(") = true.
Proof.
  intros Hbase. unfold basename in Hbase.
  split; [|split; [|split]].
  - unfold getStructNames.
    set (b := slice fileName 0 _) in *.
    eval_regexp. eval_matchAll.
    cbn [map item m_items nth filteri filteri_from array_indexOf array_index_from
         value_eqb].
    apply not_eq_sym, str_eqb_neq in Hbase.
    change (u "s") with [115%N] in *. rewrite Hbase, !str_eqb_refl.
    reflexivity.
  - vm_compute. reflexivity.
  - do 2 eexists.
    split; [vm_compute; reflexivity|].
    split; vm_compute; reflexivity.
  - reflexivity.
Qed.

Lemma C1_struct_names_and_members_witness :
  getStructNames (u "main.m") struct_text = Ok [Str (u "s")]
  /\ findMemberNames (u "main.m") struct_text (u "s") = Ok [u "a"].
Proof.
  destruct (@C1_struct_names_and_members (u "main.m")) as (H1 & H2 & _).
  - vm_compute. discriminate.
  - split; assumption.
Defined.

(** *** C4: addpath directives *)

(** C4.  Each directive is pushed once per element of the match array, that
    is twice: the text [addpath('lib')] gives [["lib"; "lib"]], and two
    directives give four entries, in the order of the directives. *)
Theorem C4_addpath_entries_doubled :
  matchAddPath (u "addpath('lib')") = Ok [Str (u "lib"); Str (u "lib")]
  /\ matchAddPath (u "addpath('a')" ++ newline ++ u "addpath('b')")
     = Ok [Str (u "a"); Str (u "a"); Str (u "b"); Str (u "b")].
Proof. split; vm_compute; reflexivity. Qed.

(** *** C10: members of a suffix of a longer name *)

(** C10.  [findMemberNames] asks for no boundary before the struct name: in
    the text [xs.field], whose only dotted name is [xs], the members of [s]
    are [["field"]]. *)
Theorem C10_member_of_name_suffix :
  findMemberNames (u "main.m") (u "xs.field") (u "s") = Ok [u "field"]
  /\ getStructNames (u "main.m") (u "xs.field") = Ok [Str (u "xs")].
Proof. split; vm_compute; reflexivity. Qed.

(** *** Facts on the string methods *)

Lemma slice_prefix (s : jsstring) (i : nat) :
  slice s 0 (Z.of_nat i) = firstn i s.
Proof.
  unfold slice, clamp_index, substring.
  replace (0 <? 0)%Z with false by reflexivity.
  destruct (Z.ltb_spec (Z.of_nat i) 0) as [H|_]; [lia|].
  replace (Z.min 0 (Z.of_nat (length s))) with 0%Z by lia.
  cbn [Z.to_nat skipn]. rewrite Nat.sub_0_r.
  destruct (Nat.le_gt_cases i (length s)) as [H|H].
  - f_equal. lia.
  - replace (Z.to_nat _) with (length s) by lia.
    now rewrite firstn_all, firstn_all2 by lia.
Qed.

(** The pieces of [split] on a line feed: one more than there are line
    feeds, the last one being the text after the last line feed. *)
Lemma split_go_newline (s cur : jsstring) :
  exists before last_row,
    rev cur ++ s = before ++ last_row
    /\ (before = [] \/ exists b, before = b ++ newline)
    /\ (~ In 10%N cur -> ~ In 10%N last_row)
    /\ length (split_go newline s 0 cur) = S (count_occ N.eq_dec s 10%N)
    /\ nth (count_occ N.eq_dec s 10%N) (split_go newline s 0 cur) [] = last_row.
Proof.
  unfold newline. revert cur. induction s as [|c s IH]; intros cur.
  - exists [], (rev cur). cbn. rewrite app_nil_r.
    repeat split; auto. intros H H'. apply H. now apply in_rev.
  - cbn [split_go starts_with count_occ].
    destruct (N.eq_dec c 10) as [->|Hc].
    + cbn [N.eqb Pos.eqb andb length Nat.sub].
      destruct (IH []) as (before & last_row & Happ & Hends & Hnl & Hlen & Hnth).
      cbn [rev app] in Happ.
      exists (rev cur ++ [10%N] ++ before), last_row.
      repeat split.
      * rewrite <- !app_assoc. cbn. now rewrite Happ.
      * right. destruct Hends as [->|[b ->]].
        -- exists (rev cur). now rewrite app_nil_r.
        -- exists (rev cur ++ [10%N] ++ b). now rewrite <- !app_assoc.
      * intros _. apply Hnl. easy.
      * cbn [length]. now rewrite Hlen.
      * exact Hnth.
    + replace (10 =? c)%N with false by (symmetry; apply N.eqb_neq; congruence).
      cbn [andb].
      destruct (IH (c :: cur)) as (before & last_row & Happ & Hends & Hnl & Hlen & Hnth).
      exists before, last_row. repeat split; auto.
      * rewrite <- Happ. cbn [rev]. now rewrite <- app_assoc.
      * intros H. apply Hnl. intros [E|E]; [congruence|auto].
Qed.

(** *** C2: the position answered by the assignment form *)

(** C2.  When the assignment pattern [\b<word>\s*=] matches, [getRowCol]
    answers the number of line feeds before the start of the match as the row
    and, as the column, the length of the text that lies between the start of
    the line of the match and the start of the match. *)
Theorem C2_assignment_position (content word : jsstring) (reg : RegExp) (res : MatchArray) :
  regexp (u "\b" ++ word ++ u "\s*=") (u "m") = Ok reg ->
  fst (exec reg content) = Some res ->
  exists before line_text,
    firstn (m_index res) content = before ++ line_text
    /\ (before = [] \/ exists b, before = b ++ newline)
    /\ ~ In 10%N line_text
    /\ getRowCol content word
       = Ok (Some {| row := count_occ N.eq_dec (firstn (m_index res) content) 10%N;
                     col := length line_text |}).
Proof.
  intros Hreg Hexec. unfold getRowCol. rewrite Hreg. cbn [bind].
  rewrite Hexec, slice_prefix.
  unfold split. cbn [newline].
  destruct (split_go_newline (firstn (m_index res) content) [])
    as (before & line_text & Happ & Hends & Hnl & Hlen & Hnth).
  exists before, line_text. cbn [rev app] in Happ.
  repeat split; auto.
  fold newline. rewrite Hlen. cbn [Nat.sub]. rewrite Nat.sub_0_r, Hnth.
  reflexivity.
Qed.

Definition assignment_text : jsstring :=
  u "a = 1;" ++ newline ++ u "  b = 2; y = x*2;".

Lemma C2_assignment_position_witness :
  exists before line_text,
    firstn 16 assignment_text = before ++ line_text
    /\ (before = [] \/ exists b, before = b ++ newline)
    /\ ~ In 10%N line_text
    /\ getRowCol assignment_text (u "y")
       = Ok (Some {| row := count_occ N.eq_dec (firstn 16 assignment_text) 10%N;
                     col := length line_text |}).
Proof.
  apply (@C2_assignment_position assignment_text (u "y")
           {| re_term := Seq WordBoundary
                           (Seq (Char 121)
                              (Seq (Quant (Class false [CSpace]) 0 None true)
                                 (Seq (Char 61) Empty)));
              re_ngroups := 0; re_global := false; re_multiline := true;
              lastIndex := 0 |}
           {| m_index := 16; m_end := 19; m_items := [Str (u "y =")] |});
    vm_compute; reflexivity.
Defined.

(** *** The matcher only moves forward *)

(** [y] is at or after [x] in the same input. *)
Definition ahead (x y : MatchState) : Prop :=
  exists mid, ms_rest x = mid ++ ms_rest y /\ ms_end y = ms_end x + length mid.

Lemma ahead_refl x : ahead x x.
Proof. exists []. split; [reflexivity | cbn; lia]. Qed.

Lemma ahead_trans x y z : ahead x y -> ahead y z -> ahead x z.
Proof.
  intros (m1 & H1 & H1') (m2 & H2 & H2'). exists (m1 ++ m2).
  rewrite H1, H2, <- app_assoc, length_app. split; [reflexivity | lia].
Qed.

Lemma ahead_same_position x x' y :
  ms_rest x' = ms_rest x -> ms_end x' = ms_end x -> ahead x' y -> ahead x y.
Proof. intros Hr He (mid & H1 & H2). exists mid. rewrite <- Hr, <- He. auto. Qed.

Lemma ahead_to_same_position x y y' :
  ms_rest y' = ms_rest y -> ms_end y' = ms_end y -> ahead x y -> ahead x y'.
Proof. intros Hr He (mid & H1 & H2). exists mid. rewrite Hr, He. auto. Qed.

Lemma ahead_end x y : ahead x y -> ms_end x <= ms_end y.
Proof. intros (mid & _ & H). lia. Qed.

Lemma ahead_total_length x y :
  ahead x y -> ms_end y + length (ms_rest y) = ms_end x + length (ms_rest x).
Proof. intros (mid & H1 & H2). rewrite H1, length_app. lia. Qed.

(** A matcher is forward when each of its results is a result of its
    continuation at a state at or after the one it started from. *)
Definition forward (m : MatchState -> Continuation -> option MatchState) : Prop :=
  forall x c z, m x c = Some z -> exists y, ahead x y /\ c y = Some z.

Lemma match_char_forward p : forward (match_char p).
Proof.
  intros x c z. unfold match_char.
  destruct (ms_rest x) as [|a rest] eqn:E; [discriminate|].
  destruct (p a); [|discriminate]. intros H.
  exists (advance x a rest). split; [|exact H].
  exists [a]. cbn. rewrite E. split; [reflexivity | lia].
Qed.

Lemma repeat_matcher_forward m gs greedy c :
  forward m ->
  forall fuel min max x z,
    repeat_matcher m gs greedy c fuel min max x = Some z ->
    exists y, ahead x y /\ c y = Some z.
Proof.
  intros Hm. induction fuel as [|fuel IH]; intros min max x z H.
  - exists x. split; [apply ahead_refl|]. destruct max as [[|k]|]; exact H.
  - assert (Hstop : c x = Some z -> exists y, ahead x y /\ c y = Some z)
      by (intros Hc; exists x; split; [apply ahead_refl | exact Hc]).
    assert (Hiter :
              m (clear_captures gs x)
                (fun y => if Nat.eqb min 0 && Nat.eqb (ms_end y) (ms_end x) then None
                          else repeat_matcher m gs greedy c fuel (pred min)
                                              (option_map pred max) y) = Some z ->
              exists y, ahead x y /\ c y = Some z).
    { intros Hc. apply Hm in Hc. destruct Hc as (y & Hxy & Hd).
      destruct (Nat.eqb min 0 && Nat.eqb (ms_end y) (ms_end x)); [discriminate|].
      apply IH in Hd. destruct Hd as (y' & Hyy' & Hc).
      exists y'. split; [|exact Hc].
      apply ahead_trans with y; [|exact Hyy'].
      now apply ahead_same_position with (clear_captures gs x). }
    cbn [repeat_matcher] in H.
    destruct max as [[|k]|]; [now apply Hstop| |].
    all: destruct (negb (Nat.eqb min 0)); [now apply Hiter|].
    all: destruct greedy; unfold or_else in H.
    all: match type of H with
         | match ?a with _ => _ end = _ => destruct a eqn:E
         end.
    all: try (injection H as <-).
    all: auto.
Qed.

Lemma matcher_forward multiline r : forward (matcher multiline r).
Proof.
  induction r as [|ch| |neg items|r1 IH1 r2 IH2|r1 IH1 r2 IH2|r IH min max greedy
                 |i r IH|neg r IH| | | |]; intros x c z H; cbn [matcher] in H.
  - exists x. split; [apply ahead_refl | exact H].
  - now apply match_char_forward in H.
  - now apply match_char_forward in H.
  - now apply match_char_forward in H.
  - apply IH1 in H. destruct H as (y & Hxy & H). apply IH2 in H.
    destruct H as (y' & Hyy' & H). exists y'. split; [|exact H].
    now apply ahead_trans with y.
  - unfold or_else in H. destruct (matcher multiline r1 x c) eqn:E.
    + injection H as <-. now apply IH1.
    + now apply IH2.
  - now apply (repeat_matcher_forward _ _ _ _ IH) in H.
  - apply IH in H. destruct H as (y & Hxy & H).
    exists (set_capture i (ms_end x, ms_end y) y). split; [|exact H].
    now apply ahead_to_same_position with y.
  - destruct (matcher multiline r x (fun y => Some y)) as [y|]; destruct neg;
      try discriminate.
    + exists (with_captures (ms_caps y) x). split; [|exact H].
      apply ahead_to_same_position with x; auto using ahead_refl.
    + exists x. split; [apply ahead_refl | exact H].
  - destruct (at_line_start multiline x); [|discriminate].
    exists x. split; [apply ahead_refl | exact H].
  - destruct (at_line_end multiline x); [|discriminate].
    exists x. split; [apply ahead_refl | exact H].
  - destruct (at_word_boundary x); [|discriminate].
    exists x. split; [apply ahead_refl | exact H].
  - destruct (at_word_boundary x); [discriminate|].
    exists x. split; [apply ahead_refl | exact H].
Qed.

(** A match of the whole pattern ends at or after its start, inside the input. *)
Lemma match_at_ahead re x y : match_at re x = Some y -> ahead x y.
Proof.
  unfold match_at. intros H. apply matcher_forward in H.
  destruct H as (y' & Hxy & H). now injection H as <-.
Qed.

(** *** The matches that an [exec] loop sees *)

(** The code unit before position [length pre] of [pre ++ rest]. *)
Definition last_opt (pre : jsstring) : option N := last (map Some pre) None.

(** The value of [lastIndex] after the loop has handled the match [m]. *)
Definition next_index (m : MatchArray) : nat :=
  if Nat.eqb (m_index m) (m_end m) then S (m_end m) else m_end m.

(** One pass over the input: the positions before [from] are passed over, at
    the others the pattern is tried, and a match moves [from] forward. *)
Fixpoint scan (re : RegExp) (input : jsstring) (prev : option N) (rest : jsstring)
  (i from : nat) {struct rest} : list MatchArray :=
  match (if (i <? from)%nat then None else match_at re (MkState prev rest i [])) with
  | Some y =>
      let m := match_array re input i y in
      m :: match rest with
           | [] => []
           | c :: rest' => scan re input (Some c) rest' (S i) (next_index m)
           end
  | None =>
      match rest with
      | [] => []
      | c :: rest' => scan re input (Some c) rest' (S i) from
      end
  end.

Definition scan_at (re : RegExp) (input : jsstring) (from : nat) : list MatchArray :=
  if (length input <? from)%nat then []
  else scan re input (last_opt (firstn from input)) (skipn from input) from from.

Definition all_matches (re : RegExp) (input : jsstring) : list MatchArray :=
  scan re input None input 0 0.

Lemma last_opt_snoc pre c : last_opt (pre ++ [c]) = Some c.
Proof. unfold last_opt. rewrite map_app. cbn [map]. now rewrite last_last. Qed.

Lemma firstn_length_app {A} (pre rest : list A) : firstn (length pre) (pre ++ rest) = pre.
Proof. now rewrite firstn_app, Nat.sub_diag, firstn_all, app_nil_r. Qed.

Lemma skipn_length_app {A} (pre rest : list A) : skipn (length pre) (pre ++ rest) = rest.
Proof. now rewrite skipn_app, Nat.sub_diag, skipn_all. Qed.

Lemma set_lastIndex_twice re i j : set_lastIndex (set_lastIndex re i) j = set_lastIndex re j.
Proof. reflexivity. Qed.

Lemma search_lastIndex re k input prev rest i :
  search (set_lastIndex re k) input prev rest i = search re input prev rest i.
Proof. revert prev i. induction rest as [|c rest IH]; intros; cbn; now rewrite ?IH. Qed.

(** Positions before [from] are passed over. *)
Lemma scan_jump re input from :
  forall rest pre,
    input = pre ++ rest -> length pre <= from ->
    scan re input (last_opt pre) rest (length pre) from = scan_at re input from.
Proof.
  induction rest as [|c rest IH]; intros pre Hin Hle.
  - rewrite app_nil_r in Hin. subst input. unfold scan_at.
    destruct (Nat.ltb_spec (length pre) from) as [H|H].
    + cbn [scan]. destruct (Nat.ltb_spec (length pre) from); [reflexivity | lia].
    + assert (from = length pre) as -> by lia.
      now rewrite firstn_all, skipn_all.
  - destruct (Nat.eq_dec (length pre) from) as [<-|Hne].
    + unfold scan_at. subst input.
      rewrite firstn_length_app, skipn_length_app.
      destruct (Nat.ltb_spec (length (pre ++ c :: rest)) (length pre)) as [H|H];
        [rewrite length_app in H; lia | reflexivity].
    + cbn [scan]. destruct (Nat.ltb_spec (length pre) from) as [_|H]; [|lia].
      specialize (IH (pre ++ [c])).
      rewrite last_opt_snoc, length_app, Nat.add_1_r in IH. apply IH.
      * now rewrite <- app_assoc.
      * lia.
Qed.

(** A pass from an active position: the first match that [search] finds,
    then the pass from the index that the loop leaves in [lastIndex]. *)
Lemma scan_search re input :
  forall rest pre from,
    input = pre ++ rest -> from <= length pre ->
    scan re input (last_opt pre) rest (length pre) from
    = match search re input (last_opt pre) rest (length pre) with
      | Some m => m :: scan_at re input (next_index m)
      | None => []
      end.
Proof.
  induction rest as [|c rest IH]; intros pre from Hin Hle.
  - cbn [scan search]. destruct (Nat.ltb_spec (length pre) from) as [H|_]; [lia|].
    destruct (match_at re _) as [y|] eqn:E; [|reflexivity].
    f_equal. unfold scan_at.
    apply match_at_ahead, ahead_end in E. cbn in E.
    rewrite app_nil_r in Hin. subst input.
    destruct (Nat.ltb_spec (length pre) (next_index (match_array re pre (length pre) y)))
      as [_|H]; [reflexivity|].
    unfold next_index in H. cbn [match_array m_index m_end] in H.
    destruct (Nat.eqb_spec (length pre) (ms_end y)); lia.
  - cbn [scan search]. destruct (Nat.ltb_spec (length pre) from) as [H|_]; [lia|].
    destruct (match_at re _) as [y|] eqn:E.
    + f_equal.
      specialize (scan_jump re input (next_index (match_array re input (length pre) y))
                            rest (pre ++ [c])) as J.
      rewrite last_opt_snoc, length_app, Nat.add_1_r in J. apply J.
      * now rewrite <- app_assoc.
      * apply match_at_ahead, ahead_end in E. cbn in E.
        unfold next_index. cbn [match_array m_index m_end].
        destruct (Nat.eqb_spec (length pre) (ms_end y)); lia.
    + specialize (IH (pre ++ [c]) from).
      rewrite last_opt_snoc, length_app, Nat.add_1_r in IH. apply IH.
      * now rewrite <- app_assoc.
      * lia.
Qed.

(** What [search] finds starts at or after the position searched from and
    ends inside the input. *)
Lemma search_bounds re input :
  forall rest pre m,
    input = pre ++ rest ->
    search re input (last_opt pre) rest (length pre) = Some m ->
    length pre <= m_index m /\ m_index m <= m_end m /\ m_end m <= length input.
Proof.
  induction rest as [|c rest IH]; intros pre m Hin H; cbn [search] in H;
    destruct (match_at re _) as [y|] eqn:E; try discriminate.
  1, 2: injection H as <-; cbn [match_array m_index m_end];
    pose proof (ahead_end _ _ (match_at_ahead _ _ _ E)) as H1;
    pose proof (ahead_total_length _ _ (match_at_ahead _ _ _ E)) as H2;
    cbn in H1, H2; subst input; rewrite length_app; cbn [length] in *; lia.
  specialize (IH (pre ++ [c]) m).
  rewrite last_opt_snoc, length_app, Nat.add_1_r in IH.
  destruct IH as (H1 & H2 & H3); [now rewrite <- app_assoc | exact H |].
  lia.
Qed.

Lemma search_from_eq re input from :
  from <= length input ->
  search_from re input from
  = search re input (last_opt (firstn from input)) (skipn from input)
           (length (firstn from input)).
Proof. intros H. unfold search_from, last_opt. now rewrite length_firstn, Nat.min_l. Qed.

Lemma scan_at_eq re input from :
  from <= length input ->
  scan_at re input from
  = scan re input (last_opt (firstn from input)) (skipn from input)
         (length (firstn from input)) from.
Proof.
  intros H. unfold scan_at. rewrite length_firstn, Nat.min_l by exact H.
  destruct (Nat.ltb_spec (length input) from); [lia | reflexivity].
Qed.

Lemma scan_lastIndex re k input prev rest i from :
  scan (set_lastIndex re k) input prev rest i from = scan re input prev rest i from.
Proof.
  revert prev i from. induction rest as [|c rest IH]; intros; cbn [scan].
  - reflexivity.
  - change (match_at (set_lastIndex re k)) with (match_at re).
    change (match_array (set_lastIndex re k)) with (match_array re).
    destruct (if (i <? from)%nat then None else match_at re _); now rewrite IH.
Qed.

(** The loop of [exec_while] on a global RegExp ends, having run its body on
    the matches of one pass, and leaves [lastIndex] at 0. *)
Lemma exec_while_scan {St} re input (body : MatchArray -> St -> St) :
  re_global re = true ->
  forall fuel from st,
    from <= S (length input) ->
    length input + 2 <= from + fuel ->
    exec_while fuel (set_lastIndex re from) input body st
    = Ok (fold_left (fun st m => body m st) (scan_at re input from) st,
          set_lastIndex re 0).
Proof.
  intros Hg. induction fuel as [|fuel IH]; intros from st Hfrom Hfuel; [lia|].
  cbn [exec_while]. unfold exec. cbn [re_global set_lastIndex lastIndex]. rewrite Hg.
  destruct (Nat.ltb_spec (length input) from) as [H|H].
  - unfold scan_at. destruct (Nat.ltb_spec (length input) from); [reflexivity | lia].
  - rewrite search_from_eq, scan_at_eq by exact H.
    fold (set_lastIndex re from). rewrite search_lastIndex.
    assert (Hin : input = firstn from input ++ skipn from input)
      by (symmetry; apply firstn_skipn).
    rewrite (scan_search re input (skipn from input) (firstn from input) from Hin)
      by (rewrite length_firstn; lia).
    destruct (search re input _ _ _) as [m|] eqn:E; [|reflexivity].
    destruct (search_bounds _ _ _ _ _ Hin E) as (H1 & H2 & H3).
    rewrite length_firstn, Nat.min_l in H1 by exact H.
    cbn [fold_left lastIndex set_lastIndex].
    assert (Hnext : (if Nat.eqb (m_index m) (m_end m)
                     then set_lastIndex (set_lastIndex (set_lastIndex re from) (m_end m))
                                        (S (m_end m))
                     else set_lastIndex (set_lastIndex re from) (m_end m))
                    = set_lastIndex re (next_index m)).
    { unfold next_index. now destruct (Nat.eqb (m_index m) (m_end m)). }
    rewrite Hnext. apply IH.
    + unfold next_index. destruct (Nat.eqb (m_index m) (m_end m)); lia.
    + unfold next_index. destruct (Nat.eqb_spec (m_index m) (m_end m)); lia.
Qed.

Lemma fold_left_snoc {A} (l acc : list A) :
  fold_left (fun acc m => acc ++ [m]) l acc = acc ++ l.
Proof.
  revert acc. induction l as [|a l IH]; intros acc; cbn.
  - now rewrite app_nil_r.
  - now rewrite IH, <- app_assoc.
Qed.

Lemma set_lastIndex_same re : set_lastIndex re (lastIndex re) = re.
Proof. now destruct re. Qed.

(** A RegExp fresh from its constructor. *)
Lemma regexp_fresh pattern flags re :
  regexp pattern flags = Ok re ->
  lastIndex re = 0
  /\ parse_flags flags false false = Some (re_global re, re_multiline re).
Proof.
  unfold regexp, new_RegExp. destruct (compile pattern) as [[r n]|]; [|discriminate].
  destruct (parse_flags flags false false) as [[g m]|]; [|discriminate].
  intros H. injection H as <-. split; reflexivity.
Qed.

Lemma regexp_gm pattern re :
  regexp pattern (u "gm") = Ok re ->
  lastIndex re = 0 /\ re_global re = true /\ re_multiline re = true.
Proof.
  intros H. apply regexp_fresh in H. destruct H as (H0 & H).
  cbn in H. injection H as <- <-. auto.
Qed.

Lemma regexp_g pattern re :
  regexp pattern (u "g") = Ok re ->
  lastIndex re = 0 /\ re_global re = true /\ re_multiline re = false.
Proof.
  intros H. apply regexp_fresh in H. destruct H as (H0 & H).
  cbn in H. injection H as <- <-. auto.
Qed.

(** A loop over a fresh global RegExp runs its body on all the matches. *)
Lemma exec_while_all {St} re input (body : MatchArray -> St -> St) st :
  re_global re = true -> lastIndex re = 0 ->
  exec_while (loop_bound input) re input body st
  = Ok (fold_left (fun st m => body m st) (all_matches re input) st, re).
Proof.
  intros Hg H0. rewrite <- (set_lastIndex_same re) at 1 3. rewrite H0.
  rewrite (exec_while_scan re input body Hg) by (unfold loop_bound; lia).
  reflexivity.
Qed.

Lemma matchAll_all re content :
  re_global re = true -> lastIndex re = 0 ->
  matchAll content re = Ok (all_matches re content).
Proof.
  intros Hg H0. unfold matchAll. rewrite exec_while_all by assumption.
  cbn [bind fst]. now rewrite fold_left_snoc.
Qed.

(** The matches of a pass are found at increasing positions. *)
Lemma scan_index re input :
  forall rest prev i from m,
    In m (scan re input prev rest i from) -> i <= m_index m.
Proof.
  induction rest as [|c rest IH]; intros prev i from m; cbn [scan];
    destruct (if (i <? from)%nat then None else match_at re _) as [y|].
  - intros [<-|[]]. cbn. lia.
  - intros [].
  - intros [<-|H]; [cbn; lia|]. apply IH in H. lia.
  - intros H. apply IH in H. lia.
Qed.

Lemma scan_sorted re input :
  forall rest prev i from,
    StronglySorted (fun a b => m_index a < m_index b) (scan re input prev rest i from).
Proof.
  induction rest as [|c rest IH]; intros prev i from; cbn [scan];
    destruct (if (i <? from)%nat then None else match_at re _) as [y|].
  - repeat constructor.
  - constructor.
  - constructor; [apply IH|]. apply Forall_forall. intros m H.
    apply scan_index in H. cbn. lia.
  - apply IH.
Qed.

(** Every match of a pass is a match of the pattern at its index, of the
    shape that [match_array] gives. *)
Lemma scan_sound re input :
  forall rest pre from m,
    input = pre ++ rest ->
    In m (scan re input (last_opt pre) rest (length pre) from) ->
    exists pre' rest' y,
      input = pre' ++ rest'
      /\ length pre <= length pre' /\ from <= length pre'
      /\ match_at re (MkState (last_opt pre') rest' (length pre') []) = Some y
      /\ m = match_array re input (length pre') y.
Proof.
  induction rest as [|c rest IH]; intros pre from m Hin H; cbn [scan] in H.
  - destruct (Nat.ltb_spec (length pre) from) as [Hlt|Hge]; [destruct H|].
    destruct (match_at re _) as [y|] eqn:E; [|destruct H].
    destruct H as [<-|[]]. exists pre, [], y. repeat split; auto.
  - assert (Hstep : forall from',
               In m (scan re input (Some c) rest (S (length pre)) from') ->
               exists pre' rest' y,
                 input = pre' ++ rest'
                 /\ S (length pre) <= length pre' /\ from' <= length pre'
                 /\ match_at re (MkState (last_opt pre') rest' (length pre') []) = Some y
                 /\ m = match_array re input (length pre') y).
    { intros from' H'. specialize (IH (pre ++ [c]) from' m).
      rewrite last_opt_snoc, length_app, Nat.add_1_r in IH.
      apply IH; [now rewrite <- app_assoc | exact H']. }
    destruct (Nat.ltb_spec (length pre) from) as [Hlt|Hge].
    + destruct (Hstep _ H) as (pre' & rest' & y & H1 & H2 & H3 & H4 & H5).
      exists pre', rest', y. repeat split; auto; lia.
    + destruct (match_at re _) as [y|] eqn:E.
      * destruct H as [<-|H]; [exists pre, (c :: rest), y; repeat split; auto|].
        destruct (Hstep _ H) as (pre' & rest' & y' & H1 & H2 & H3 & H4 & H5).
        exists pre', rest', y'. repeat split; auto; lia.
      * destruct (Hstep _ H) as (pre' & rest' & y' & H1 & H2 & H3 & H4 & H5).
        exists pre', rest', y'. repeat split; auto; lia.
Qed.

Lemma filteri_from_In {A} (f : A -> nat -> bool) (l : list A) (i : nat) (v : A) :
  In v (filteri_from f l i) -> exists j, f v j = true /\ In v l.
Proof.
  revert i. induction l as [|a l IH]; intros i; cbn [filteri_from]; [intros []|].
  destruct (f a i) eqn:E.
  - intros [<-|H]; [exists i; split; [exact E | now left]|].
    apply IH in H. destruct H as (j & H1 & H2). exists j. split; [exact H1 | now right].
  - intros H. apply IH in H. destruct H as (j & H1 & H2).
    exists j. split; [exact H1 | now right].
Qed.

Lemma mapM_Forall2 {A B} (f : A -> result B) (l : list A) (l' : list B) :
  mapM f l = Ok l' -> Forall2 (fun a b => f a = Ok b) l l'.
Proof.
  revert l'. induction l as [|a l IH]; intros l'; cbn [mapM bind].
  - intros H. injection H as <-. constructor.
  - destruct (f a) as [b|] eqn:E; [|discriminate].
    destruct (mapM f l) as [bs|]; [|discriminate].
    intros H. injection H as <-. constructor; auto.
Qed.

(** *** C3: the base name of the file is no struct name *)

Lemma basename_stem (stem ext : jsstring) :
  length ext = 2 -> basename (stem ++ ext) = stem.
Proof.
  intros H. unfold basename.
  replace (Z.of_nat (length (stem ++ ext)) - 2)%Z with (Z.of_nat (length stem))
    by (rewrite length_app; lia).
  rewrite slice_prefix. apply firstn_length_app.
Qed.

(** C3.  [getStructNames] always answers, and never with the base name of
    the file (the file name without its last two code units); the names of
    the completions of [getStructCompletions] are the names of
    [getStructNames], so none of them is the base name either.  For the file
    [foo.m] with the text [foo.bar] no struct name is found. *)
Theorem C3_base_name_excluded (fileName content : jsstring) :
  (exists names,
      getStructNames fileName content = Ok names
      /\ ~ In (Str (basename fileName)) names
      /\ forall completions,
           getStructCompletions fileName content = Ok completions ->
           map sc_name completions = names
           /\ forall c, In c completions -> sc_name c <> Str (basename fileName))
  /\ (forall stem ext,
         fileName = stem ++ ext -> length ext = 2 -> basename fileName = stem)
  /\ getStructNames (u "foo.m") (u "foo.bar") = Ok [].
Proof.
  split; [|split].
  - unfold getStructCompletions, getStructNames.
    destruct (regexp (u "([a-zA-Z\_][0-9a-zA-Z\_]*)\.") (u "gm")) as [regex|] eqn:E;
      [|vm_compute in E; discriminate].
    destruct (regexp_gm _ _ E) as (H0 & Hg & _).
    cbn [bind]. rewrite matchAll_all by assumption. cbn [bind].
    fold (basename fileName).
    set (structNames := map (fun v => item v 1) (all_matches regex content)).
    set (names := filteri _ structNames).
    assert (Hnot : ~ In (Str (basename fileName)) names).
    { intros H. apply filteri_from_In in H. destruct H as (j & H & _).
      rewrite value_eqb_refl, andb_false_r in H. discriminate. }
    exists names. repeat split; auto.
    + apply mapM_Forall2 in H. clear - H.
      induction H as [|a b l l' Hab H IH]; [reflexivity|].
      cbn [map]. rewrite IH. f_equal.
      destruct (findMemberNames _ _ _); [|discriminate].
      cbn [bind] in Hab. now injection Hab as <-.
    + intros c Hc Heq. apply Hnot.
      apply mapM_Forall2 in H.
      assert (Hin : In (sc_name c) names).
      { clear - H Hc. induction H as [|a b l l' Hab H IH]; [destruct Hc|].
        destruct (findMemberNames _ _ _); [|discriminate].
        cbn [bind] in Hab. injection Hab as <-.
        destruct Hc as [<-|Hc]; [now left | right; auto]. }
      now rewrite Heq in Hin.
  - intros stem ext -> H. now apply basename_stem.
  - vm_compute. reflexivity.
Qed.

Lemma C3_base_name_excluded_witness :
  getStructCompletions (u "foo.m") (u "foo.bar; s.a = 1")
  = Ok [MkStructCompletion (Str (u "s")) [u "a"]]
  /\ basename (u "foo.m") = u "foo"
  /\ forall c, In c [MkStructCompletion (Str (u "s")) [u "a"]] ->
               sc_name c <> Str (basename (u "foo.m")).
Proof.
  destruct (C3_base_name_excluded (u "foo.m") (u "foo.bar; s.a = 1"))
    as ((names & Hn & _ & Hc) & Hb & _).
  assert (E : getStructCompletions (u "foo.m") (u "foo.bar; s.a = 1")
              = Ok [MkStructCompletion (Str (u "s")) [u "a"]])
    by (vm_compute; reflexivity).
  split; [exact E|]. split.
  - apply (Hb (u "foo") (u ".m")); reflexivity.
  - exact (proj2 (Hc _ E)).
Defined.

(** *** C6: the occurrences of a name *)

(** Row-major order: an earlier row, or the same row and an earlier column. *)
Definition range_lt (a b : Range) : Prop :=
  r_row a < r_row b \/ (r_row a = r_row b /\ r_column a < r_column b).

(** The ranges that the lines from row [i] on contribute. *)
Fixpoint ranges_from (re : RegExp) (lines : list jsstring) (i : nat) : list Range :=
  match lines with
  | [] => []
  | v :: lines' =>
      map (fun m => MkRange i (m_index m)) (all_matches re v) ++ ranges_from re lines' (S i)
  end.

Lemma fold_left_ranges i (ms : list MatchArray) (acc : list Range) :
  fold_left (fun result m => result ++ [MkRange i (m_index m)]) ms acc
  = acc ++ map (fun m => MkRange i (m_index m)) ms.
Proof.
  revert acc. induction ms as [|m ms IH]; intros acc; cbn.
  - now rewrite app_nil_r.
  - now rewrite IH, <- app_assoc.
Qed.

(** The RegExp object is shared by the lines, and each line finds it with
    [lastIndex] at 0, where the loop of the line before has left it. *)
Lemma forEach_line_ranges re :
  re_global re = true -> lastIndex re = 0 ->
  forall lines i acc,
    forEach_line lines i (re, acc) = Ok (re, acc ++ ranges_from re lines i).
Proof.
  intros Hg H0. induction lines as [|v lines IH]; intros i acc; cbn [forEach_line].
  - cbn. now rewrite app_nil_r.
  - unfold ranges_of_line. cbn [fst snd].
    rewrite exec_while_all by assumption. cbn [bind fst snd].
    rewrite fold_left_ranges, IH. cbn [ranges_from]. now rewrite app_assoc.
Qed.

Lemma ranges_from_row re lines i r :
  In r (ranges_from re lines i) -> i <= r_row r.
Proof.
  revert i. induction lines as [|v lines IH]; intros i; cbn [ranges_from]; [intros []|].
  rewrite in_app_iff, in_map_iff. intros [(m & <- & _)|H]; [cbn; lia|].
  apply IH in H. lia.
Qed.

Lemma StronglySorted_app {A} (R : A -> A -> Prop) (l1 l2 : list A) :
  StronglySorted R l1 -> StronglySorted R l2 ->
  (forall a b, In a l1 -> In b l2 -> R a b) ->
  StronglySorted R (l1 ++ l2).
Proof.
  intros H1 H2 H. induction H1 as [|a l1 Hs IH Hall]; [exact H2|].
  cbn. constructor.
  - apply IH. intros x y Hx Hy. apply H; [now right | exact Hy].
  - apply Forall_app. split; [exact Hall|].
    apply Forall_forall. intros y Hy. apply H; [now left | exact Hy].
Qed.

Lemma ranges_from_sorted re lines i : StronglySorted range_lt (ranges_from re lines i).
Proof.
  revert i. induction lines as [|v lines IH]; intros i; cbn [ranges_from]; [constructor|].
  apply StronglySorted_app; [|apply IH|].
  - unfold all_matches.
    induction (scan_sorted re v v None 0 0) as [|m ms Hs IHs Hall]; [constructor|].
    cbn [map]. constructor; [exact IHs|].
    apply Forall_forall. intros r Hr. apply in_map_iff in Hr.
    destruct Hr as (m' & <- & Hm'). right. cbn. split; [reflexivity|].
    rewrite Forall_forall in Hall. now apply Hall.
  - intros a b Ha Hb. apply in_map_iff in Ha. destruct Ha as (m & <- & _).
    apply ranges_from_row in Hb. left. cbn. lia.
Qed.

Definition occurrence_text : jsstring := u "x = 1" ++ newline ++ u "y = x + x".

(** C6.  On [x = 1 / y = x + x] the occurrences of [x] are (0,0), (1,4)
    and (1,8), in this order; in [xx = x + x_1] only the [x] that stands alone
    is found; and whenever the pattern of the name is accepted,
    [getRangesByName] answers, with positions in row-major order, left to
    right within a row. *)
Theorem C6_occurrences_in_order (content name : jsstring) (regex : RegExp) :
  regexp (u "\b" ++ name ++ u "\b") (u "g") = Ok regex ->
  (exists ranges,
      getRangesByName content name = Ok ranges
      /\ StronglySorted range_lt ranges)
  /\ getRangesByName occurrence_text (u "x")
     = Ok [MkRange 0 0; MkRange 1 4; MkRange 1 8]
  /\ getRangesByName (u "xx = x + x_1") (u "x") = Ok [MkRange 0 5].
Proof.
  intros Hre. split; [|split; vm_compute; reflexivity].
  unfold getRangesByName. rewrite Hre. cbn [bind].
  destruct (regexp_g _ _ Hre) as (H0 & Hg & _).
  rewrite forEach_line_ranges by assumption. cbn [bind snd app].
  eexists. split; [reflexivity | apply ranges_from_sorted].
Qed.

Lemma C6_occurrences_in_order_witness :
  exists ranges,
    getRangesByName occurrence_text (u "x") = Ok ranges
    /\ StronglySorted range_lt ranges.
Proof.
  apply (C6_occurrences_in_order occurrence_text (u "x")
           {| re_term := Seq WordBoundary (Seq (Char 120) (Seq WordBoundary Empty));
              re_ngroups := 0; re_global := true; re_multiline := false;
              lastIndex := 0 |}).
  vm_compute. reflexivity.
Defined.

(** *** C7: call sites with several returns *)

(** The text without its white space. *)
Definition remove_white_space (s : jsstring) : jsstring :=
  filter (fun c => negb (is_white_space c)) s.

Definition white_space_regex : RegExp :=
  MkRegExp (Seq (Class false [CSpace]) Empty) 0 true false 0.

Lemma white_space_regex_eq : regexp (u "\s") (u "g") = Ok white_space_regex.
Proof. vm_compute. reflexivity. Qed.

Lemma match_at_white_space prev rest i :
  match_at white_space_regex (MkState prev rest i [])
  = match rest with
    | a :: t => if is_white_space a then Some (MkState (Some a) t (S i) []) else None
    | [] => None
    end.
Proof.
  unfold match_at. cbn. unfold match_char. cbn.
  destruct rest as [|a t]; [reflexivity|].
  unfold class_mem. cbn. now rewrite orb_false_r.
Qed.

Lemma splice_step input ms rep i a :
  nth_error input i = Some a ->
  (forall m, In m ms -> S i <= m_index m) ->
  splice input ms rep i = a :: splice input ms rep (S i).
Proof.
  intros Hnth Hall.
  assert (Hskip : skipn i input = a :: skipn (S i) input).
  { clear - Hnth. revert i Hnth. induction input as [|b input IH]; intros [|i] H;
      try discriminate.
    - cbn in *. congruence.
    - cbn in H. cbn [skipn]. now apply IH. }
  destruct ms as [|m ms]; cbn [splice]; [exact Hskip|].
  specialize (Hall m (or_introl eq_refl)).
  destruct (Nat.leb_spec i (m_index m)); [|lia].
  destruct (Nat.leb_spec (S i) (m_index m)); [|lia].
  unfold substring. rewrite Hskip.
  replace (m_index m - i) with (S (m_index m - S i)) by lia.
  reflexivity.
Qed.

Lemma splice_white_space input :
  forall rest pre k,
    input = pre ++ rest -> k <= length pre ->
    splice input (scan white_space_regex input (last_opt pre) rest (length pre) k)
           [] (length pre)
    = remove_white_space rest.
Proof.
  induction rest as [|a rest IH]; intros pre k Hin Hk; cbn [scan];
    (destruct (Nat.ltb_spec (length pre) k) as [Hlt|_]; [lia|]);
    rewrite match_at_white_space.
  - cbn. subst input. now rewrite app_nil_r, skipn_all.
  - assert (Hin' : input = (pre ++ [a]) ++ rest) by now rewrite <- app_assoc.
    cbn [remove_white_space filter]. destruct (is_white_space a) eqn:Ea; cbn [negb].
    + cbn [splice match_array m_index m_end ms_end].
      destruct (Nat.leb_spec (length pre) (length pre)); [|lia].
      unfold substring at 1. rewrite Nat.sub_diag. cbn [firstn app].
      specialize (IH (pre ++ [a]) (S (length pre)) Hin').
      rewrite last_opt_snoc, length_app, Nat.add_1_r in IH.
      unfold next_index. cbn [match_array m_index m_end ms_end].
      destruct (Nat.eqb_spec (length pre) (S (length pre))); [lia|].
      now apply IH.
    + rewrite (splice_step input _ [] (length pre) a).
      * f_equal. specialize (IH (pre ++ [a]) k Hin').
        rewrite last_opt_snoc, length_app, Nat.add_1_r in IH. apply IH. lia.
      * subst input. rewrite nth_error_app2, Nat.sub_diag by lia. reflexivity.
      * intros m Hm. now apply scan_index in Hm.
Qed.

(** [v.replace(/\s/g, '')] removes the white space of [v]. *)
Lemma replace_white_space (s : jsstring) :
  replace_all s white_space_regex [] = Ok (remove_white_space s).
Proof.
  unfold replace_all. change (set_lastIndex white_space_regex 0) with white_space_regex.
  rewrite matchAll_all by reflexivity. cbn [bind]. f_equal.
  apply (splice_white_space s s [] 0); [reflexivity | cbn; lia].
Qed.

Lemma comma_list_eq (v : value) :
  comma_list v = s <- as_string v ;; Ok (split (remove_white_space s) (u ",")).
Proof.
  unfold comma_list. destruct v as [|s]; [reflexivity|]. cbn [as_string bind].
  rewrite white_space_regex_eq. cbn [bind]. now rewrite replace_white_space.
Qed.

Lemma mapM_ext {A B} (f g : A -> result B) (l : list A) :
  (forall a, f a = g a) -> mapM f l = mapM g l.
Proof. intros H. induction l as [|a l IH]; cbn [mapM]; now rewrite ?H, ?IH. Qed.

Lemma bind_Ok {A} (r : result A) : (x <- r ;; Ok x) = r.
Proof. now destruct r. Qed.

Definition call_text : jsstring := u "[a, b] = compute(x, y)".

(** C7.  On [[a, b] = compute(x, y)] the answer is the single call with name
    [compute], returns [a], [b] and parameters [x], [y].  For every text
    [getFunctionCall] answers one call for each match of the pattern; its
    returns and its parameters are the first and the third group without
    their white space, split at the commas, with no check on the pieces:
    [[1+, ] = f()] gives the returns [1+] and the empty text and one empty
    parameter. *)
Theorem C7_call_site_pieces (content : jsstring) :
  getFunctionCall call_text
  = Ok [MkFunctionCall (Str (u "compute")) [u "x"; u "y"] [u "a"; u "b"]]
  /\ (exists regexMultiple,
         regexp (u "\[(.+)\]\s*=\s*(\S+)\((.*)\)") (u "g") = Ok regexMultiple
         /\ getFunctionCall content
            = mapM (fun v =>
                      returns <- as_string (item v 1) ;;
                      params <- as_string (item v 3) ;;
                      Ok (MkFunctionCall (item v 2)
                            (split (remove_white_space params) (u ","))
                            (split (remove_white_space returns) (u ","))))
                   (all_matches regexMultiple content))
  /\ getFunctionCall (u "[1+, ] = f()")
     = Ok [MkFunctionCall (Str (u "f")) [[]] [u "1+"; []]].
Proof.
  split; [vm_compute; reflexivity|]. split; [|vm_compute; reflexivity].
  unfold getFunctionCall.
  destruct (regexp (u "\[(.+)\]\s*=\s*(\S+)\((.*)\)") (u "g")) as [re|] eqn:E;
    [|vm_compute in E; discriminate].
  exists re. split; [reflexivity|]. cbn [bind].
  destruct (regexp_g _ _ E) as (H0 & Hg & _).
  rewrite matchAll_all by assumption. cbn [bind app].
  rewrite bind_Ok. apply mapM_ext. intros v. rewrite !comma_list_eq.
  destruct (item v 1) as [|s1]; [reflexivity|].
  destruct (item v 3) as [|s3]; reflexivity.
Qed.

(** *** C8: the position answered by the function-declaration form *)

(** [sub] occurs in [s]. *)
Definition occurs_in (sub s : jsstring) : Prop := exists a b, s = a ++ sub ++ b.

Lemma starts_with_spec (p s : jsstring) :
  starts_with p s = true <-> exists b, s = p ++ b.
Proof.
  revert s. induction p as [|a p IH]; intros s; cbn [starts_with].
  - split; [intros _; now exists s | reflexivity].
  - destruct s as [|c s]; [split; [discriminate | intros (b & H); discriminate]|].
    rewrite andb_true_iff, N.eqb_eq, IH. split.
    + intros (-> & b & ->). now exists b.
    + intros (b & H). injection H as -> ->. split; [reflexivity | now exists b].
Qed.

Lemma index_from_absent (sub s : jsstring) (i : nat) :
  index_from sub s i = (-1)%Z <-> ~ occurs_in sub s.
Proof.
  revert i. induction s as [|c s IH]; intros i; cbn [index_from];
    destruct (starts_with sub _) eqn:E.
  - apply starts_with_spec in E. destruct E as (b & E). split; [lia|].
    intros H. exfalso. apply H. exists [], b. exact E.
  - split; [|reflexivity]. intros _ (a & b & H).
    destruct a; [|discriminate]. cbn in H.
    assert (starts_with sub [] = true) by (apply starts_with_spec; now exists b).
    congruence.
  - apply starts_with_spec in E. destruct E as (b & E). split; [lia|].
    intros H. exfalso. apply H. exists [], b. exact E.
  - rewrite IH. split; intros H (a & b & K); apply H.
    + destruct a as [|a0 a].
      * assert (starts_with sub (c :: s) = true)
          by (apply starts_with_spec; now exists b).
        congruence.
      * injection K as -> ->. now exists a, b.
    + exists (c :: a), b. now rewrite K.
Qed.

Lemma indexOf_absent (s sub : jsstring) :
  indexOf s sub = (-1)%Z <-> ~ occurs_in sub s.
Proof. apply index_from_absent. Qed.

Lemma occurs_in_dec_aux (sub s : jsstring) : occurs_in sub s \/ ~ occurs_in sub s.
Proof.
  destruct (Z.eq_dec (indexOf s sub) (-1)) as [K|K].
  - right. now apply indexOf_absent.
  - left. revert K. unfold indexOf. generalize 0. induction s as [|c s IH]; intros i;
      cbn [index_from]; destruct (starts_with sub _) eqn:E.
    + intros _. apply starts_with_spec in E. destruct E as (b & E). now exists [], b.
    + congruence.
    + intros _. apply starts_with_spec in E. destruct E as (b & E). now exists [], b.
    + intros K. apply IH in K. destruct K as (a & b & ->). now exists (c :: a), b.
Qed.

(** A text without line feed that occurs in [x ++ "\n" ++ y] occurs in [x] or in [y]. *)
Lemma occurs_in_lines (sub x y : jsstring) :
  ~ In 10%N sub -> occurs_in sub (x ++ 10%N :: y) ->
  occurs_in sub x \/ occurs_in sub y.
Proof.
  intros Hnl (a & b & H).
  apply app_eq_app in H. destruct H as (l & [(-> & H)|(-> & H)]).
  - apply app_eq_app in H. destruct H as (l2 & [(-> & H)|(-> & H)]).
    + destruct l2 as [|c l2].
      * left. exists a, []. now rewrite !app_nil_r.
      * injection H as <- _. exfalso. apply Hnl. apply in_or_app. right. now left.
    + left. exists a, l2. reflexivity.
  - destruct l as [|c l].
    + cbn in H. destruct sub as [|c sub].
      * left. exists x, []. now rewrite !app_nil_r.
      * injection H as <- _. exfalso. apply Hnl. now left.
    + injection H as <- ->. right. now exists l, b.
Qed.

Lemma split_go_occurs (sub : jsstring) :
  ~ In 10%N sub ->
  forall s cur,
    occurs_in sub (rev cur ++ s) ->
    Exists (occurs_in sub) (split_go newline s 0 cur).
Proof.
  intros Hnl. unfold newline. induction s as [|c s IH]; intros cur H.
  - cbn. rewrite app_nil_r in H. now constructor.
  - cbn [split_go starts_with]. destruct (N.eqb_spec 10 c) as [<-|Hc]; cbn [andb].
    + apply occurs_in_lines in H; [|exact Hnl]. destruct H as [H|H].
      * now constructor.
      * apply Exists_cons_tl. cbn. now apply IH.
    + apply IH. cbn [rev]. now rewrite <- app_assoc.
Qed.

(** The first element of a list that satisfies a decidable property. *)
Lemma first_such {A} (P : A -> Prop) (l : list A) :
  (forall a, P a \/ ~ P a) -> Exists P l ->
  exists before x after,
    l = before ++ x :: after /\ Forall (fun a => ~ P a) before /\ P x.
Proof.
  intros Hdec. induction l as [|a l IH]; intros H; [inversion H|].
  destruct (Hdec a) as [Ha|Ha].
  - exists [], a, l. repeat split; auto.
  - inversion H as [? ? Ha'|? ? Hl]; subst; [contradiction|].
    destruct (IH Hl) as (before & x & after & -> & Hb & Hx).
    exists (a :: before), x, after. repeat split; auto.
Qed.

(** The loop of case 2 passes the lines without the marker and decides on
    the first line that holds it. *)
Lemma function_line_first word before functionLine after i :
  Forall (fun l => indexOf l FUNCTION_PART = (-1)%Z) before ->
  indexOf functionLine FUNCTION_PART <> (-1)%Z ->
  function_line word (before ++ functionLine :: after) i
  = (regSingle <- regexp (u "\b" ++ word ++ u "\b") [] ;;
     Ok (match fst (exec regSingle functionLine) with
         | Some resSingle =>
             if Nat.eqb (m_index resSingle) 0 then None
             else Some (MkRowCol (i + length before) (m_index resSingle))
         | None => None
         end)).
Proof.
  intros Hb Hl. revert i. induction Hb as [|l before Hl' Hb IH]; intros i.
  - cbn [app function_line length]. rewrite Nat.add_0_r.
    destruct (Z.eqb_spec (indexOf functionLine FUNCTION_PART) (-1)); [contradiction|].
    cbn [negb]. destruct (regexp _ _) as [regSingle|]; [|reflexivity]. cbn [bind].
    destruct (fst (exec regSingle functionLine)) as [m|]; [|reflexivity].
    now destruct (Nat.eqb (m_index m) 0).
  - cbn [app function_line length]. rewrite Hl'. cbn [Z.eqb negb].
    rewrite IH. now rewrite Nat.add_succ_r.
Qed.

Definition declaration_text : jsstring :=
  u "function y = f(x)" ++ newline ++ u "  y = x*2;" ++ newline ++ u "end".

(** C8.  When the assignment pattern finds nothing and the text holds
    [function ], the lines before the first line with [function ] are passed
    over and only that line is searched for the word: a match at an index
    other than 0 gives that row and that index, and anything else, a match at
    index 0 too, gives no position; the lines after it play no part.  For a
    text that starts with [function y = f(x) / y = x*2; / end] the word [f]
    is found at row 0, column 13. *)
Theorem C8_function_line_position (content word : jsstring) (reg : RegExp) :
  regexp (u "\b" ++ word ++ u "\s*=") (u "m") = Ok reg ->
  fst (exec reg content) = None ->
  indexOf content FUNCTION_PART <> (-1)%Z ->
  (exists before functionLine after,
      split content newline = before ++ functionLine :: after
      /\ Forall (fun l => indexOf l FUNCTION_PART = (-1)%Z) before
      /\ indexOf functionLine FUNCTION_PART <> (-1)%Z
      /\ getRowCol content word
         = (regSingle <- regexp (u "\b" ++ word ++ u "\b") [] ;;
            Ok (match fst (exec regSingle functionLine) with
                | Some resSingle =>
                    if Nat.eqb (m_index resSingle) 0 then None
                    else Some (MkRowCol (length before) (m_index resSingle))
                | None => None
                end)))
  /\ (forall rest,
         word = u "f" -> content = declaration_text ++ rest ->
         getRowCol content word = Ok (Some (MkRowCol 0 13))).
Proof.
  intros Hreg Hexec Hmark.
  assert (Hget : getRowCol content word = function_line word (split content newline) 0).
  { unfold getRowCol. rewrite Hreg. cbn [bind]. rewrite Hexec.
    destruct (Z.eqb_spec (indexOf content FUNCTION_PART) (-1)); [contradiction|].
    reflexivity. }
  split.
  - assert (Hex : Exists (occurs_in FUNCTION_PART) (split content newline)).
    { apply split_go_occurs; [vm_compute; intuition discriminate|].
      cbn [rev app]. destruct (indexOf_absent content FUNCTION_PART) as [_ H].
      destruct (occurs_in_dec_aux FUNCTION_PART content) as [K|K]; [exact K|].
      now apply H in K. }
    apply first_such in Hex.
    + destruct Hex as (before & functionLine & after & Hsplit & Hb & Hl).
      exists before, functionLine, after. split; [exact Hsplit|].
      assert (Hb' : Forall (fun l => indexOf l FUNCTION_PART = (-1)%Z) before).
      { eapply Forall_impl; [|exact Hb]. intros l. apply indexOf_absent. }
      assert (Hl' : indexOf functionLine FUNCTION_PART <> (-1)%Z).
      { intros K. now apply indexOf_absent in K. }
      repeat split; auto.
      rewrite Hget, Hsplit. apply (function_line_first word before functionLine after 0);
        assumption.
    + intros l. destruct (Z.eq_dec (indexOf l FUNCTION_PART) (-1)) as [K|K].
      * right. now apply indexOf_absent.
      * left. destruct (occurs_in_dec_aux FUNCTION_PART l) as [K'|K']; [exact K'|].
        now apply indexOf_absent in K'.
  - intros rest -> ->. rewrite Hget. reflexivity.
Qed.

Lemma C8_function_line_position_witness :
  getRowCol declaration_text (u "f") = Ok (Some (MkRowCol 0 13)).
Proof.
  destruct (C8_function_line_position declaration_text (u "f")
              {| re_term := Seq WordBoundary
                              (Seq (Char 102)
                                 (Seq (Quant (Class false [CSpace]) 0 None true)
                                    (Seq (Char 61) Empty)));
                 re_ngroups := 0; re_global := false; re_multiline := true;
                 lastIndex := 0 |}) as (_ & H).
  - vm_compute. reflexivity.
  - vm_compute. reflexivity.
  - vm_compute. discriminate.
  - apply (H []); vm_compute; reflexivity.
Defined.

(** *** C5 and C9: inputs on which the stated behaviour fails *)

(** A word character stands before the position after [pre], at the head of [post]. *)
Definition word_at_end (pre : jsstring) : bool :=
  match last_opt pre with Some c => is_word_char c | None => false end.

Definition word_at_head (post : jsstring) : bool :=
  match post with c :: _ => is_word_char c | [] => false end.

(** The text [t] is a maximal run of word characters of [content]. *)
Definition maximal_token (content t : jsstring) : Prop :=
  exists pre post,
    content = pre ++ t ++ post
    /\ t <> []
    /\ Forall (fun c => is_word_char c = true) t
    /\ word_at_end pre = false
    /\ word_at_head post = false.

(** C5, on an input.  In [x = 1] the token [x] is a maximal identifier
    token, does not start with a digit and is no keyword, and yet
    [getCurrentFileVariables] answers the empty list. *)
Lemma C5_one_letter_token_dropped :
  maximal_token (u "x = 1") (u "x")
  /\ hd_error (u "x") = Some 120%N /\ is_digit 120 = false
  /\ set_has keywordSet (Str (u "x")) = false
  /\ getCurrentFileVariables (u "x = 1") = Ok [].
Proof.
  repeat split; try (vm_compute; reflexivity).
  exists [], (u " = 1"). repeat split; try (vm_compute; reflexivity).
  - discriminate.
  - repeat constructor.
Qed.

(** C9, on an input.  A line that is white space followed by a well-formed
    directive contributes no path. *)
Lemma C9_indented_directive_not_matched :
  matchAddPath (u "  addpath('lib')") = Ok []
  /\ matchAddPath (u "addpath('lib')") <> Ok [].
Proof. split; vm_compute; [reflexivity | discriminate]. Qed.

(** *** Every match is seen when matches do not overlap *)

(** The match state at the position between [pre] and [rest]. *)
Definition state_between (pre rest : jsstring) : MatchState :=
  MkState (last_opt pre) rest (length pre) [].

(** No match starts strictly inside another match. *)
Definition no_overlap (re : RegExp) (input : jsstring) : Prop :=
  forall pre m1 m2 y,
    input = pre ++ m1 ++ m2 ->
    match_at re (state_between pre (m1 ++ m2)) = Some y ->
    m1 <> [] -> length pre + length m1 < ms_end y ->
    match_at re (state_between (pre ++ m1) m2) = None.

Lemma app_same_length {A} (a b c d : list A) :
  a ++ b = c ++ d -> length a = length c -> a = c /\ b = d.
Proof.
  revert c. induction a as [|x a IH]; intros [|y c] H Hl; try discriminate.
  - now split.
  - injection H as -> H. injection Hl as Hl. destruct (IH c H Hl) as (-> & ->).
    now split.
Qed.

Lemma scan_complete_from re input :
  no_overlap re input ->
  forall rest0 pre0 from,
    input = pre0 ++ rest0 ->
    (forall m1 m2, rest0 = m1 ++ m2 -> length pre0 + length m1 < from ->
                   match_at re (state_between (pre0 ++ m1) m2) = None) ->
    forall m1 m2 y,
      rest0 = m1 ++ m2 ->
      match_at re (state_between (pre0 ++ m1) m2) = Some y ->
      In (match_array re input (length (pre0 ++ m1)) y)
         (scan re input (last_opt pre0) rest0 (length pre0) from).
Proof.
  intros Hno. induction rest0 as [|c rest0 IH]; intros pre0 from Hin Hskip m1 m2 y Hr Hy.
  - destruct m1; [|discriminate]. cbn in Hr. subst m2.
    cbn [scan]. destruct (Nat.ltb_spec (length pre0) from) as [Hlt|Hge].
    + rewrite (Hskip [] []) in Hy; [discriminate | reflexivity | cbn; lia].
    + rewrite app_nil_r in *. unfold state_between in Hy. rewrite Hy. now left.
  - assert (Hin' : input = (pre0 ++ [c]) ++ rest0) by now rewrite <- app_assoc.
    assert (Hnext : forall from',
               (forall m1 m2, rest0 = m1 ++ m2 ->
                              length (pre0 ++ [c]) + length m1 < from' ->
                              match_at re (state_between ((pre0 ++ [c]) ++ m1) m2) = None) ->
               forall m1' , m1 = c :: m1' ->
               In (match_array re input (length (pre0 ++ m1)) y)
                  (scan re input (Some c) rest0 (S (length pre0)) from')).
    { intros from' Hskip' m1' ->. injection Hr as Hr.
      specialize (IH (pre0 ++ [c]) from' Hin' Hskip' m1' m2 y Hr).
      rewrite <- app_assoc in IH. cbn [app] in IH. rewrite last_opt_snoc in IH.
      replace (length (pre0 ++ [c])) with (S (length pre0)) in IH
        by (rewrite length_app; cbn; lia).
      now apply IH. }
    assert (Hshift : forall from',
               (forall m1 m2, c :: rest0 = m1 ++ m2 -> m1 <> [] ->
                              length pre0 + length m1 < from' ->
                              match_at re (state_between (pre0 ++ m1) m2) = None) ->
               forall m1 m2, rest0 = m1 ++ m2 ->
                             length (pre0 ++ [c]) + length m1 < from' ->
                             match_at re (state_between ((pre0 ++ [c]) ++ m1) m2) = None).
    { intros from' H k1 k2 Hk Hlen. rewrite <- app_assoc. cbn [app].
      apply H; [now rewrite Hk | discriminate |].
      rewrite length_app in Hlen. cbn [length] in *. lia. }
    cbn [scan]. destruct (Nat.ltb_spec (length pre0) from) as [Hlt|Hge].
    + destruct m1 as [|c' m1'].
      * cbn in Hr. subst m2.
        rewrite (Hskip [] (c :: rest0)) in Hy; [discriminate | reflexivity | cbn; lia].
      * injection Hr as <- Hr. eapply (Hnext from); [|reflexivity].
        apply Hshift. intros k1 k2 Hk _ Hlen. now apply Hskip.
    + destruct (match_at re (MkState (last_opt pre0) (c :: rest0) (length pre0) []))
        as [y0|] eqn:E0.
      * destruct m1 as [|c' m1'].
        -- cbn in Hr. subst m2. rewrite app_nil_r in Hy. unfold state_between in Hy.
           rewrite E0 in Hy. injection Hy as <-. left. now rewrite app_nil_r.
        -- right. injection Hr as <- Hr. eapply Hnext; [|reflexivity].
           apply Hshift. intros k1 k2 Hk Hne Hlen.
           apply (Hno pre0 k1 k2 y0); auto.
           ++ now rewrite Hin, Hk.
           ++ unfold state_between. now rewrite <- Hk.
           ++ unfold next_index in Hlen. cbn [match_array m_index m_end] in Hlen.
              destruct (Nat.eqb_spec (length pre0) (ms_end y0)) as [e|e].
              ** destruct k1; [congruence | cbn [length] in Hlen; lia].
              ** lia.
      * destruct m1 as [|c' m1'].
        -- cbn in Hr. subst m2. rewrite app_nil_r in Hy. unfold state_between in Hy.
           rewrite E0 in Hy. discriminate.
        -- injection Hr as <- Hr. eapply (Hnext from); [|reflexivity].
           apply Hshift. intros k1 k2 Hk _ Hlen. lia.
Qed.

(** With matches that do not overlap, a pass sees the match at every
    position where the pattern matches. *)
Lemma all_matches_complete re input :
  no_overlap re input ->
  forall pre rest y,
    input = pre ++ rest ->
    match_at re (state_between pre rest) = Some y ->
    In (match_array re input (length pre) y) (all_matches re input).
Proof.
  intros Hno pre rest y Hin Hy. unfold all_matches.
  assert (Hskip : forall m1 m2 : list N,
             input = m1 ++ m2 -> length (@nil N) + length m1 < 0 ->
             match_at re (state_between ([] ++ m1) m2) = None)
    by (intros m1 m2 _ H; lia).
  exact (scan_complete_from re input Hno input [] 0 eq_refl Hskip pre rest y Hin Hy).
Qed.

Lemma all_matches_sound re input m :
  In m (all_matches re input) ->
  exists pre rest y,
    input = pre ++ rest
    /\ match_at re (state_between pre rest) = Some y
    /\ m = match_array re input (length pre) y.
Proof.
  intros H. apply (scan_sound re input input [] 0 m eq_refl) in H.
  destruct H as (pre & rest & y & H1 & _ & _ & H2 & H3). now exists pre, rest, y.
Qed.

(** *** A greedy run of one class *)

Fixpoint take_while (p : N -> bool) (l : jsstring) : jsstring :=
  match l with
  | a :: l' => if p a then a :: take_while p l' else []
  | [] => []
  end.

Fixpoint drop_while (p : N -> bool) (l : jsstring) : jsstring :=
  match l with
  | a :: l' => if p a then drop_while p l' else l
  | [] => []
  end.

(** The state reached from [x] once [run] is consumed and [tail] remains. *)
Definition jump (x : MatchState) (run tail : jsstring) : MatchState :=
  MkState (last (map Some run) (ms_prev x)) tail (ms_end x + length run) (ms_caps x).

(** What RepeatMatcher does for a greedy, unbounded repetition of one class
    [p], by recursion on the remaining input: as many code units as
    possible, and then one fewer at a time, down to [min]. *)
Fixpoint greedy_class (p : N -> bool) (c : Continuation) (min : nat) (x : MatchState)
  (rest : jsstring) {struct rest} : option MatchState :=
  match rest with
  | a :: t =>
      if p a then
        or_else (greedy_class p c (pred min) (advance x a t) t)
                (fun _ => if Nat.eqb min 0 then c x else None)
      else if Nat.eqb min 0 then c x else None
  | [] => if Nat.eqb min 0 then c x else None
  end.

Lemma take_drop_while p l : l = take_while p l ++ drop_while p l.
Proof. induction l as [|a l IH]; cbn; [reflexivity|]. destruct (p a); cbn; congruence. Qed.

Lemma take_while_all p l : Forall (fun a => p a = true) (take_while p l).
Proof.
  induction l as [|a l IH]; cbn; [constructor|].
  destruct (p a) eqn:E; constructor; auto.
Qed.

Lemma drop_while_head p l :
  drop_while p l = [] \/ exists a t, drop_while p l = a :: t /\ p a = false.
Proof.
  induction l as [|a l IH]; cbn; [now left|].
  destruct (p a) eqn:E; [exact IH|]. right. now exists a, l.
Qed.

Lemma filter_all_true {A} (l : list A) : filter (fun _ => true) l = l.
Proof. induction l; cbn; congruence. Qed.

Lemma clear_captures_nil x : clear_captures [] x = x.
Proof. destruct x. unfold clear_captures. cbn. now rewrite filter_all_true. Qed.

Lemma or_else_none a : or_else a (fun _ => None) = a.
Proof. now destruct a. Qed.

Lemma last_cons_default {A} (a d : A) (l : list A) : last (a :: l) d = last l a.
Proof.
  revert a d. induction l as [|b l IH]; intros a d; [reflexivity|].
  change (last (a :: b :: l) d) with (last (b :: l) d).
  now rewrite (IH b d), (IH b a).
Qed.

Lemma jump_advance x a t run tail :
  jump (advance x a t) run tail = jump x (a :: run) tail.
Proof.
  unfold jump, advance. cbn [ms_prev ms_end ms_caps map length].
  rewrite last_cons_default. f_equal. lia.
Qed.

Lemma jump_nil x tail : ms_rest x = tail -> jump x [] tail = x.
Proof. intros <-. destruct x. unfold jump. cbn. f_equal. lia. Qed.

Lemma repeat_class p c :
  forall fuel min x,
    min + length (ms_rest x) <= fuel ->
    repeat_matcher (match_char p) [] true c fuel min None x
    = greedy_class p c min x (ms_rest x).
Proof.
  induction fuel as [|fuel IH]; intros min x Hfuel.
  - destruct min; [|cbn in Hfuel; lia].
    destruct (ms_rest x); [reflexivity | cbn in Hfuel; lia].
  - cbn [repeat_matcher]. rewrite clear_captures_nil. unfold match_char.
    destruct (ms_rest x) as [|a t] eqn:Er; cbn [greedy_class].
    + destruct (Nat.eqb min 0); reflexivity.
    + destruct (p a) eqn:Ea.
      * cbn [advance ms_end].
        replace (Nat.eqb (S (ms_end x)) (ms_end x)) with false
          by (symmetry; apply Nat.eqb_neq; lia).
        rewrite andb_false_r.
        rewrite IH by (cbn [advance ms_rest length] in *; lia).
        cbn [advance ms_rest]. fold (advance x a t).
        destruct (Nat.eqb min 0); cbn [negb]; [reflexivity|].
        now rewrite or_else_none.
      * destruct (Nat.eqb min 0); reflexivity.
Qed.

(** The longest run is tried first. *)
Lemma greedy_class_longest p c :
  forall run x min tail z,
    Forall (fun a => p a = true) run ->
    (tail = [] \/ exists a t, tail = a :: t /\ p a = false) ->
    min <= length run ->
    c (jump x run tail) = Some z ->
    ms_rest x = run ++ tail ->
    greedy_class p c min x (run ++ tail) = Some z.
Proof.
  induction run as [|a run IH]; intros x min tail z Hall Htail Hmin Hc Hx.
  - cbn [app] in *. rewrite jump_nil in Hc by exact Hx.
    assert (min = 0) as -> by (cbn in Hmin; lia).
    destruct Htail as [->|(a & t & -> & Ha)]; cbn [greedy_class]; [exact Hc|].
    now rewrite Ha.
  - inversion Hall as [|? ? Ha Hall']; subst. cbn [app greedy_class]. rewrite Ha.
    rewrite (IH (advance x a (run ++ tail)) (pred min) tail z); auto.
    + cbn [length] in Hmin. lia.
    + now rewrite jump_advance.
Qed.

(** A run shorter than [min] does not match. *)
Lemma greedy_class_short p c :
  forall run x min tail,
    Forall (fun a => p a = true) run ->
    (tail = [] \/ exists a t, tail = a :: t /\ p a = false) ->
    length run < min ->
    greedy_class p c min x (run ++ tail) = None.
Proof.
  induction run as [|a run IH]; intros x min tail Hall Htail Hmin.
  - destruct min; [lia|].
    destruct Htail as [->|(a & t & -> & Ha)]; cbn [app greedy_class]; [reflexivity|].
    now rewrite Ha.
  - inversion Hall as [|? ? Ha Hall']; subst. cbn [app greedy_class]. rewrite Ha.
    rewrite IH; auto; [|cbn [length] in Hmin; lia].
    destruct min; [lia | reflexivity].
Qed.

(** A result comes from the continuation after some run of at least [min]
    code units of the class. *)
Lemma greedy_class_inv p c :
  forall rest x min z,
    greedy_class p c min x rest = Some z ->
    ms_rest x = rest ->
    exists run tail,
      rest = run ++ tail
      /\ Forall (fun a => p a = true) run
      /\ min <= length run
      /\ c (jump x run tail) = Some z.
Proof.
  induction rest as [|a t IH]; intros x min z H Hx.
  - cbn in H. destruct (Nat.eqb_spec min 0) as [->|]; [|discriminate].
    exists [], []. repeat split; auto. now rewrite jump_nil.
  - assert (Hstop : (if Nat.eqb min 0 then c x else None) = Some z ->
                    exists run tail,
                      a :: t = run ++ tail
                      /\ Forall (fun a => p a = true) run
                      /\ min <= length run
                      /\ c (jump x run tail) = Some z).
    { destruct (Nat.eqb_spec min 0) as [->|]; [|discriminate]. intros Hc.
      exists [], (a :: t). repeat split; auto. now rewrite jump_nil. }
    cbn [greedy_class] in H. destruct (p a) eqn:Ea; [|now apply Hstop].
    unfold or_else in H.
    destruct (greedy_class p c (pred min) (advance x a t) t) as [z'|] eqn:E;
      [|now apply Hstop].
    injection H as ->. apply IH in E; [|reflexivity].
    destruct E as (run & tail & -> & Hall & Hmin & Hc).
    exists (a :: run), tail. repeat split; auto.
    + cbn [length]. lia.
    + now rewrite <- (jump_advance x a (run ++ tail)).
Qed.

(** If the continuation accepts after some run, the repetition matches. *)
Lemma greedy_class_exists p c :
  forall run x min tail z,
    Forall (fun a => p a = true) run ->
    min <= length run ->
    c (jump x run tail) = Some z ->
    ms_rest x = run ++ tail ->
    exists z', greedy_class p c min x (run ++ tail) = Some z'.
Proof.
  induction run as [|a run IH]; intros x min tail z Hall Hmin Hc Hx.
  - cbn [app] in *. rewrite jump_nil in Hc by exact Hx.
    assert (min = 0) as -> by (cbn in Hmin; lia).
    destruct (ms_rest x) as [|a t]; subst tail; cbn [greedy_class Nat.eqb];
      [now exists z|].
    destruct (p a); [|now exists z]. unfold or_else.
    destruct (greedy_class p c _ _ t) as [z'|]; [now exists z' | now exists z].
  - inversion Hall as [|? ? Ha Hall']; subst. cbn [app greedy_class]. rewrite Ha.
    destruct (IH (advance x a (run ++ tail)) (pred min) tail z) as (z' & E); auto.
    + cbn [length] in Hmin. lia.
    + now rewrite jump_advance.
    + rewrite E. now exists z'.
Qed.

(** *** The identifier tokens of a text *)

Definition token_regex : RegExp :=
  MkRegExp (Seq WordBoundary
              (Seq (Group 1 (Seq (Quant (Class false [CWord; CChar 95]) 1 None true) Empty))
                   (Seq WordBoundary Empty)))
           1 true true 0.

Lemma token_regex_eq : regexp (u "\b([\w_]+)\b") (u "gm") = Ok token_regex.
Proof. vm_compute. reflexivity. Qed.

Lemma word_class_eq a : class_mem false [CWord; CChar 95] a = is_word_char a.
Proof.
  unfold class_mem. cbn. rewrite orb_false_r. unfold is_word_char.
  destruct (a =? 95)%N; now rewrite ?orb_true_r, ?orb_false_r.
Qed.

Lemma take_while_ext p q l : (forall a, p a = q a) -> take_while p l = take_while q l.
Proof. intros H. induction l as [|a l IH]; cbn; [reflexivity|]. now rewrite H, IH. Qed.

Lemma drop_while_ext p q l : (forall a, p a = q a) -> drop_while p l = drop_while q l.
Proof. intros H. induction l as [|a l IH]; cbn; [reflexivity|]. now rewrite H, IH. Qed.

Lemma last_map_Some (run : jsstring) (d : option N) :
  run <> [] -> exists a, last (map Some run) d = Some a /\ In a run.
Proof.
  induction run as [|a run IH]; intros H; [congruence|].
  destruct run as [|b run]; [exists a; split; [reflexivity | now left]|].
  destruct IH as (x & Hx & Hin); [discriminate|].
  exists x. split; [exact Hx | now right].
Qed.

(** The state after the token that starts at [x], with the token captured. *)
Definition after_token (x : MatchState) : MatchState :=
  let run := take_while is_word_char (ms_rest x) in
  set_capture 1 (ms_end x, ms_end x + length run)
              (jump x run (drop_while is_word_char (ms_rest x))).

(** The token pattern matches exactly where a maximal run of word characters
    starts, and it matches the whole run. *)
Lemma match_at_token x :
  match_at token_regex x
  = if negb (word_before x) && word_after x then Some (after_token x) else None.
Proof.
  unfold match_at. cbn [token_regex re_term re_multiline matcher groups app].
  set (c := fun y => if at_word_boundary (set_capture 1 (ms_end x, ms_end y) y)
                     then Some (set_capture 1 (ms_end x, ms_end y) y) else None).
  rewrite repeat_class by (cbn; lia).
  set (p := class_mem false [CWord; CChar 95]).
  assert (Hp : forall a, p a = is_word_char a) by apply word_class_eq.
  pose proof (take_drop_while p (ms_rest x)) as Hsplit.
  pose proof (take_while_all p (ms_rest x)) as Hall.
  pose proof (drop_while_head p (ms_rest x)) as Htail.
  unfold at_word_boundary at 1. unfold word_after.
  destruct (take_while p (ms_rest x)) as [|a run] eqn:Erun.
  - (* no word character at [x] *)
    replace (greedy_class p c 1 x (ms_rest x))
      with (greedy_class p c 1 x ([] ++ drop_while p (ms_rest x)))
      by (now rewrite <- Hsplit).
    rewrite (greedy_class_short p c [] x 1 _ Hall Htail) by (cbn; lia).
    assert (Hnot : match ms_rest x with c0 :: _ => is_word_char c0 | [] => false end = false).
    { destruct (ms_rest x) as [|b t]; [reflexivity|]. rewrite <- Hp.
      change (take_while p (b :: t)) with (if p b then b :: take_while p t else [])
        in Erun.
      revert Erun. destruct (p b); [intros H; discriminate H | reflexivity]. }
    rewrite Hnot, andb_false_r. now destruct (xorb _ _).
  - assert (Ha : is_word_char a = true).
    { inversion Hall; subst. now rewrite <- Hp. }
    assert (Hhead : match ms_rest x with c0 :: _ => is_word_char c0 | [] => false end = true).
    { rewrite Hsplit. exact Ha. }
    rewrite Hhead, andb_true_r.
    destruct (word_before x); cbn [xorb negb]; [reflexivity|].
    replace (greedy_class p c 1 x (ms_rest x))
      with (greedy_class p c 1 x ((a :: run) ++ drop_while p (ms_rest x)))
      by (now rewrite <- Hsplit).
    apply greedy_class_longest; auto; [cbn; lia|].
    unfold c, after_token.
    rewrite <- (take_while_ext p is_word_char), <- (drop_while_ext p is_word_char), Erun
      by exact Hp.
    set (y := set_capture 1 _ _).
    assert (Hb : at_word_boundary y = true).
    { unfold at_word_boundary, word_before, word_after, y.
      cbn [set_capture jump ms_prev ms_rest].
      destruct (last_map_Some (a :: run) (ms_prev x)) as (b & -> & Hb); [discriminate|].
      rewrite Forall_forall in Hall. rewrite <- Hp, (Hall b Hb).
      destruct Htail as [->|(b' & t & -> & Hb')]; [reflexivity|].
      now rewrite <- Hp, Hb'. }
    cbn [jump ms_end]. fold y. now rewrite Hb.
Qed.

Lemma substring_middle (pre mid post : jsstring) :
  substring (pre ++ mid ++ post) (length pre) (length pre + length mid) = mid.
Proof.
  unfold substring. rewrite skipn_length_app.
  replace (length pre + length mid - length pre) with (length mid) by lia.
  apply firstn_length_app.
Qed.

Lemma take_while_prefix p m1 m2 :
  length m1 <= length (take_while p (m1 ++ m2)) -> Forall (fun a => p a = true) m1.
Proof.
  induction m1 as [|a m1 IH]; cbn [app take_while]; [constructor|].
  destruct (p a) eqn:Ea; cbn [length]; [|lia].
  intros H. constructor; [exact Ea | apply IH; lia].
Qed.

Lemma take_while_exact p t post :
  Forall (fun a => p a = true) t ->
  (post = [] \/ exists a l, post = a :: l /\ p a = false) ->
  take_while p (t ++ post) = t /\ drop_while p (t ++ post) = post.
Proof.
  intros Hall Hpost. induction Hall as [|a t Ha Hall IH]; cbn [app take_while drop_while].
  - destruct Hpost as [->|(a & l & -> & Ha)]; cbn; [now split|]. now rewrite Ha.
  - rewrite Ha. destruct IH as (-> & ->). now split.
Qed.

Lemma last_opt_app pre m1 :
  m1 <> [] -> exists a, last_opt (pre ++ m1) = Some a /\ In a m1.
Proof.
  intros H. unfold last_opt. rewrite map_app.
  assert (Hlast : forall (l1 l2 : list (option N)) d, l2 <> [] -> last (l1 ++ l2) d = last l2 d).
  { induction l1 as [|x l1 IH]; intros l2 d Hne; [reflexivity|].
    cbn [app]. destruct (l1 ++ l2) eqn:E.
    - apply app_eq_nil in E. destruct E. contradiction.
    - rewrite <- E. cbn [last]. rewrite E. rewrite <- E. now apply IH. }
  rewrite Hlast by (destruct m1; [congruence | discriminate]).
  now apply last_map_Some.
Qed.

Lemma word_before_between pre rest : word_before (state_between pre rest) = word_at_end pre.
Proof. reflexivity. Qed.

Lemma word_after_between pre rest : word_after (state_between pre rest) = word_at_head rest.
Proof. reflexivity. Qed.

Lemma token_no_overlap input : no_overlap token_regex input.
Proof.
  intros pre m1 m2 y Hin Hy Hne Hlen.
  rewrite match_at_token in *.
  destruct (negb (word_before (state_between pre (m1 ++ m2))) && _); [|discriminate].
  injection Hy as <-.
  unfold after_token in Hlen. cbn [set_capture jump ms_end state_between ms_rest] in Hlen.
  assert (Hall : Forall (fun a => is_word_char a = true) m1)
    by (apply take_while_prefix with m2; lia).
  destruct (last_opt_app pre m1 Hne) as (a & Ha & Hin1).
  rewrite word_before_between. unfold word_at_end. rewrite Ha.
  rewrite Forall_forall in Hall. now rewrite (Hall a Hin1).
Qed.

Lemma token_match_array pre rest :
  match_array token_regex (pre ++ rest) (length pre) (after_token (state_between pre rest))
  = MkMatch (length pre) (length pre + length (take_while is_word_char rest))
            [Str (take_while is_word_char rest); Str (take_while is_word_char rest)].
Proof.
  unfold match_array, after_token.
  cbn [set_capture jump ms_end ms_caps state_between ms_rest token_regex re_ngroups seq map
       capture_text find fst Nat.eqb filter].
  assert (E : substring (pre ++ rest) (length pre)
                       (length pre + length (take_while is_word_char rest))
              = take_while is_word_char rest).
  { rewrite (take_drop_while is_word_char rest) at 1. apply substring_middle. }
  now rewrite E.
Qed.

(** The matches of the token pattern are the maximal tokens of the text. *)
Lemma token_matches content m :
  In m (all_matches token_regex content)
  <-> exists pre t post,
        content = pre ++ t ++ post
        /\ t <> []
        /\ Forall (fun c => is_word_char c = true) t
        /\ word_at_end pre = false
        /\ word_at_head post = false
        /\ m = MkMatch (length pre) (length pre + length t) [Str t; Str t].
Proof.
  split.
  - intros H. apply all_matches_sound in H.
    destruct H as (pre & rest & y & Hin & Hy & ->).
    rewrite match_at_token, word_before_between, word_after_between in Hy.
    destruct (word_at_end pre) eqn:Eb; [discriminate|].
    destruct (word_at_head rest) eqn:Ea; [|discriminate].
    injection Hy as <-. subst content. rewrite token_match_array.
    exists pre, (take_while is_word_char rest), (drop_while is_word_char rest).
    repeat split; auto.
    + now rewrite <- take_drop_while.
    + destruct rest as [|a rest]; [discriminate|]. cbn in Ea. cbn. now rewrite Ea.
    + apply take_while_all.
    + destruct (drop_while_head is_word_char rest) as [->|(a & l & -> & Ha)];
        [reflexivity | exact Ha].
  - intros (pre & t & post & Hin & Hne & Hall & Hb & Ha & ->).
    assert (Hpost : post = [] \/ exists a l, post = a :: l /\ is_word_char a = false).
    { destruct post as [|a l]; [now left|]. right. now exists a, l. }
    destruct (take_while_exact is_word_char t post Hall Hpost) as (Ht & _).
    assert (Hm : MkMatch (length pre) (length pre + length t) [Str t; Str t]
                 = match_array token_regex content (length pre)
                               (after_token (state_between pre (t ++ post))))
      by (now rewrite Hin, token_match_array, Ht).
    rewrite Hm.
    apply (all_matches_complete token_regex content (token_no_overlap content)
             pre (t ++ post)); [exact Hin|].
    rewrite match_at_token, word_before_between, word_after_between, Hb.
    destruct t as [|a t]; [congruence|]. inversion Hall; subst.
    cbn [app word_at_head]. now replace (is_word_char a) with true.
Qed.

(** *** Sets in insertion order *)

Lemma set_has_In s v : set_has s v = true <-> In v s.
Proof.
  unfold set_has. rewrite existsb_exists. split.
  - intros (x & Hx & E). apply value_eqb_eq in E. now subst.
  - intros H. exists v. split; [exact H | apply value_eqb_refl].
Qed.

Lemma set_add_In s w v : In v (set_add s w) <-> In v s \/ v = w.
Proof.
  unfold set_add. destruct (set_has s w) eqn:E.
  - apply set_has_In in E. split; [now left|]. intros [H| ->]; assumption.
  - rewrite in_app_iff. cbn. intuition auto.
Qed.

Lemma set_add_NoDup s w : NoDup s -> NoDup (set_add s w).
Proof.
  intros H. unfold set_add. destruct (set_has s w) eqn:E; [exact H|].
  apply NoDup_app; [exact H | repeat constructor; intros [] |].
  intros x Hx [<-|[]]. apply set_has_In in Hx. congruence.
Qed.

Lemma fold_set_add_In l s v :
  In v (fold_left (fun acc match_ => set_add acc match_) l s) <-> In v s \/ In v l.
Proof.
  revert s. induction l as [|w l IH]; intros s; cbn [fold_left].
  - cbn. tauto.
  - rewrite IH, set_add_In. cbn. split; intros H; intuition auto.
Qed.

Lemma fold_set_add_NoDup l s :
  NoDup s -> NoDup (fold_left (fun acc match_ => set_add acc match_) l s).
Proof.
  revert s. induction l as [|w l IH]; intros s H; cbn [fold_left]; [exact H|].
  now apply IH, set_add_NoDup.
Qed.

Lemma fold_matches_In (ms : list MatchArray) s v :
  In v (fold_left (fun res m =>
                     fold_left (fun acc match_ => set_add acc match_) (m_items m) res)
                  ms s)
  <-> In v s \/ exists m, In m ms /\ In v (m_items m).
Proof.
  revert s. induction ms as [|m ms IH]; intros s; cbn [fold_left].
  - split; [now left|]. intros [H|(m & [] & _)]. exact H.
  - rewrite IH, fold_set_add_In. split.
    + intros [[H|H]|(m' & H1 & H2)]; [now left| |].
      * right. exists m. split; [now left | exact H].
      * right. exists m'. split; [now right | exact H2].
    + intros [H|(m' & [<-|H1] & H2)]; [now left; left| |].
      * left. now right.
      * right. now exists m'.
Qed.

Lemma fold_matches_NoDup (ms : list MatchArray) s :
  NoDup s ->
  NoDup (fold_left (fun res m =>
                      fold_left (fun acc match_ => set_add acc match_) (m_items m) res)
                   ms s).
Proof.
  revert s. induction ms as [|m ms IH]; intros s H; cbn [fold_left]; [exact H|].
  now apply IH, fold_set_add_NoDup.
Qed.

(** *** The filter [/[^0-9]\S+/] *)

Definition filter_regex : RegExp :=
  MkRegExp (Seq (Class true [CRange 48 57])
                (Seq (Quant (Class false [CNotSpace]) 1 None true) Empty))
           0 false false 0.

Lemma filter_regex_eq : regexp (u "[^0-9]\S+") [] = Ok filter_regex.
Proof. vm_compute. reflexivity. Qed.

(** [search] finds a match exactly when the pattern matches somewhere at or
    after the position searched from. *)
Lemma search_found re input :
  forall rest pre,
    search re input (last_opt pre) rest (length pre) <> None
    <-> exists m1 m2 y,
          rest = m1 ++ m2 /\ match_at re (state_between (pre ++ m1) m2) = Some y.
Proof.
  induction rest as [|c rest IH]; intros pre; cbn [search].
  - fold (state_between pre (@nil N)).
    destruct (match_at re (state_between pre [])) as [y|] eqn:E; split.
    + intros _. exists [], [], y. rewrite (app_nil_r pre). now split.
    + discriminate.
    + congruence.
    + intros (m1 & m2 & y & H & Hy). destruct m1; [|discriminate].
      cbn in H. subst m2. rewrite app_nil_r in Hy. congruence.
  - fold (state_between pre (c :: rest)).
    destruct (match_at re (state_between pre (c :: rest))) as [y|] eqn:E; split.
    + intros _. exists [], (c :: rest), y. rewrite (app_nil_r pre). now split.
    + discriminate.
    + intros H. specialize (IH (pre ++ [c])).
      rewrite last_opt_snoc, length_app, Nat.add_1_r in IH.
      apply IH in H. destruct H as (m1 & m2 & y & -> & Hy).
      exists (c :: m1), m2, y. split; [reflexivity|].
      now rewrite <- app_assoc in Hy.
    + intros (m1 & m2 & y & H & Hy). destruct m1 as [|c' m1].
      * cbn in H. subst m2. rewrite app_nil_r in Hy. congruence.
      * injection H as <- ->. specialize (IH (pre ++ [c])).
        rewrite last_opt_snoc, length_app, Nat.add_1_r in IH. apply IH.
        exists m1, m2, y. split; [reflexivity|]. now rewrite <- app_assoc.
Qed.

Lemma match_at_filter x :
  (exists y, match_at filter_regex x = Some y)
  <-> exists a b t,
        ms_rest x = a :: b :: t /\ is_digit a = false /\ is_white_space b = false.
Proof.
  unfold match_at. cbn [filter_regex re_term re_multiline matcher groups].
  unfold match_char at 1.
  destruct (ms_rest x) as [|a t] eqn:Er.
  - split; [intros (y & H); discriminate | intros (a & b & t & H & _); discriminate].
  - assert (Hd : class_mem true [CRange 48 57] a = negb (is_digit a)).
    { unfold class_mem. cbn. now rewrite orb_false_r. }
    rewrite Hd.
    assert (Hs : forall b, class_mem false [CNotSpace] b = negb (is_white_space b)).
    { intros b. unfold class_mem. cbn. now rewrite orb_false_r. }
    destruct (is_digit a) eqn:Ea; cbn [negb].
    + split; [intros (y & H); discriminate|].
      intros (a' & b & t' & H & Ha & _). injection H as <- _. congruence.
    + rewrite repeat_class by (cbn; lia). cbn [advance ms_rest]. fold (advance x a t).
      split.
      * intros (y & H). apply greedy_class_inv in H; [|reflexivity].
        destruct H as (run & tail & -> & Hall & Hmin & _).
        destruct run as [|b run]; [cbn in Hmin; lia|].
        inversion Hall as [|? ? Hb _]; subst. rewrite Hs in Hb.
        exists a, b, (run ++ tail). repeat split; [exact Ea|].
        now destruct (is_white_space b).
      * intros (a' & b & t' & H & _ & Hb). injection H as <- ->.
        apply (greedy_class_exists _ _ [b] (advance x a (b :: t')) 1 t'
                 (jump (advance x a (b :: t')) [b] t')).
        -- constructor; [|constructor]. now rewrite Hs, Hb.
        -- cbn. lia.
        -- reflexivity.
        -- reflexivity.
Qed.

(** [/[^0-9]\S+/.test(s)] holds when [s] has a code unit that is no digit,
    followed by a code unit that is no white space. *)
Lemma test_filter (s : jsstring) :
  fst (test filter_regex s) = true
  <-> exists pre a b post,
        s = pre ++ a :: b :: post /\ is_digit a = false /\ is_white_space b = false.
Proof.
  unfold test, exec. cbn [filter_regex re_global]. cbn [Nat.ltb Nat.leb].
  unfold search_from. cbn [firstn skipn map last].
  pose proof (search_found filter_regex s s []) as H. cbn [last_opt map last length app] in H.
  fold filter_regex.
  destruct (search filter_regex s None s 0) as [m|]; cbn [fst].
  - split; [intros _ | reflexivity].
    destruct H as (H & _). destruct H as (m1 & m2 & y & -> & Hy); [discriminate|].
    destruct (proj1 (match_at_filter _) (ex_intro _ y Hy)) as (a & b & t & Hr & Ha & Hb).
    cbn in Hr. subst m2. now exists m1, a, b, t.
  - split; [discriminate|]. intros (pre & a & b & post & -> & Ha & Hb). exfalso.
    destruct H as (_ & H). apply H; [|reflexivity].
    destruct (proj2 (match_at_filter (state_between pre (a :: b :: post)))) as (y & Hy).
    { now exists a, b, post. }
    now exists pre, (a :: b :: post), y.
Qed.

(** *** C5: the identifiers of a text *)

Lemma word_char_not_space b : is_word_char b = true -> is_white_space b = false.
Proof.
  unfold is_word_char, is_white_space, is_digit, in_range. intros H.
  repeat rewrite ?orb_true_iff, ?andb_true_iff, ?N.leb_le, ?N.eqb_eq in H.
  apply not_true_is_false. intros K.
  repeat rewrite ?orb_true_iff, ?andb_true_iff, ?N.leb_le, ?N.eqb_eq in K.
  lia.
Qed.

(** The text has a code unit that is no digit and is not its last one. *)
Definition non_digit_then_more (t : jsstring) : Prop :=
  exists pre a b post, t = pre ++ a :: b :: post /\ is_digit a = false.

(** C5, as the code has it.  [getCurrentFileVariables] always answers, with
    no entry twice; its entries are exactly the maximal identifier tokens of
    the text that hold a code unit that is no digit followed by at least one
    more code unit, and that are no reserved keyword.  So a token of one
    code unit is never returned, a token such as [1ab] is, and a reserved
    keyword never is. *)
Theorem C5_identifiers (content : jsstring) :
  exists vars,
    getCurrentFileVariables content = Ok vars
    /\ NoDup vars
    /\ (forall v,
           In v vars
           <-> exists t,
                 v = Str t /\ maximal_token content t
                 /\ non_digit_then_more t /\ ~ In (Str t) keywordSet)
    /\ (forall k, In k keywordSet -> ~ In k vars).
Proof.
  unfold getCurrentFileVariables.
  rewrite token_regex_eq. cbn [bind].
  rewrite exec_while_all by reflexivity. cbn [bind fst].
  rewrite filter_regex_eq. cbn [bind].
  set (res := fold_left _ (all_matches token_regex content) []).
  assert (Hres : forall v, In v res <-> exists t, v = Str t /\ maximal_token content t).
  { intros v. unfold res. rewrite fold_matches_In. split.
    - intros [[]|(m & Hm & Hv)]. apply token_matches in Hm.
      destruct Hm as (pre & t & post & Hin & Hne & Hall & Hb & Ha & ->).
      exists t. split; [cbn in Hv; intuition congruence|].
      now exists pre, post.
    - intros (t & -> & pre & post & Hin & Hne & Hall & Hb & Ha). right.
      exists (MkMatch (length pre) (length pre + length t) [Str t; Str t]).
      split; [|now left]. apply token_matches. now exists pre, t, post. }
  assert (Hfilter : forall v,
             In v (filter (fun v => fst (test filter_regex (to_string v))
                                    && negb (set_has keywordSet v)) res)
             <-> exists t,
                   v = Str t /\ maximal_token content t
                   /\ non_digit_then_more t /\ ~ In (Str t) keywordSet).
  { intros v. rewrite filter_In, andb_true_iff, negb_true_iff, Hres. split.
    - intros ((t & -> & Ht) & Htest & Hkw). exists t. repeat split; auto.
      + apply test_filter in Htest. destruct Htest as (pre & a & b & post & E & Ha & _).
        now exists pre, a, b, post.
      + intros K. apply set_has_In in K. congruence.
    - intros (t & -> & Ht & (pre & a & b & post & E & Ha) & Hkw). split; [|split].
      + now exists t.
      + apply test_filter. exists pre, a, b, post. repeat split; auto.
        destruct Ht as (_ & _ & _ & _ & Hall & _). rewrite Forall_forall in Hall.
        apply word_char_not_space, Hall. rewrite E. apply in_or_app. right. right. now left.
      + apply not_true_is_false. intros K. now apply set_has_In in K. }
  eexists. split; [reflexivity|]. split; [|split].
  - apply NoDup_filter, fold_matches_NoDup. constructor.
  - exact Hfilter.
  - intros k Hk H. apply Hfilter in H. destruct H as (t & -> & _ & _ & H). contradiction.
Qed.

(** *** Literal text in a pattern *)

(** The term of the code units [cs] followed by [r]. *)
Definition literal (cs : jsstring) (r : regex) : regex :=
  fold_right (fun ch acc => Seq (Char ch) acc) r cs.

Lemma matcher_literal multiline cs r c :
  forall x,
    matcher multiline (literal cs r) x c
    = if starts_with cs (ms_rest x)
      then matcher multiline r (jump x cs (skipn (length cs) (ms_rest x))) c
      else None.
Proof.
  induction cs as [|a cs IH]; intros x.
  - cbn [literal fold_right starts_with length skipn]. now rewrite jump_nil.
  - cbn [literal fold_right matcher]. fold (literal cs r). unfold match_char.
    destruct (ms_rest x) as [|b t] eqn:Er; [reflexivity|].
    cbn [starts_with length skipn].
    destruct (N.eqb_spec a b) as [<-|Hne]; [|reflexivity].
    cbn [andb]. rewrite IH. cbn [advance ms_rest]. fold (advance x a t).
    now rewrite jump_advance.
Qed.

Lemma match_char_inv p x c z :
  match_char p x c = Some z ->
  exists a t, ms_rest x = a :: t /\ p a = true /\ c (advance x a t) = Some z.
Proof.
  unfold match_char. destruct (ms_rest x) as [|a t]; [discriminate|].
  destruct (p a) eqn:E; [|discriminate]. intros H. now exists a, t.
Qed.

Lemma match_char_intro p x c a t :
  ms_rest x = a :: t -> p a = true -> match_char p x c = c (advance x a t).
Proof. unfold match_char. intros -> ->. reflexivity. Qed.

(** *** The directive pattern of matchAddPath *)

Definition is_quote (c : N) : bool := (c =? 34)%N || (c =? 39)%N.

Definition addpath_regex : RegExp :=
  MkRegExp
    (Seq Bol
       (Seq (Look true (Seq (Char 37) Empty))
          (literal (u "addpath(")
             (Seq (Class false [CChar 34; CChar 39])
                (Seq (Group 1 (Seq (Quant (Class false [CNotSpace]) 1 None true) Empty))
                   (Seq (Class false [CChar 34; CChar 39])
                      (Seq (Char 41) Empty)))))))
    1 true true 0.

Lemma addpath_regex_eq : regexp addpath_pattern (u "gm") = Ok addpath_regex.
Proof. vm_compute. reflexivity. Qed.

(** The text [l] begins with a directive whose path is [p]: [addpath(], a
    quote of either kind, the path, which is not empty and holds no white
    space, a quote of either kind, and [)]. *)
Definition directive_shape (l p : jsstring) : Prop :=
  exists q1 q2 tail,
    l = u "addpath(" ++ q1 :: p ++ q2 :: 41%N :: tail
    /\ is_quote q1 = true /\ is_quote q2 = true
    /\ p <> []
    /\ Forall (fun c => is_white_space c = false) p.

(** The position after [pre] is the start of a line. *)
Definition line_start (pre : jsstring) : Prop :=
  pre = [] \/ exists pre' t, pre = pre' ++ [t] /\ is_line_terminator t = true.

Lemma quote_class_eq a : class_mem false [CChar 34; CChar 39] a = is_quote a.
Proof. unfold class_mem, is_quote. cbn. now rewrite orb_false_r. Qed.

Lemma not_space_class_eq a : class_mem false [CNotSpace] a = negb (is_white_space a).
Proof. unfold class_mem. cbn. now rewrite orb_false_r. Qed.

Lemma starts_with_app cs l : starts_with cs l = true -> l = cs ++ skipn (length cs) l.
Proof.
  intros H. apply starts_with_spec in H. destruct H as (b & ->).
  now rewrite skipn_length_app.
Qed.

Lemma addpath_match_inv x y :
  ms_caps x = [] ->
  match_at addpath_regex x = Some y ->
  at_line_start true x = true
  /\ exists p,
       directive_shape (ms_rest x) p
       /\ ms_end y = ms_end x + 11 + length p
       /\ ms_caps y = [(1, (ms_end x + 9, ms_end x + 9 + length p))].
Proof.
  intros Hcaps H. unfold match_at in H.
  cbn [addpath_regex re_term re_multiline] in H.
  cbn [matcher] in H.
  destruct (at_line_start true x); [|discriminate]. split; [reflexivity|].
  destruct (match_char (N.eqb 37) x _); [discriminate|].
  rewrite matcher_literal in H.
  destruct (starts_with (u "addpath(") (ms_rest x)) eqn:Estart; [|discriminate].
  apply starts_with_app in Estart.
  set (t0 := skipn (length (u "addpath(")) (ms_rest x)) in *.
  cbn [matcher] in H.
  apply match_char_inv in H. destruct H as (q1 & t1 & Ht0 & Hq1 & H).
  rewrite quote_class_eq in Hq1. cbn [jump ms_rest] in Ht0.
  rewrite repeat_class in H by (cbn; lia).
  apply greedy_class_inv in H; [|reflexivity].
  cbn [groups advance ms_rest] in H.
  destruct H as (p & t2 & Ht1 & Hall & Hmin & H).
  apply match_char_inv in H. destruct H as (q2 & t3 & Ht2 & Hq2 & H).
  rewrite quote_class_eq in Hq2. cbn [set_capture jump ms_rest] in Ht2.
  apply match_char_inv in H. destruct H as (rp & t4 & Ht3 & Hrp & H).
  apply N.eqb_eq in Hrp. subst rp. cbn [advance ms_rest] in Ht3.
  injection H as <-.
  exists p. split; [|split].
  - exists q1, q2, t4. rewrite Estart, Ht0, Ht1, Ht2, Ht3. repeat split; auto.
    + destruct p; [cbn in Hmin; lia | discriminate].
    + eapply Forall_impl; [|exact Hall]. intros a Ha. cbn beta in Ha.
      rewrite not_space_class_eq in Ha. now destruct (is_white_space a).
  - cbn. lia.
  - cbn. rewrite Hcaps. cbn. repeat f_equal; lia.
Qed.

Lemma addpath_match_intro x p :
  at_line_start true x = true ->
  directive_shape (ms_rest x) p ->
  exists y, match_at addpath_regex x = Some y.
Proof.
  intros Hline (q1 & q2 & tail & Hrest & Hq1 & Hq2 & Hne & Hall).
  unfold match_at. cbn [addpath_regex re_term re_multiline]. cbn [matcher].
  rewrite Hline.
  assert (Hlook : match_char (N.eqb 37) x (fun y => Some y) = None).
  { unfold match_char. rewrite Hrest. reflexivity. }
  rewrite Hlook, matcher_literal.
  assert (Hstart : starts_with (u "addpath(") (ms_rest x) = true).
  { apply starts_with_spec. eexists. exact Hrest. }
  rewrite Hstart.
  assert (Hskip : skipn (length (u "addpath(")) (ms_rest x) = q1 :: p ++ q2 :: 41%N :: tail).
  { rewrite Hrest. apply skipn_length_app. }
  rewrite Hskip. cbn [matcher].
  rewrite (match_char_intro _ _ _ q1 (p ++ q2 :: 41%N :: tail))
    by (auto; now rewrite quote_class_eq).
  rewrite repeat_class by (cbn; lia). cbn [groups advance ms_rest].
  eapply (greedy_class_exists _ _ p _ 1 (q2 :: 41%N :: tail)).
  - eapply Forall_impl; [|exact Hall]. intros a Ha. cbn beta in Ha.
    now rewrite not_space_class_eq, Ha.
  - destruct p; [congruence | cbn; lia].
  - rewrite (match_char_intro _ _ _ q2 (41%N :: tail))
      by (auto; now rewrite quote_class_eq).
    rewrite (match_char_intro _ _ _ 41%N tail) by reflexivity.
    reflexivity.
  - reflexivity.
Qed.

Lemma line_terminator_space t : is_line_terminator t = true -> is_white_space t = true.
Proof.
  unfold is_line_terminator, is_white_space, in_range. intros H.
  repeat rewrite ?orb_true_iff, ?andb_true_iff, ?N.leb_le, ?N.eqb_eq in H.
  repeat rewrite ?orb_true_iff, ?andb_true_iff, ?N.leb_le, ?N.eqb_eq.
  lia.
Qed.

Lemma quote_not_line_terminator q : is_quote q = true -> is_line_terminator q = false.
Proof.
  unfold is_quote, is_line_terminator. intros H.
  repeat rewrite ?orb_true_iff, ?N.eqb_eq in H.
  apply not_true_is_false. intros K.
  repeat rewrite ?orb_true_iff, ?N.eqb_eq in K. lia.
Qed.

Lemma at_line_start_between pre rest :
  at_line_start true (state_between pre rest) = true <-> line_start pre.
Proof.
  unfold at_line_start, state_between, line_start. cbn [ms_prev].
  destruct pre as [|c pre] using rev_ind.
  - cbn. split; auto.
  - rewrite last_opt_snoc. cbn [andb]. split.
    + intros H. right. now exists pre, c.
    + intros [H|(pre' & t & H & Ht)].
      * destruct pre; discriminate.
      * apply app_inj_tail in H. destruct H as (_ & ->). exact Ht.
Qed.

Lemma In_firstn {A} (a : A) n l : In a (firstn n l) -> In a l.
Proof.
  revert n. induction l as [|b l IH]; intros [|n]; cbn; try tauto.
  intros [H|H]; [now left | right; eauto].
Qed.

(** The code units of a directive: none of them ends a line. *)
Lemma directive_no_line_terminator q1 p q2 t :
  is_quote q1 = true -> is_quote q2 = true ->
  Forall (fun c => is_white_space c = false) p ->
  In t (u "addpath(" ++ q1 :: p ++ [q2; 41%N]) ->
  is_line_terminator t = false.
Proof.
  intros Hq1 Hq2 Hall H. apply in_app_or in H. destruct H as [H|[<-|H]].
  - cbn in H. repeat (destruct H as [<-|H]; [reflexivity|]). destruct H.
  - now apply quote_not_line_terminator.
  - apply in_app_or in H. destruct H as [H|[<-|[<-|[]]]].
    + rewrite Forall_forall in Hall. apply Hall in H.
      apply not_true_is_false. intros K. apply line_terminator_space in K. congruence.
    + now apply quote_not_line_terminator.
    + reflexivity.
Qed.

Lemma addpath_no_overlap input : no_overlap addpath_regex input.
Proof.
  intros pre m1 m2 y Hin Hy Hne Hlen.
  apply addpath_match_inv in Hy; [|reflexivity].
  destruct Hy as (_ & p & (q1 & q2 & tail & Hrest & Hq1 & Hq2 & _ & Hall) & Hend & _).
  cbn [state_between ms_rest ms_end] in Hrest, Hend.
  destruct (match_at addpath_regex (state_between (pre ++ m1) m2)) as [y'|] eqn:E;
    [exfalso | reflexivity].
  apply addpath_match_inv in E; [|reflexivity]. destruct E as (Hline & _).
  apply at_line_start_between in Hline.
  destruct Hline as [Hnil|(pre' & t & Hpre & Ht)].
  - apply app_eq_nil in Hnil. destruct Hnil. contradiction.
  - destruct (last_opt_app pre m1 Hne) as (a & Ha & Hin1).
    rewrite Hpre, last_opt_snoc in Ha. injection Ha as ->.
    assert (Hm1 : m1 = firstn (length m1) (u "addpath(" ++ q1 :: p ++ [q2; 41%N])).
    { assert (Hfull : m1 ++ m2 = (u "addpath(" ++ q1 :: p ++ [q2; 41%N]) ++ tail).
      { rewrite Hrest, <- !app_assoc. cbn [app]. rewrite <- !app_assoc. reflexivity. }
      rewrite <- (firstn_length_app m1 m2) at 1. rewrite Hfull, firstn_app.
      replace (length m1 - length (u "addpath(" ++ q1 :: p ++ [q2; 41%N])) with 0.
      - cbn [firstn]. now rewrite app_nil_r.
      - rewrite length_app. cbn [length]. rewrite length_app. cbn [length u map
          list_ascii_of_string] in *. lia. }
    rewrite Hm1 in Hin1. apply In_firstn in Hin1.
    apply (directive_no_line_terminator q1 p q2 a Hq1 Hq2 Hall) in Hin1. congruence.
Qed.

Lemma addpath_items m content :
  In m (all_matches addpath_regex content) -> exists a b, m_items m = [a; b].
Proof.
  intros H. apply all_matches_sound in H. destruct H as (pre & rest & y & _ & _ & ->).
  cbn. eauto.
Qed.

Lemma fold_push_twice (ms : list MatchArray) (acc : list value) :
  (forall m, In m ms -> exists a b, m_items m = [a; b]) ->
  fold_left (fun addPaths m =>
               fold_left (fun acc _ => acc ++ [item m 1]) (m_items m) addPaths)
            ms acc
  = acc ++ flat_map (fun m => [item m 1; item m 1]) ms.
Proof.
  revert acc. induction ms as [|m ms IH]; intros acc H; cbn [fold_left flat_map].
  - now rewrite app_nil_r.
  - destruct (H m (or_introl eq_refl)) as (a & b & E).
    rewrite IH by (intros m' Hm'; apply H; now right).
    rewrite E. cbn [fold_left]. now rewrite <- !app_assoc.
Qed.

(** The loop of [matchAddPath] pushes the first group of every match twice. *)
Lemma matchAddPath_eq content :
  matchAddPath content
  = Ok (flat_map (fun m => [item m 1; item m 1]) (all_matches addpath_regex content)).
Proof.
  unfold matchAddPath. rewrite addpath_regex_eq. cbn [bind].
  rewrite exec_while_all by reflexivity. cbn [bind fst]. f_equal.
  rewrite fold_push_twice; [reflexivity|].
  intros m. apply addpath_items.
Qed.

(** *** C9: the lines that contribute a path *)

(** C9, as the code has it.  The matches that [matchAddPath] collects are at
    the starts of lines and nowhere else, and a line start has a match
    exactly when the text from there on begins, with nothing before it, with
    [addpath(], a quote, a path without white space, a quote and [)] (the
    two quotes need not be of the same kind); the first group of the match
    is such a path.  A line that begins with the comment marker has no such
    shape, and neither has a line that begins with white space: white space
    before a directive is not passed over. *)
Theorem C9_directive_lines (content : jsstring) :
  exists regex,
    regexp addpath_pattern (u "gm") = Ok regex
    /\ matchAddPath content
       = Ok (flat_map (fun m => [item m 1; item m 1]) (all_matches regex content))
    /\ (forall pre rest,
           content = pre ++ rest ->
           ((exists m, In m (all_matches regex content) /\ m_index m = length pre)
            <-> line_start pre /\ exists p, directive_shape rest p))
    /\ (forall m,
           In m (all_matches regex content) ->
           exists pre rest p,
             content = pre ++ rest /\ m_index m = length pre
             /\ line_start pre /\ directive_shape rest p /\ item m 1 = Str p)
    /\ (forall rest p, ~ directive_shape (37%N :: rest) p)
    /\ (forall a rest p, is_white_space a = true -> ~ directive_shape (a :: rest) p).
Proof.
  exists addpath_regex. split; [apply addpath_regex_eq|].
  split; [apply matchAddPath_eq|].
  assert (Hsound : forall m,
             In m (all_matches addpath_regex content) ->
             exists pre rest p,
               content = pre ++ rest /\ m_index m = length pre
               /\ line_start pre /\ directive_shape rest p /\ item m 1 = Str p).
  { intros m Hm. apply all_matches_sound in Hm.
    destruct Hm as (pre & rest & y & Hin & Hy & ->).
    apply addpath_match_inv in Hy; [|reflexivity].
    destruct Hy as (Hline & p & Hshape & Hend & Hcaps).
    apply at_line_start_between in Hline.
    exists pre, rest, p. repeat split; auto.
    unfold item. cbn [match_array m_items nth addpath_regex re_ngroups seq map].
    rewrite Hcaps. cbn [capture_text find fst Nat.eqb state_between ms_end].
    destruct Hshape as (q1 & q2 & tail & Hrest & _).
    cbn [state_between ms_rest] in Hrest. f_equal.
    assert (E : content = (pre ++ u "addpath(" ++ [q1]) ++ p ++ q2 :: 41%N :: tail).
    { rewrite Hin, Hrest, <- !app_assoc. reflexivity. }
    rewrite E.
    replace (length pre + 9) with (length (pre ++ u "addpath(" ++ [q1]))
      by (rewrite !length_app; cbn; lia).
    apply substring_middle. }
  split; [|split; [exact Hsound|split]].
  - intros pre rest Hin. split.
    + intros (m & Hm & Hidx). apply Hsound in Hm.
      destruct Hm as (pre' & rest' & p & Hin' & Hidx' & Hline & Hshape & _).
      assert (Hpre : pre' = pre /\ rest' = rest).
      { apply app_same_length; congruence. }
      destruct Hpre as (-> & ->). split; [exact Hline | now exists p].
    + intros (Hline & p & Hshape).
      destruct (addpath_match_intro (state_between pre rest) p) as (y & Hy); auto.
      { now apply at_line_start_between. }
      exists (match_array addpath_regex content (length pre) y). split; [|reflexivity].
      apply (all_matches_complete addpath_regex content (addpath_no_overlap content)
               pre rest y Hin Hy).
  - intros rest p (q1 & q2 & tail & H & _). discriminate.
  - intros a rest p Ha (q1 & q2 & tail & H & _). injection H as -> _. discriminate.
Qed.

(** *** The bound on the iterations of RepeatMatcher is never reached *)

(** A matcher is local when its result depends on its continuation only at
    the states at or after the one it starts from. *)
Definition local (m : MatchState -> Continuation -> option MatchState) : Prop :=
  forall x c1 c2, (forall y, ahead x y -> c1 y = c2 y) -> m x c1 = m x c2.

Lemma ahead_advance x a t : ms_rest x = a :: t -> ahead x (advance x a t).
Proof. intros H. exists [a]. cbn. rewrite H. split; [reflexivity | lia]. Qed.

Lemma match_char_local p : local (match_char p).
Proof.
  intros x c1 c2 H. unfold match_char. destruct (ms_rest x) as [|a t] eqn:E; [reflexivity|].
  destruct (p a); [|reflexivity]. apply H. now apply ahead_advance.
Qed.

Lemma ahead_clear_captures gs x : ahead (clear_captures gs x) x /\ ahead x (clear_captures gs x).
Proof. split; exists []; cbn; split; auto; lia. Qed.

Lemma repeat_matcher_local m gs greedy :
  local m ->
  forall fuel min max x c1 c2,
    (forall y, ahead x y -> c1 y = c2 y) ->
    repeat_matcher m gs greedy c1 fuel min max x
    = repeat_matcher m gs greedy c2 fuel min max x.
Proof.
  intros Hm. induction fuel as [|fuel IH]; intros min max x c1 c2 H.
  - cbn. rewrite (H x (ahead_refl x)). reflexivity.
  - cbn [repeat_matcher]. rewrite (H x (ahead_refl x)).
    assert (Hd : m (clear_captures gs x)
                   (fun y => if Nat.eqb min 0 && Nat.eqb (ms_end y) (ms_end x) then None
                             else repeat_matcher m gs greedy c1 fuel (pred min)
                                                 (option_map pred max) y)
                 = m (clear_captures gs x)
                     (fun y => if Nat.eqb min 0 && Nat.eqb (ms_end y) (ms_end x) then None
                               else repeat_matcher m gs greedy c2 fuel (pred min)
                                                   (option_map pred max) y)).
    { apply Hm. intros y Hy.
      destruct (Nat.eqb min 0 && Nat.eqb (ms_end y) (ms_end x)); [reflexivity|].
      apply IH. intros y' Hy'. apply H.
      apply ahead_trans with y; [|exact Hy'].
      apply ahead_trans with (clear_captures gs x); [apply ahead_clear_captures | exact Hy]. }
    now rewrite Hd.
Qed.

Lemma matcher_local multiline r : local (matcher multiline r).
Proof.
  induction r as [|ch| |neg items|r1 IH1 r2 IH2|r1 IH1 r2 IH2|r IH min max greedy
                 |i r IH|neg r IH| | | |]; intros x c1 c2 H; cbn [matcher].
  - apply H, ahead_refl.
  - now apply match_char_local.
  - now apply match_char_local.
  - now apply match_char_local.
  - apply IH1. intros y Hy. apply IH2. intros y' Hy'. apply H.
    now apply ahead_trans with y.
  - now rewrite (IH1 x c1 c2 H), (IH2 x c1 c2 H).
  - now apply repeat_matcher_local.
  - apply IH. intros y Hy. apply H. now apply ahead_to_same_position with y.
  - destruct (matcher multiline r x (fun y => Some y)) as [y|]; destruct neg;
      try reflexivity.
    + apply H. apply ahead_to_same_position with x; auto using ahead_refl.
    + apply H, ahead_refl.
  - destruct (at_line_start multiline x); [apply H, ahead_refl | reflexivity].
  - destruct (at_line_end multiline x); [apply H, ahead_refl | reflexivity].
  - destruct (at_word_boundary x); [apply H, ahead_refl | reflexivity].
  - destruct (at_word_boundary x); [reflexivity | apply H, ahead_refl].
Qed.

(** With the fuel that [matcher] gives it, RepeatMatcher never stops for lack
    of fuel: one more unit of fuel, and so any greater amount, gives the
    same result. *)
Lemma repeat_matcher_fuel m gs greedy c :
  forward m -> local m ->
  forall fuel min max x,
    min + length (ms_rest x) <= fuel ->
    repeat_matcher m gs greedy c (S fuel) min max x
    = repeat_matcher m gs greedy c fuel min max x.
Proof.
  intros Hfw Hloc. induction fuel as [|fuel IH]; intros min max x Hfuel.
  - assert (min = 0) as -> by lia.
    assert (Hrest : ms_rest x = [])
      by (destruct (ms_rest x); [reflexivity | cbn in Hfuel; lia]).
    assert (Hnone : forall d' : Continuation,
               m (clear_captures gs x)
                 (fun y => if true && Nat.eqb (ms_end y) (ms_end x) then None else d' y)
               = None).
    { intros d'. destruct (m _ _) as [z|] eqn:E; [exfalso | reflexivity].
      apply Hfw in E. destruct E as (y & (mid & Hmid & Hend) & Hd).
      cbn [clear_captures ms_rest ms_end] in Hmid, Hend.
      rewrite Hrest in Hmid. symmetry in Hmid. apply app_eq_nil in Hmid.
      destruct Hmid as (-> & _). cbn in Hend.
      replace (Nat.eqb (ms_end y) (ms_end x)) with true in Hd
        by (symmetry; apply Nat.eqb_eq; lia).
      discriminate. }
    cbn [repeat_matcher Nat.eqb negb pred].
    destruct max as [[|k]|]; [reflexivity| |].
    all: rewrite Hnone.
    all: destruct greedy; unfold or_else; now destruct (c x).
  - assert (Hd : forall max',
               m (clear_captures gs x)
                 (fun y => if Nat.eqb min 0 && Nat.eqb (ms_end y) (ms_end x) then None
                           else repeat_matcher m gs greedy c (S fuel) (pred min) max' y)
               = m (clear_captures gs x)
                   (fun y => if Nat.eqb min 0 && Nat.eqb (ms_end y) (ms_end x) then None
                             else repeat_matcher m gs greedy c fuel (pred min) max' y)).
    { intros max'. apply Hloc. intros y Hy.
      pose proof (ahead_end _ _ Hy) as H1.
      pose proof (ahead_total_length _ _ Hy) as H2.
      cbn [clear_captures ms_rest ms_end] in H1, H2.
      destruct (Nat.eqb_spec min 0) as [Hmin|Hmin]; cbn [andb].
      - destruct (Nat.eqb_spec (ms_end y) (ms_end x)) as [He|He]; [reflexivity|].
        apply IH. lia.
      - apply IH. lia. }
    change (repeat_matcher m gs greedy c (S (S fuel)) min max x)
      with (match max with
            | Some O => c x
            | _ =>
                let d := fun y =>
                  if Nat.eqb min 0 && Nat.eqb (ms_end y) (ms_end x) then None
                  else repeat_matcher m gs greedy c (S fuel) (pred min)
                                      (option_map pred max) y in
                let xr := clear_captures gs x in
                if negb (Nat.eqb min 0) then m xr d
                else if greedy then or_else (m xr d) (fun _ => c x)
                     else or_else (c x) (fun _ => m xr d)
            end).
    change (repeat_matcher m gs greedy c (S fuel) min max x)
      with (match max with
            | Some O => c x
            | _ =>
                let d := fun y =>
                  if Nat.eqb min 0 && Nat.eqb (ms_end y) (ms_end x) then None
                  else repeat_matcher m gs greedy c fuel (pred min)
                                      (option_map pred max) y in
                let xr := clear_captures gs x in
                if negb (Nat.eqb min 0) then m xr d
                else if greedy then or_else (m xr d) (fun _ => c x)
                     else or_else (c x) (fun _ => m xr d)
            end).
    cbv zeta. destruct max as [[|k]|]; [reflexivity| |]; now rewrite Hd.
Qed.

Lemma repeat_matcher_more_fuel m gs greedy c :
  forward m -> local m ->
  forall extra min max x,
    repeat_matcher m gs greedy c (min + length (ms_rest x) + extra) min max x
    = repeat_matcher m gs greedy c (min + length (ms_rest x)) min max x.
Proof.
  intros Hfw Hloc. induction extra as [|extra IH]; intros min max x.
  - now rewrite Nat.add_0_r.
  - rewrite Nat.add_succ_r, repeat_matcher_fuel by (auto; lia). apply IH.
Qed.

(* ================================================================== *)
(** ** Further properties of the functions *)
(* ================================================================== *)

(** *** Keeping the first occurrence of each element *)

Lemma array_index_from_range v l i :
  array_index_from v l i = (-1)%Z
  \/ (Z.of_nat i <= array_index_from v l i < Z.of_nat (i + length l))%Z.
Proof.
  revert i. induction l as [|x l IH]; intros i; cbn [array_index_from length]; [now left|].
  destruct (value_eqb x v); [right; lia|].
  destruct (IH (S i)) as [H|H]; [now left | right; lia].
Qed.

Lemma array_index_from_found v pre rest i :
  In v pre ->
  (Z.of_nat i <= array_index_from v (pre ++ rest) i < Z.of_nat (i + length pre))%Z.
Proof.
  revert i. induction pre as [|x pre IH]; intros i H; [destruct H|].
  cbn [app array_index_from length].
  destruct (value_eqb x v) eqn:E; [lia|].
  destruct H as [->|H]; [rewrite value_eqb_refl in E; discriminate|].
  specialize (IH (S i) H). lia.
Qed.



Section FirstOccurrences.

Context {A : Type} (f : A -> value) (keep : A -> nat -> bool) (l0 : list A).
Hypothesis keep_first :
  forall v i, keep v i = true -> array_indexOf (map f l0) (f v) = Z.of_nat i.

Lemma filteri_from_first :
  forall suf pre,
    l0 = pre ++ suf ->
    NoDup (filteri_from keep suf (length pre))
    /\ forall x, In x (filteri_from keep suf (length pre)) -> ~ In x pre.
Proof.
  induction suf as [|a suf IH]; intros pre Hl; cbn [filteri_from].
  - split; [constructor | intros x []].
  - assert (Hl' : l0 = (pre ++ [a]) ++ suf) by now rewrite <- app_assoc.
    destruct (IH (pre ++ [a]) Hl') as (Hnd & Hnot).
    rewrite length_app, Nat.add_1_r in Hnd, Hnot.
    assert (Hrec : forall x, In x (filteri_from keep suf (S (length pre))) -> ~ In x pre).
    { intros x Hx K. apply (Hnot x Hx). apply in_or_app. now left. }
    destruct (keep a (length pre)) eqn:E; [|now split].
    split.
    + constructor; [|exact Hnd]. intros K. apply (Hnot a K).
      apply in_or_app. right. now left.
    + intros x [<-|Hx]; [|now apply Hrec]. intros K.
      apply keep_first in E. unfold array_indexOf in E.
      rewrite Hl, map_app in E.
      pose proof (array_index_from_found (f a) (map f pre) (map f (a :: suf)) 0
                    (in_map f pre a K)) as Hlt.
      rewrite E, length_map in Hlt. lia.
Qed.

Lemma filteri_first_NoDup : NoDup (filteri keep l0).
Proof. apply (filteri_from_first l0 [] eq_refl). Qed.

End FirstOccurrences.


(** *** The members of findMemberNames *)


Lemma Forall2_In_r {A B} (R : A -> B -> Prop) l l' b :
  Forall2 R l l' -> In b l' -> exists a, In a l /\ R a b.
Proof.
  induction 1 as [|x y l l' Hxy H IH]; intros Hb; [destruct Hb|].
  destruct Hb as [<-|Hb]; [exists x; split; [now left | exact Hxy]|].
  destruct (IH Hb) as (a & Ha & Hr). exists a. split; [now right | exact Hr].
Qed.







(** *** The groups that a match always captures *)

Definition find_capture (i : nat) (caps : list (nat * (nat * nat))) : option (nat * (nat * nat)) :=
  find (fun e => Nat.eqb (fst e) i) caps.

Definition mem_nat (i : nat) (l : list nat) : bool := existsb (Nat.eqb i) l.

(** The groups that are captured at the end of every match of a term. *)
Fixpoint always_sets (r : regex) : list nat :=
  match r with
  | Seq r1 r2 =>
      always_sets r2 ++ filter (fun i => negb (mem_nat i (groups r2))) (always_sets r1)
  | Alt r1 r2 => filter (fun i => mem_nat i (always_sets r2)) (always_sets r1)
  | Quant r' min max _ =>
      match min, max with
      | O, _ => []
      | _, Some O => []
      | _, _ => always_sets r'
      end
  | Group i r' => i :: always_sets r'
  | Look false r' => always_sets r'
  | _ => []
  end.

Lemma mem_nat_In i l : mem_nat i l = true <-> In i l.
Proof.
  unfold mem_nat. rewrite existsb_exists. split.
  - intros (x & Hx & E). apply Nat.eqb_eq in E. now subst.
  - intros H. exists i. split; [exact H | apply Nat.eqb_refl].
Qed.

Lemma find_capture_filter_other i (p : nat -> bool) caps :
  p i = true ->
  find_capture i (filter (fun e => p (fst e)) caps) = find_capture i caps.
Proof.
  intros Hp. unfold find_capture. induction caps as [|e caps IH]; [reflexivity|].
  cbn [filter find]. destruct (Nat.eqb_spec (fst e) i) as [E|E].
  - rewrite E, Hp. cbn [find]. rewrite E. now rewrite Nat.eqb_refl.
  - destruct (p (fst e)); [cbn [find]|]; try rewrite IH; try reflexivity.
    destruct (Nat.eqb_spec (fst e) i); [contradiction | reflexivity].
Qed.

Lemma find_capture_set_same i range x :
  find_capture i (ms_caps (set_capture i range x)) = Some (i, range).
Proof. unfold find_capture. cbn. now rewrite Nat.eqb_refl. Qed.

Lemma find_capture_set_other i j range x :
  i <> j -> find_capture i (ms_caps (set_capture j range x)) = find_capture i (ms_caps x).
Proof.
  intros H. cbn [set_capture ms_caps]. unfold find_capture at 1. cbn [find fst].
  destruct (Nat.eqb_spec j i); [congruence|].
  apply (find_capture_filter_other i (fun k => negb (Nat.eqb k j))).
  apply negb_true_iff, Nat.eqb_neq. exact H.
Qed.

Lemma find_capture_clear i gs x :
  ~ In i gs -> find_capture i (ms_caps (clear_captures gs x)) = find_capture i (ms_caps x).
Proof.
  intros H. cbn [clear_captures ms_caps].
  apply (find_capture_filter_other i (fun k => negb (existsb (Nat.eqb k) gs))).
  apply negb_true_iff, not_true_is_false. intros K. now apply mem_nat_In in K.
Qed.

(** A matcher captures [sets] and leaves the groups outside [grps] alone. *)
Definition capturing (sets grps : list nat)
  (m : MatchState -> Continuation -> option MatchState) : Prop :=
  forall x c z,
    m x c = Some z ->
    exists y,
      c y = Some z
      /\ (forall i, In i sets -> find_capture i (ms_caps y) <> None)
      /\ (forall i, ~ In i grps -> find_capture i (ms_caps y) = find_capture i (ms_caps x)).

Lemma match_char_capturing p grps : capturing [] grps (match_char p).
Proof.
  intros x c z H. apply match_char_inv in H. destruct H as (a & t & _ & _ & H).
  exists (advance x a t). split; [exact H|]. split; [intros i []|reflexivity].
Qed.

Lemma capturing_here (c : Continuation) x z grps :
  c x = Some z ->
  exists y,
    c y = Some z
    /\ (forall i, In i [] -> find_capture i (ms_caps y) <> None)
    /\ (forall i, ~ In i grps -> find_capture i (ms_caps y) = find_capture i (ms_caps x)).
Proof. intros H. exists x. split; [exact H|]. split; [intros i []|reflexivity]. Qed.

(** Once the groups [sets] are captured, further iterations keep them so. *)
Lemma repeat_matcher_keeps sets gs m greedy c :
  capturing sets gs m ->
  forall fuel min max x z,
    repeat_matcher m gs greedy c fuel min max x = Some z ->
    exists y,
      c y = Some z
      /\ ((forall i, In i sets -> find_capture i (ms_caps x) <> None) ->
          forall i, In i sets -> find_capture i (ms_caps y) <> None)
      /\ (forall i, ~ In i gs -> find_capture i (ms_caps y) = find_capture i (ms_caps x)).
Proof.
  intros Hm. induction fuel as [|fuel IH]; intros min max x z H.
  - exists x. split; [destruct max as [[|k]|]; exact H|]. split; auto.
  - assert (Hstop : c x = Some z ->
                    exists y,
                      c y = Some z
                      /\ ((forall i, In i sets -> find_capture i (ms_caps x) <> None) ->
                          forall i, In i sets -> find_capture i (ms_caps y) <> None)
                      /\ (forall i, ~ In i gs ->
                                    find_capture i (ms_caps y) = find_capture i (ms_caps x)))
      by (intros Hc; exists x; split; [exact Hc | split; auto]).
    assert (Hiter :
              m (clear_captures gs x)
                (fun y => if Nat.eqb min 0 && Nat.eqb (ms_end y) (ms_end x) then None
                          else repeat_matcher m gs greedy c fuel (pred min)
                                              (option_map pred max) y) = Some z ->
              exists y,
                c y = Some z
                /\ (forall i, In i sets -> find_capture i (ms_caps y) <> None)
                /\ (forall i, ~ In i gs ->
                              find_capture i (ms_caps y) = find_capture i (ms_caps x))).
    { intros Hc. apply Hm in Hc. destruct Hc as (y & Hd & Hset & Hframe).
      destruct (Nat.eqb min 0 && Nat.eqb (ms_end y) (ms_end x)); [discriminate|].
      apply IH in Hd. destruct Hd as (y' & Hc & Hset' & Hframe').
      exists y'. split; [exact Hc|]. split; [now apply Hset'|].
      intros i Hi. rewrite Hframe', Hframe by exact Hi. now apply find_capture_clear. }
    assert (Hiter' :
              m (clear_captures gs x)
                (fun y => if Nat.eqb min 0 && Nat.eqb (ms_end y) (ms_end x) then None
                          else repeat_matcher m gs greedy c fuel (pred min)
                                              (option_map pred max) y) = Some z ->
              exists y,
                c y = Some z
                /\ ((forall i, In i sets -> find_capture i (ms_caps x) <> None) ->
                    forall i, In i sets -> find_capture i (ms_caps y) <> None)
                /\ (forall i, ~ In i gs ->
                              find_capture i (ms_caps y) = find_capture i (ms_caps x))).
    { intros Hc. destruct (Hiter Hc) as (y & H1 & H2 & H3). exists y. auto. }
    cbn [repeat_matcher] in H.
    destruct max as [[|k]|]; [now apply Hstop| |].
    all: destruct (negb (Nat.eqb min 0)); [now apply Hiter'|].
    all: destruct greedy; unfold or_else in H.
    all: match type of H with
         | match ?a with _ => _ end = _ => destruct a eqn:E
         end.
    all: try (injection H as <-).
    all: auto.
Qed.

(** With a mandatory iteration the groups of the term are captured. *)
Lemma repeat_matcher_capturing sets gs m greedy c fuel min max x z :
  capturing sets gs m ->
  min <> 0 -> max <> Some 0 ->
  repeat_matcher m gs greedy c (S fuel) min max x = Some z ->
  exists y,
    c y = Some z
    /\ (forall i, In i sets -> find_capture i (ms_caps y) <> None)
    /\ (forall i, ~ In i gs -> find_capture i (ms_caps y) = find_capture i (ms_caps x)).
Proof.
  intros Hm Hmin Hmax H. cbn [repeat_matcher] in H.
  assert (Hneg : negb (Nat.eqb min 0) = true)
    by (apply negb_true_iff, Nat.eqb_neq; exact Hmin).
  assert (Hm' :
            m (clear_captures gs x)
              (fun y => if Nat.eqb min 0 && Nat.eqb (ms_end y) (ms_end x) then None
                        else repeat_matcher m gs greedy c fuel (pred min)
                                            (option_map pred max) y) = Some z).
  { destruct max as [[|k]|]; [congruence| |]; now rewrite Hneg in H. }
  apply Hm in Hm'. destruct Hm' as (y & Hd & Hset & Hframe).
  destruct (Nat.eqb min 0 && Nat.eqb (ms_end y) (ms_end x)); [discriminate|].
  apply (repeat_matcher_keeps sets gs m greedy c Hm) in Hd.
  destruct Hd as (y' & Hc & Hset' & Hframe').
  exists y'. split; [exact Hc|]. split; [now apply Hset'|].
  intros i Hi. rewrite Hframe', Hframe by exact Hi. now apply find_capture_clear.
Qed.

Lemma matcher_capturing multiline r :
  capturing (always_sets r) (groups r) (matcher multiline r).
Proof.
  induction r as [|ch| |neg items|r1 IH1 r2 IH2|r1 IH1 r2 IH2|r IH min max greedy
                 |i r IH|neg r IH| | | |]; intros x c z H;
    cbn [matcher always_sets groups] in *.
  - now apply capturing_here.
  - now apply (match_char_capturing _ []) in H.
  - now apply (match_char_capturing _ []) in H.
  - now apply (match_char_capturing _ []) in H.
  - apply IH1 in H. destruct H as (y1 & H & Hs1 & Hf1).
    apply IH2 in H. destruct H as (y2 & H & Hs2 & Hf2).
    exists y2. split; [exact H|]. split.
    + intros i Hi. apply in_app_or in Hi. destruct Hi as [Hi|Hi]; [now apply Hs2|].
      apply filter_In in Hi. destruct Hi as (Hi & Hn).
      rewrite Hf2; [now apply Hs1|].
      intros K. apply mem_nat_In in K. rewrite K in Hn. discriminate.
    + intros i Hi. rewrite Hf2, Hf1; [reflexivity| |];
        intros K; apply Hi, in_or_app; auto.
  - unfold or_else in H. destruct (matcher multiline r1 x c) eqn:E.
    + injection H as <-. apply IH1 in E. destruct E as (y & H & Hs & Hf).
      exists y. split; [exact H|]. split.
      * intros i Hi. apply filter_In in Hi. now apply Hs.
      * intros i Hi. apply Hf. intros K. apply Hi, in_or_app. now left.
    + apply IH2 in H. destruct H as (y & H & Hs & Hf).
      exists y. split; [exact H|]. split.
      * intros i Hi. apply filter_In in Hi. destruct Hi as (_ & Hi).
        apply mem_nat_In in Hi. now apply Hs.
      * intros i Hi. apply Hf. intros K. apply Hi, in_or_app. now right.
  - destruct min as [|min'].
    + apply (repeat_matcher_keeps _ _ _ _ _ IH) in H.
      destruct H as (y & H & _ & Hf). exists y. split; [exact H|].
      split; [intros i []|exact Hf].
    + destruct max as [[|k]|].
      * cbn [repeat_matcher] in H. now apply capturing_here.
      * cbn [Nat.add] in H.
        apply (repeat_matcher_capturing _ _ _ _ _ _ _ _ _ _ IH) in H;
          [exact H | discriminate | discriminate].
      * cbn [Nat.add] in H.
        apply (repeat_matcher_capturing _ _ _ _ _ _ _ _ _ _ IH) in H;
          [exact H | discriminate | discriminate].
  - apply IH in H. destruct H as (y & H & Hs & Hf).
    exists (set_capture i (ms_end x, ms_end y) y). split; [exact H|]. split.
    + intros j [<-|Hj]; [now rewrite find_capture_set_same|].
      destruct (Nat.eq_dec j i) as [->|Hne]; [now rewrite find_capture_set_same|].
      rewrite find_capture_set_other by exact Hne. now apply Hs.
    + intros j Hj. rewrite find_capture_set_other by (intros ->; apply Hj; now left).
      apply Hf. intros K. apply Hj. now right.
  - destruct (matcher multiline r x (fun y => Some y)) as [y|] eqn:E; destruct neg;
      try discriminate.
    + apply IH in E. destruct E as (y' & E & Hs & Hf). injection E as ->.
      exists (with_captures (ms_caps y) x). split; [exact H|]. split.
      * intros i Hi. now apply Hs.
      * intros i Hi. now apply Hf.
    + now apply capturing_here.
  - destruct (at_line_start multiline x); [now apply capturing_here | discriminate].
  - destruct (at_line_end multiline x); [now apply capturing_here | discriminate].
  - destruct (at_word_boundary x); [now apply capturing_here | discriminate].
  - destruct (at_word_boundary x); [discriminate | now apply capturing_here].
Qed.

(** The text of a group that is always captured is a string in every match array. *)
Lemma match_at_item re x y input start i :
  match_at re x = Some y ->
  In i (always_sets (re_term re)) -> 1 <= i <= re_ngroups re ->
  exists s, item (match_array re input start y) i = Str s.
Proof.
  intros H Hi Hrange. unfold match_at in H. apply matcher_capturing in H.
  destruct H as (y' & E & Hs & _). injection E as ->.
  unfold item. cbn [match_array m_items].
  destruct i as [|i]; [lia|]. cbn [nth].
  assert (Hnth : nth i (map (capture_text input (ms_caps y)) (seq 1 (re_ngroups re))) Undefined
                 = capture_text input (ms_caps y) (S i)).
  { rewrite (nth_indep _ Undefined (capture_text input (ms_caps y) 0))
      by (rewrite length_map, length_seq; lia).
    rewrite map_nth, seq_nth by lia. reflexivity. }
  rewrite Hnth. unfold capture_text. specialize (Hs (S i) Hi).
  unfold find_capture in Hs. destruct (find _ (ms_caps y)) as [[k [a b]]|]; [|congruence].
  eauto.
Qed.

Lemma all_matches_item re input m i :
  In m (all_matches re input) ->
  In i (always_sets (re_term re)) -> 1 <= i <= re_ngroups re ->
  exists s, item m i = Str s.
Proof.
  intros H Hi Hr. apply all_matches_sound in H. destruct H as (pre & rest & y & _ & Hy & ->).
  exact (match_at_item re (state_between pre rest) y input (length pre) i Hy Hi Hr).
Qed.

(** *** Pieces of a text split at one separator *)

(** [pieces.join(sep)]. *)
Definition join (sep : jsstring) (pieces : list jsstring) : jsstring :=
  match pieces with
  | [] => []
  | p :: ps => p ++ flat_map (fun q => sep ++ q) ps
  end.

Lemma split_go_single (c : N) (s cur : jsstring) :
  split_go [c] s 0 cur <> []
  /\ join [c] (split_go [c] s 0 cur) = rev cur ++ s
  /\ (~ In c cur -> forall p, In p (split_go [c] s 0 cur) -> ~ In c p).
Proof.
  revert cur. induction s as [|a s IH]; intros cur.
  - cbn. split; [discriminate|]. split; [now rewrite !app_nil_r|].
    intros H p [<-|[]] K. apply H. now apply in_rev.
  - cbn [split_go starts_with length Nat.sub].
    destruct (N.eqb_spec c a) as [<-|Hne]; cbn [andb].
    + destruct (IH []) as (Hne & Hjoin & Hno). split; [discriminate|]. split.
      * destruct (split_go [c] s 0 []) as [|p ps] eqn:E; [congruence|].
        cbn [join rev app] in Hjoin. cbn [join flat_map].
        f_equal. rewrite <- app_assoc. cbn [app]. f_equal. exact Hjoin.
      * intros H p [<-|Hp]; [intros K; apply H; now apply in_rev|].
        apply Hno; [intros [] | exact Hp].
    + destruct (IH (a :: cur)) as (Hne' & Hjoin & Hno). split; [exact Hne'|]. split.
      * rewrite Hjoin. cbn [rev]. now rewrite <- app_assoc.
      * intros H. apply Hno. intros [K|K]; [congruence | contradiction].
Qed.

Lemma In_join_piece (sep : jsstring) (pieces : list jsstring) p x :
  In p pieces -> In x p -> In x (join sep pieces).
Proof.
  destruct pieces as [|q ps]; [intros []|]. cbn [join]. intros [->|Hp] Hx.
  - apply in_or_app. now left.
  - apply in_or_app. right. apply in_flat_map. exists p. split; [exact Hp|].
    apply in_or_app. now right.
Qed.

(** The pieces of [s.split(",")]: there is at least one, none holds a comma,
    and joined with commas they give [s] back. *)
Lemma split_comma (s : jsstring) :
  split s (u ",") <> []
  /\ join (u ",") (split s (u ",")) = s
  /\ forall p, In p (split s (u ",")) -> ~ In 44%N p.
Proof.
  change (split s (u ",")) with (split_go [44%N] s 0 []).
  change (u ",") with [44%N].
  destruct (split_go_single 44 s []) as (H1 & H2 & H3).
  split; [exact H1|]. split; [exact H2|]. apply H3. intros [].
Qed.

Lemma mapM_total {A B} (f : A -> result B) (P : B -> Prop) (l : list A) :
  (forall a, In a l -> exists b, f a = Ok b /\ P b) ->
  exists l', mapM f l = Ok l' /\ Forall P l'.
Proof.
  induction l as [|a l IH]; intros H.
  - exists []. split; [reflexivity | constructor].
  - destruct (H a (or_introl eq_refl)) as (b & Hb & Pb).
    destruct IH as (l' & Hl & Pl); [intros x Hx; apply H; now right|].
    exists (b :: l'). cbn [mapM bind]. rewrite Hb. cbn [bind]. rewrite Hl.
    split; [reflexivity | now constructor].
Qed.

(** *** getFunctionCall never fails *)

Definition call_regex : RegExp :=
  Eval vm_compute in
    match new_RegExp (u "\[(.+)\]\s*=\s*(\S+)\((.*)\)") (u "g") with
    | Some re => re
    | None => MkRegExp Empty 0 false false 0
    end.

Lemma call_regex_eq : regexp (u "\[(.+)\]\s*=\s*(\S+)\((.*)\)") (u "g") = Ok call_regex.
Proof. vm_compute. reflexivity. Qed.

(** The pieces of a list made by [comma_list]. *)
Definition clean_pieces (pieces : list jsstring) : Prop :=
  pieces <> []
  /\ forall p x, In p pieces -> In x p -> x <> 44%N /\ is_white_space x = false.

Lemma comma_list_clean (s : jsstring) :
  exists pieces,
    comma_list (Str s) = Ok pieces
    /\ clean_pieces pieces
    /\ join (u ",") pieces = remove_white_space s.
Proof.
  rewrite comma_list_eq. cbn [as_string bind].
  destruct (split_comma (remove_white_space s)) as (H1 & H2 & H3).
  eexists. split; [reflexivity|]. split; [|exact H2].
  split; [exact H1|]. intros p x Hp Hx. split.
  - intros ->. now apply (H3 p Hp).
  - assert (Hin : In x (remove_white_space s)).
    { rewrite <- H2. now apply In_join_piece with p. }
    unfold remove_white_space in Hin. apply filter_In in Hin.
    now apply negb_true_iff.
Qed.

(** X2.  [getFunctionCall] answers for every text: the three groups of its
    pattern take part in every match, so no method is called on
    [undefined].  The name of every call is a string, and its parameters and
    its returns are lists of at least one piece, whose pieces hold neither a
    comma nor white space. *)
Theorem X2_calls_always_answered (content : jsstring) :
  exists calls,
    getFunctionCall content = Ok calls
    /\ Forall (fun call =>
                 (exists name, fc_name call = Str name)
                 /\ clean_pieces (fc_params call)
                 /\ clean_pieces (fc_returns call))
              calls.
Proof.
  unfold getFunctionCall. rewrite call_regex_eq. cbn [bind].
  rewrite matchAll_all by reflexivity. cbn [bind].
  destruct (mapM_total
              (fun v =>
                 returns <- comma_list (item v 1) ;;
                 params <- comma_list (item v 3) ;;
                 Ok (MkFunctionCall (item v 2) params returns))
              (fun call =>
                 (exists name, fc_name call = Str name)
                 /\ clean_pieces (fc_params call)
                 /\ clean_pieces (fc_returns call))
              (all_matches call_regex content)) as (calls & Hcalls & Hall).
  - intros m Hm.
    destruct (all_matches_item call_regex content m 1 Hm) as (s1 & E1);
      [vm_compute; tauto | cbn; lia |].
    destruct (all_matches_item call_regex content m 2 Hm) as (s2 & E2);
      [vm_compute; tauto | cbn; lia |].
    destruct (all_matches_item call_regex content m 3 Hm) as (s3 & E3);
      [vm_compute; tauto | cbn; lia |].
    rewrite E1, E2, E3.
    destruct (comma_list_clean s1) as (r & Hr & Hrc & _).
    destruct (comma_list_clean s3) as (p & Hp & Hpc & _).
    rewrite Hr, Hp. cbn [bind]. eexists. split; [reflexivity|].
    cbn [fc_name fc_params fc_returns]. split; [now exists s2 | now split].
  - exists calls. rewrite Hcalls. cbn [bind app]. now split.
Qed.

(** *** The struct names of getStructNames *)

Definition struct_regex : RegExp :=
  MkRegExp
    (Seq (Group 1
            (Seq (Class false [CRange 97 122; CRange 65 90; CChar 95])
               (Seq (Quant (Class false [CRange 48 57; CRange 97 122; CRange 65 90; CChar 95])
                           0 None true)
                    Empty)))
         (Seq (Char 46) Empty))
    1 true true 0.

Lemma struct_regex_eq :
  regexp (u "([a-zA-Z\_][0-9a-zA-Z\_]*)\.") (u "gm") = Ok struct_regex.
Proof. vm_compute. reflexivity. Qed.

(** A text of word characters that does not begin with a digit. *)
Definition identifier (t : jsstring) : Prop :=
  exists a run,
    t = a :: run /\ is_digit a = false
    /\ Forall (fun c => is_word_char c = true) (a :: run).

Lemma first_class_spec a :
  class_mem false [CRange 97 122; CRange 65 90; CChar 95] a = true ->
  is_word_char a = true /\ is_digit a = false.
Proof.
  unfold class_mem, is_word_char, is_digit, class_atom_mem, existsb, in_range. intros H.
  cbn [xorb] in H.
  repeat rewrite ?orb_true_iff, ?andb_true_iff, ?N.leb_le, ?N.eqb_eq in H.
  split.
  - repeat rewrite ?orb_true_iff, ?andb_true_iff, ?N.leb_le, ?N.eqb_eq. lia.
  - apply not_true_is_false. intros K.
    repeat rewrite ?orb_true_iff, ?andb_true_iff, ?N.leb_le, ?N.eqb_eq in K. lia.
Qed.

Lemma rest_class_spec a :
  class_mem false [CRange 48 57; CRange 97 122; CRange 65 90; CChar 95] a = true ->
  is_word_char a = true.
Proof.
  unfold class_mem, is_word_char, is_digit, class_atom_mem, existsb, in_range. intros H.
  cbn [xorb] in H.
  repeat rewrite ?orb_true_iff, ?andb_true_iff, ?N.leb_le, ?N.eqb_eq in H.
  repeat rewrite ?orb_true_iff, ?andb_true_iff, ?N.leb_le, ?N.eqb_eq. lia.
Qed.

Lemma struct_match_inv x y :
  ms_caps x = [] ->
  match_at struct_regex x = Some y ->
  exists t tail,
    ms_rest x = t ++ 46%N :: tail
    /\ identifier t
    /\ ms_caps y = [(1, (ms_end x, ms_end x + length t))].
Proof.
  intros Hcaps H. unfold match_at in H.
  cbn [struct_regex re_term re_multiline matcher] in H.
  apply match_char_inv in H. destruct H as (a & t1 & Hrest & Ha & H).
  rewrite repeat_class in H by (cbn; lia).
  apply greedy_class_inv in H; [|reflexivity].
  cbn [groups advance ms_rest] in H. destruct H as (run & t2 & Ht1 & Hall & _ & H).
  apply match_char_inv in H. destruct H as (dot & t3 & Ht2 & Hdot & H).
  apply N.eqb_eq in Hdot. subst dot. cbn [set_capture jump ms_rest] in Ht2.
  injection H as <-.
  exists (a :: run), t3. split; [|split].
  - rewrite Hrest, Ht1, Ht2. reflexivity.
  - exists a, run. destruct (first_class_spec a Ha) as (Hw & Hd).
    repeat split; auto. constructor; [exact Hw|].
    eapply Forall_impl; [|exact Hall]. intros c Hc. now apply rest_class_spec.
  - cbn. rewrite Hcaps. cbn. repeat f_equal; lia.
Qed.

(** [getStructNames] keeps first occurrences of the first groups, the base
    name apart. *)
Lemma getStructNames_eq (fileName content : jsstring) :
  getStructNames fileName content
  = Ok (filteri
          (fun v i =>
             (array_indexOf (map (fun v => item v 1) (all_matches struct_regex content)) v
              =? Z.of_nat i)%Z
             && negb (value_eqb v (Str (basename fileName))))
          (map (fun v => item v 1) (all_matches struct_regex content))).
Proof.
  unfold getStructNames. rewrite struct_regex_eq. cbn [bind].
  now rewrite matchAll_all by reflexivity.
Qed.

(** The first group of a match of the struct pattern is an identifier that
    stands before a dot. *)
Lemma struct_match_name (content : jsstring) (m : MatchArray) :
  In m (all_matches struct_regex content) ->
  exists t, item m 1 = Str t /\ identifier t /\ occurs_in (t ++ u ".") content.
Proof.
  intros Hm. apply all_matches_sound in Hm.
  destruct Hm as (pre & rest & y & Hin & Hy & ->).
  apply struct_match_inv in Hy; [|reflexivity].
  destruct Hy as (t & tail & Hrest & Hid & Hcaps).
  cbn [state_between ms_rest ms_end] in Hrest, Hcaps.
  exists t. split; [|split; [exact Hid|]].
  - unfold item. cbn [match_array m_items nth struct_regex re_ngroups seq map].
    rewrite Hcaps. cbn [capture_text find fst Nat.eqb]. f_equal.
    rewrite Hin, Hrest. apply substring_middle.
  - exists pre, tail. rewrite Hin, Hrest, <- app_assoc. reflexivity.
Qed.

Lemma struct_names_identifiers (fileName content : jsstring) (names : list value) v :
  getStructNames fileName content = Ok names ->
  In v names ->
  exists t,
    v = Str t /\ identifier t /\ occurs_in (t ++ u ".") content
    /\ t <> basename fileName.
Proof.
  rewrite getStructNames_eq. intros H Hv. injection H as <-.
  apply filteri_from_In in Hv. destruct Hv as (j & Hk & Hin).
  apply andb_true_iff in Hk. destruct Hk as (_ & Hb). apply negb_true_iff in Hb.
  apply in_map_iff in Hin. destruct Hin as (m & <- & Hm).
  destruct (struct_match_name content m Hm) as (t & Hitem & Hid & Hocc).
  rewrite Hitem in *. exists t. repeat split; auto.
  intros K. cbn [value_eqb] in Hb. rewrite K, str_eqb_refl in Hb. discriminate.
Qed.

(** X3.  [getStructNames] answers for every file name and text, with no name
    twice; every name is a string, an identifier (word characters, the first
    one no digit) that stands in the text right before a dot, and is not the
    base name of the file. *)
Theorem X3_struct_names_are_dotted_identifiers (fileName content : jsstring) :
  exists names,
    getStructNames fileName content = Ok names
    /\ NoDup names
    /\ forall v,
         In v names ->
         exists t,
           v = Str t /\ identifier t
           /\ occurs_in (t ++ u ".") content
           /\ t <> basename fileName.
Proof.
  eexists. split; [apply getStructNames_eq|]. split.
  - apply (filteri_first_NoDup (fun v => v)). intros v i E.
    apply andb_true_iff in E. destruct E as (E & _). apply Z.eqb_eq in E.
    now rewrite map_id.
  - intros v Hv.
    apply (struct_names_identifiers fileName content _ v (getStructNames_eq _ _) Hv).
Qed.


(** *** Patterns built around an identifier *)

Definition plain_tokens (w : jsstring) : list token :=
  map (fun c => TAtom (Char c) true) w.

Lemma word_char_not_special c k :
  is_word_char c = true ->
  In k [92; 91; 40; 41; 124; 42; 43; 63; 46; 94; 36; 93; 123; 125]%N ->
  (c =? k)%N = false.
Proof.
  unfold is_word_char, is_digit, in_range. intros H Hk.
  repeat rewrite ?orb_true_iff, ?andb_true_iff, ?N.leb_le, ?N.eqb_eq in H.
  apply N.eqb_neq. cbn [In] in Hk. lia.
Qed.

(** A word character is one literal term for the lexer. *)
Lemma lex_word_char c t :
  is_word_char c = true ->
  lex None (c :: t) = cons_tok (TAtom (Char c) true) (lex None t).
Proof.
  intros H. cbn [lex].
  rewrite !(word_char_not_special c _ H) by (cbn; tauto).
  reflexivity.
Qed.

Lemma lex_word w t :
  Forall (fun c => is_word_char c = true) w ->
  lex None (w ++ t) = option_map (app (plain_tokens w)) (lex None t).
Proof.
  induction 1 as [|c w Hc Hw IH]; cbn [app plain_tokens map].
  - now destruct (lex None t).
  - rewrite lex_word_char, IH by exact Hc. unfold cons_tok.
    now destruct (lex None t).
Qed.

Lemma parse_plain w toks stack cur n :
  parse (plain_tokens w ++ toks) stack cur n
  = parse toks stack
          (Frame (f_kind cur) (f_alts cur)
                 (rev (map (fun c => (Char c, true)) w) ++ f_seq cur))
          n.
Proof.
  revert cur. induction w as [|c w IH]; intros cur; cbn [plain_tokens map app rev].
  - now destruct cur.
  - cbn [parse]. fold (plain_tokens w). rewrite IH.
    cbn [push_term f_kind f_alts f_seq]. now rewrite <- app_assoc.
Qed.

Lemma seq_of_plain w (terms : list (regex * bool)) :
  seq_of (terms ++ rev (map (fun c => (Char c, true)) w))
  = fold_left (fun acc t => Seq (fst t) acc)
              (rev (map (fun c => (Char c, true)) w))
              (seq_of terms).
Proof. unfold seq_of. now rewrite fold_left_app. Qed.

Lemma fold_left_literal w acc :
  fold_left (fun acc t => Seq (fst t) acc) (rev (map (fun c => (Char c, true)) w)) acc
  = literal w acc.
Proof.
  rewrite <- fold_left_rev_right, rev_involutive. unfold literal.
  induction w as [|c w IH]; cbn; [reflexivity | now rewrite IH].
Qed.

Lemma lex_escape e t :
  lex None (92%N :: e :: t)
  = match atom_escape e with
    | Some tok => cons_tok tok (lex None t)
    | None => None
    end.
Proof. reflexivity. Qed.

(** The term of [\b<w>\b] for an identifier-like [w]. *)
Definition word_regex (w : jsstring) : regex :=
  Seq WordBoundary (literal w (Seq WordBoundary Empty)).

Lemma compile_word w :
  Forall (fun c => is_word_char c = true) w ->
  compile (u "\b" ++ w ++ u "\b") = Some (word_regex w, 0).
Proof.
  intros Hw. unfold compile.
  change (u "\b" ++ w ++ u "\b") with (92%N :: 98%N :: w ++ u "\b").
  rewrite lex_escape. change (atom_escape 98) with (Some (TAtom WordBoundary false)).
  cbn iota. rewrite lex_word by exact Hw.
  change (lex None (u "\b")) with (Some [TAtom WordBoundary false]).
  cbn [option_map cons_tok parse push_term f_kind f_alts f_seq].
  rewrite parse_plain. cbn [parse push_term f_kind f_alts f_seq].
  unfold close_frame. cbn [push_term f_kind f_seq f_alts rev app alts_of].
  unfold seq_of, word_regex. cbn [fold_left fst].
  now rewrite fold_left_app, fold_left_literal.
Qed.

(** *** The whole-word occurrences of an identifier *)

Definition occurrence_regex (w : jsstring) : RegExp :=
  MkRegExp (word_regex w) 0 true false 0.

Lemma occurrence_regex_eq w :
  Forall (fun c => is_word_char c = true) w ->
  regexp (u "\b" ++ w ++ u "\b") (u "g") = Ok (occurrence_regex w).
Proof.
  intros Hw. unfold regexp, new_RegExp. rewrite compile_word by exact Hw. reflexivity.
Qed.

Lemma jump_word_before x w tail :
  w <> [] -> Forall (fun c => is_word_char c = true) w ->
  word_before (jump x w tail) = true.
Proof.
  intros Hne Hw. unfold word_before, jump. cbn [ms_prev].
  destruct (last_map_Some w (ms_prev x) Hne) as (a & -> & Ha).
  rewrite Forall_forall in Hw. now apply Hw.
Qed.

(** [\b<w>\b] matches where [w] stands with no word character before it and
    none after it. *)
Lemma match_at_word re w x :
  re_term re = word_regex w ->
  w <> [] -> Forall (fun c => is_word_char c = true) w ->
  match_at re x
  = if negb (word_before x) && starts_with w (ms_rest x)
       && negb (word_at_head (skipn (length w) (ms_rest x)))
    then Some (jump x w (skipn (length w) (ms_rest x)))
    else None.
Proof.
  intros Hterm Hne Hw. unfold match_at. rewrite Hterm. cbn [word_regex matcher].
  rewrite matcher_literal. cbn [matcher].
  destruct (starts_with w (ms_rest x)) eqn:E.
  - assert (Hafter : word_after x = true).
    { apply starts_with_spec in E. destruct E as (b & E). unfold word_after. rewrite E.
      destruct w as [|a w]; [congruence|]. inversion Hw; subst. assumption. }
    unfold at_word_boundary at 1. rewrite Hafter.
    destruct (word_before x); cbn [xorb negb andb]; [reflexivity|].
    unfold at_word_boundary. rewrite jump_word_before by assumption.
    unfold word_after. cbn [jump ms_rest xorb]. fold (word_at_head (skipn (length w) (ms_rest x))).
    now destruct (word_at_head _).
  - rewrite andb_false_r. now destruct (at_word_boundary x).
Qed.

Lemma proper_prefix_split (m1 m2 w tail : jsstring) :
  m1 ++ m2 = w ++ tail -> length m1 < length w ->
  exists w2, w = m1 ++ w2 /\ w2 <> [].
Proof.
  intros H Hlen. apply app_eq_app in H. destruct H as (l & [(-> & H)|(-> & H)]).
  - rewrite length_app in Hlen. lia.
  - exists l. split; [reflexivity|]. intros ->. rewrite app_nil_r in Hlen. lia.
Qed.

Lemma word_no_overlap re w input :
  re_term re = word_regex w ->
  w <> [] -> Forall (fun c => is_word_char c = true) w ->
  no_overlap re input.
Proof.
  intros Hterm Hne Hw pre m1 m2 y Hin Hy Hm1 Hlen.
  rewrite (match_at_word re w) in * by assumption.
  destruct (negb (word_before (state_between pre (m1 ++ m2))) && _ && _) eqn:E;
    [|discriminate].
  injection Hy as <-. cbn [jump ms_end state_between ms_rest] in Hlen.
  apply andb_true_iff in E. destruct E as (E & _).
  apply andb_true_iff in E. destruct E as (_ & E).
  apply starts_with_spec in E. cbn [state_between ms_rest] in E. destruct E as (tail & E).
  destruct (proper_prefix_split m1 m2 w tail E) as (w2 & -> & Hw2); [lia|].
  apply Forall_app in Hw. destruct Hw as (Hw1 & _).
  destruct (last_opt_app pre m1 Hm1) as (a & Ha & Hin1).
  rewrite word_before_between. unfold word_at_end. rewrite Ha.
  rewrite Forall_forall in Hw1. now rewrite (Hw1 a Hin1).
Qed.

(** The matches of [\b<w>\b] in a text are its whole-word occurrences. *)
Lemma word_matches re w input m :
  re_term re = word_regex w -> re_ngroups re = 0 ->
  w <> [] -> Forall (fun c => is_word_char c = true) w ->
  In m (all_matches re input)
  <-> exists pre post,
        input = pre ++ w ++ post
        /\ word_at_end pre = false /\ word_at_head post = false
        /\ m = MkMatch (length pre) (length pre + length w) [Str w].
Proof.
  intros Hterm Hn Hne Hw.
  assert (Harr : forall pre post,
             match_array re (pre ++ w ++ post) (length pre)
                         (jump (state_between pre (w ++ post)) w post)
             = MkMatch (length pre) (length pre + length w) [Str w]).
  { intros pre post. unfold match_array. rewrite Hn.
    cbn [jump ms_end state_between seq map]. now rewrite substring_middle. }
  split.
  - intros H. apply all_matches_sound in H.
    destruct H as (pre & rest & y & Hin & Hy & ->).
    rewrite (match_at_word re w) in Hy by assumption.
    destruct (negb (word_before (state_between pre rest)) && _ && _) eqn:E; [|discriminate].
    injection Hy as <-.
    apply andb_true_iff in E. destruct E as (E & E3).
    apply andb_true_iff in E. destruct E as (E1 & E2).
    cbn [state_between ms_rest] in E2, E3. apply starts_with_spec in E2.
    destruct E2 as (post & ->). cbn [state_between ms_rest].
    rewrite skipn_length_app in *.
    exists pre, post. rewrite word_before_between in E1.
    apply negb_true_iff in E1, E3. repeat split; auto.
    rewrite Hin. apply Harr.
  - intros (pre & post & Hin & Hb & Ha & ->). rewrite <- (Harr pre post), <- Hin.
    apply (all_matches_complete re input (word_no_overlap re w input Hterm Hne Hw)
             pre (w ++ post) _ Hin).
    rewrite (match_at_word re w) by assumption.
    rewrite word_before_between, Hb. cbn [state_between ms_rest negb andb].
    assert (Hs : starts_with w (w ++ post) = true)
      by (apply starts_with_spec; now exists post).
    now rewrite Hs, skipn_length_app, Ha.
Qed.

Lemma ranges_from_In re lines i0 r :
  In r (ranges_from re lines i0)
  <-> exists k line m,
        nth_error lines k = Some line /\ In m (all_matches re line)
        /\ r = MkRange (i0 + k) (m_index m).
Proof.
  revert i0. induction lines as [|v lines IH]; intros i0; cbn [ranges_from].
  - split; [intros [] | intros (k & line & m & H & _)]. destruct k; discriminate.
  - rewrite in_app_iff, in_map_iff, IH. split.
    + intros [(m & <- & Hm)|(k & line & m & Hk & Hm & ->)].
      * exists 0, v, m. rewrite Nat.add_0_r. auto.
      * exists (S k), line, m. rewrite Nat.add_succ_r. auto.
    + intros (k & line & m & Hk & Hm & ->). destruct k as [|k].
      * injection Hk as ->. left. exists m. rewrite Nat.add_0_r. auto.
      * right. exists k, line, m. rewrite Nat.add_succ_r. auto.
Qed.

(** X4.  For a name made of word characters, [getRangesByName] answers, and
    its positions are exactly the whole-word occurrences of the name: row
    [row], column [column] is reported when line [row] of the text has the
    name at index [column], with no word character right before it and none
    right after it. *)
Theorem X4_occurrences_of_identifier (content name : jsstring) :
  name <> [] -> Forall (fun c => is_word_char c = true) name ->
  exists ranges,
    getRangesByName content name = Ok ranges
    /\ forall row column,
         In (MkRange row column) ranges
         <-> exists line pre post,
               nth_error (split content newline) row = Some line
               /\ line = pre ++ name ++ post /\ length pre = column
               /\ word_at_end pre = false /\ word_at_head post = false.
Proof.
  intros Hne Hw. unfold getRangesByName.
  rewrite occurrence_regex_eq by exact Hw. cbn [bind].
  rewrite forEach_line_ranges by reflexivity. cbn [bind snd app].
  eexists. split; [reflexivity|]. intros row column.
  rewrite ranges_from_In. split.
  - intros (k & line & m & Hk & Hm & E).
    apply (word_matches (occurrence_regex name) name) in Hm; auto.
    destruct Hm as (pre & post & Hin & Hb & Ha & ->).
    cbn [m_index Nat.add] in E. injection E as -> ->.
    now exists line, pre, post.
  - intros (line & pre & post & Hk & Hin & Hc & Hb & Ha).
    exists row, line, (MkMatch (length pre) (length pre + length name) [Str name]).
    split; [exact Hk|]. split.
    + apply (word_matches (occurrence_regex name) name); auto. now exists pre, post.
    + cbn [m_index Nat.add]. now rewrite Hc.
Qed.

(** *** Positions lie inside the text *)

Lemma exec_bounds re input m :
  fst (exec re input) = Some m ->
  m_index m <= m_end m /\ m_end m <= length input.
Proof.
  unfold exec. set (start := if re_global re then lastIndex re else 0).
  destruct (Nat.ltb_spec (length input) start) as [H|H]; [discriminate|].
  rewrite search_from_eq by exact H.
  destruct (search re input _ _ _) as [m'|] eqn:E; [|discriminate].
  cbn [fst]. intros K. injection K as ->.
  assert (Hin : input = firstn start input ++ skipn start input)
    by (symmetry; apply firstn_skipn).
  destruct (search_bounds re input _ _ m Hin E) as (_ & H1 & H2). now split.
Qed.

(** X5.  Every position that [getRangesByName] reports lies inside the
    text: its row is the index of a line of the text and its column is at
    most the length of that line. *)
Theorem X5_ranges_inside_text (content name : jsstring) (ranges : list Range) :
  getRangesByName content name = Ok ranges ->
  forall r,
    In r ranges ->
    exists line,
      nth_error (split content newline) (r_row r) = Some line
      /\ r_column r <= length line.
Proof.
  unfold getRangesByName.
  destruct (regexp (u "\b" ++ name ++ u "\b") (u "g")) as [regex|] eqn:Hre; [|discriminate].
  cbn [bind]. destruct (regexp_g _ _ Hre) as (H0 & Hg & _).
  rewrite forEach_line_ranges by assumption. cbn [bind snd app].
  intros H. injection H as <-. intros r Hr.
  apply ranges_from_In in Hr. destruct Hr as (k & line & m & Hk & Hm & ->).
  exists line. cbn [r_row r_column Nat.add]. split; [exact Hk|].
  apply all_matches_sound in Hm. destruct Hm as (pre & rest & y & Hin & _ & ->).
  cbn [match_array m_index]. rewrite Hin, length_app. lia.
Qed.

Lemma split_go_app_newline (s x cur : jsstring) :
  split_go newline (s ++ 10%N :: x) 0 cur
  = split_go newline s 0 cur ++ split_go newline x 0 [].
Proof.
  unfold newline. revert cur. induction s as [|c s IH]; intros cur.
  - reflexivity.
  - cbn [app split_go starts_with length Nat.sub].
    destruct (N.eqb_spec 10 c) as [<-|Hc]; cbn [andb].
    + cbn [app]. now rewrite IH.
    + apply IH.
Qed.

(** The first piece of a split begins with the text up to the first line feed. *)
Lemma split_go_head (l rest cur : jsstring) :
  ~ In 10%N l ->
  exists more tl, split_go newline (l ++ rest) 0 cur = (rev cur ++ l ++ more) :: tl.
Proof.
  unfold newline. revert cur. induction l as [|c l IH]; intros cur Hl.
  - cbn [app]. revert cur. induction rest as [|c rest IHr]; intros cur.
    + exists [], []. cbn. now rewrite app_nil_r.
    + cbn [split_go starts_with length Nat.sub].
      destruct (N.eqb_spec 10 c) as [<-|Hc]; cbn [andb].
      * exists [], (split_go [10%N] rest 0 []). now rewrite app_nil_r.
      * destruct (IHr (c :: cur)) as (more & tl & E). exists (c :: more), tl.
        rewrite E. cbn [rev]. now rewrite <- app_assoc.
  - cbn [app split_go starts_with length Nat.sub].
    destruct (N.eqb_spec 10 c) as [<-|Hc]; [exfalso; apply Hl; now left|].
    cbn [andb]. destruct (IH (c :: cur)) as (more & tl & E).
    { intros K. apply Hl. now right. }
    exists more, tl. rewrite E. cbn [rev]. now rewrite <- !app_assoc.
Qed.

Lemma count_occ_absent (l : jsstring) : ~ In 10%N l -> count_occ N.eq_dec l 10%N = 0.
Proof. intros H. now apply count_occ_not_In. Qed.

(** The line of the text at the row of a position: it begins with the text
    that stands between the last line feed before the position and the
    position. *)
Lemma line_of_prefix (content : jsstring) (idx : nat) before line_text :
  firstn idx content = before ++ line_text ->
  (before = [] \/ exists b, before = b ++ newline) ->
  ~ In 10%N line_text ->
  exists more,
    nth_error (split content newline) (count_occ N.eq_dec (firstn idx content) 10%N)
    = Some (line_text ++ more).
Proof.
  intros Hpre Hends Hnl.
  assert (Hc : content = before ++ line_text ++ skipn idx content).
  { rewrite <- (firstn_skipn idx content) at 1. now rewrite Hpre, <- app_assoc. }
  rewrite Hpre, count_occ_app, (count_occ_absent line_text Hnl), Nat.add_0_r.
  unfold split. cbn [newline]. fold newline.
  destruct Hends as [->|(b & ->)].
  - cbn [app count_occ] in *. rewrite Hc.
    destruct (split_go_head line_text (skipn idx content) [] Hnl) as (more & tl & E).
    rewrite E. now exists more.
  - rewrite Hc, <- app_assoc. cbn [newline app].
    rewrite split_go_app_newline.
    destruct (split_go_newline b []) as (_ & _ & _ & _ & _ & Hlen & _).
    rewrite count_occ_app. cbn [count_occ newline].
    destruct (N.eq_dec 10 10) as [_|K]; [|congruence].
    rewrite nth_error_app2 by (rewrite Hlen; lia).
    replace (count_occ N.eq_dec b 10%N + 1 - length (split_go newline b 0 []))
      with 0 by (rewrite Hlen; lia).
    destruct (split_go_head line_text (skipn idx content) [] Hnl) as (more & tl & E).
    rewrite E. now exists more.
Qed.

Lemma function_line_inside word :
  forall arr i pos,
    function_line word arr i = Ok (Some pos) ->
    exists k line,
      nth_error arr k = Some line /\ row pos = i + k /\ col pos <= length line.
Proof.
  induction arr as [|line arr IH]; intros i pos H; cbn [function_line] in H;
    [discriminate|].
  destruct (negb (indexOf line FUNCTION_PART =? -1)%Z).
  - destruct (regexp _ _) as [regSingle|]; [|discriminate]. cbn [bind] in H.
    destruct (fst (exec regSingle line)) as [m|] eqn:E; [|discriminate].
    destruct (negb (Nat.eqb (m_index m) 0)); [|discriminate].
    injection H as <-. exists 0, line. cbn [nth_error row col].
    apply exec_bounds in E. repeat split; lia.
  - apply IH in H. destruct H as (k & l & Hk & Hr & Hc).
    exists (S k), l. cbn [nth_error]. repeat split; auto. lia.
Qed.

(** X6.  A position that [getRowCol] answers lies inside the text: its row
    is the index of a line of the text and its column is at most the length
    of that line. *)
Theorem X6_position_inside_text (content word : jsstring) (pos : RowCol) :
  getRowCol content word = Ok (Some pos) ->
  exists line,
    nth_error (split content newline) (row pos) = Some line
    /\ col pos <= length line.
Proof.
  unfold getRowCol.
  destruct (regexp (u "\b" ++ word ++ u "\s*=") (u "m")) as [reg|]; [|discriminate].
  cbn [bind]. destruct (fst (exec reg content)) as [res|] eqn:E.
  - rewrite slice_prefix. intros H. injection H as <-. cbn [row col].
    change (split (firstn (m_index res) content) newline)
      with (split_go newline (firstn (m_index res) content) 0 []).
    destruct (split_go_newline (firstn (m_index res) content) [])
      as (before & line_text & Happ & Hends & Hnl & Hlen & Hnth).
    cbn [rev app] in Happ. rewrite Hlen. cbn [Nat.sub]. rewrite Nat.sub_0_r, Hnth.
    destruct (line_of_prefix content (m_index res) before line_text Happ Hends)
      as (more & Hline); [now apply Hnl|].
    exists (line_text ++ more). split; [exact Hline|]. rewrite length_app. lia.
  - destruct (negb (indexOf content FUNCTION_PART =? -1)%Z); [|discriminate].
    intros H. apply function_line_inside in H. destruct H as (k & line & Hk & Hr & Hc).
    exists line. cbn [Nat.add] in Hr. rewrite Hr. now split.
Qed.

(** *** getStructCompletions never fails *)









(* ================================================================== *)
(** ** getCommands *)
(* ================================================================== *)

(** [String.prototype.endsWith(suffix)]. *)
Definition ends_with (s suffix : jsstring) : bool :=
  if (length s <? length suffix)%nat then false
  else str_eqb (skipn (length s - length suffix) s) suffix.

(** [v.slice(0, v.length - 2)], the name of a file without its last two code units. *)
Definition strip_extension (v : jsstring) : jsstring :=
  slice v 0 (Z.of_nat (length v) - 2).

(** What a call of [getCommands] comes to: its array, an exception of the
    kinds above, or the exception of [fs.readdirSync] for a directory. *)
Inductive commands :=
  | Commands (arr : list value)
  | Failed (f : failure)
  | ReadError (dir : jsstring).

Section Commands.

(** The functions of the modules [path] and [fs], which are not part of the
    program: [readdirSync] answers the entries of a directory, or [None]
    where it throws.  The file system is not changed while a call runs. *)
Variable dirname : jsstring -> jsstring.
Variable isAbsolute : jsstring -> bool.
Variable path_join : jsstring -> jsstring -> jsstring.
Variable readdirSync : jsstring -> option (list jsstring).

(** The callback of [addPaths.forEach]: the directory that is pushed. *)
Definition resolve (dirPath : jsstring) (v : value) : result jsstring :=
  s <- as_string v ;;
  Ok (if negb (isAbsolute s) then path_join dirPath s else s).

(** The names that one directory contributes. *)
Definition mFileNames (entries : list jsstring) : list value :=
  map (fun v => Str (strip_extension v)) (filter (fun v => ends_with v (u ".m")) entries).

(** [dirPaths.forEach(v => arr = arr.concat(...))]; [inr dir] when the
    listing of [dir] throws. *)
Fixpoint read_all (dirPaths : list jsstring) (arr : list value)
  : list value + jsstring :=
  match dirPaths with
  | [] => inl arr
  | v :: dirPaths' =>
      match readdirSync v with
      | Some entries => read_all dirPaths' (arr ++ mFileNames entries)
      | None => inr v
      end
  end.

Definition getCommands (fileName content : jsstring) : commands :=
  let dirPath := dirname fileName in
  match matchAddPath content with
  | Fail f => Failed f
  | Ok addPaths =>
      match mapM (resolve dirPath) addPaths with
      | Fail f => Failed f
      | Ok added =>
          match read_all (dirPath :: added) [] with
          | inr dir => ReadError dir
          | inl arr =>
              match getCurrentFileVariables content with
              | Fail f => Failed f
              | Ok quickSuggestions =>
                  Commands (fold_left (fun acc v => set_add acc v)
                                      (arr ++ quickSuggestions) [])
              end
          end
      end
  end.

Lemma read_all_ok dirPaths :
  (forall d, In d dirPaths -> readdirSync d <> None) ->
  forall arr,
    exists more,
      read_all dirPaths arr = inl (arr ++ more)
      /\ forall v,
           In v more
           <-> exists dir entries f,
                 In dir dirPaths /\ readdirSync dir = Some entries
                 /\ In f entries /\ ends_with f (u ".m") = true
                 /\ v = Str (strip_extension f).
Proof.
  induction dirPaths as [|d dirPaths IH]; intros Hread arr.
  - exists []. cbn. rewrite app_nil_r. split; [reflexivity|].
    intros v. split; [intros [] | intros (dir & _ & _ & [] & _)].
  - cbn [read_all]. destruct (readdirSync d) as [entries|] eqn:E;
      [|exfalso; apply (Hread d); [now left | exact E]].
    destruct (IH (fun x Hx => Hread x (or_intror Hx)) (arr ++ mFileNames entries))
      as (more & Hmore & Hiff).
    exists (mFileNames entries ++ more). rewrite Hmore, <- app_assoc.
    split; [reflexivity|]. intros v. rewrite in_app_iff, Hiff. split.
    + intros [H|(dir & en & f & Hd & Hr & Hf & He & ->)].
      * unfold mFileNames in H. apply in_map_iff in H. destruct H as (f & <- & Hf).
        apply filter_In in Hf. destruct Hf as (Hf & He).
        exists d, entries, f. repeat split; auto. now left.
      * exists dir, en, f. repeat split; auto. now right.
    + intros (dir & en & f & [<-|Hd] & Hr & Hf & He & ->).
      * left. rewrite E in Hr. injection Hr as <-. unfold mFileNames.
        apply in_map_iff. exists f. split; [reflexivity|]. apply filter_In. now split.
      * right. now exists dir, en, f.
Qed.

Lemma resolve_total dirPath content :
  exists addPaths added,
    matchAddPath content = Ok addPaths
    /\ mapM (resolve dirPath) addPaths = Ok added.
Proof.
  rewrite matchAddPath_eq. eexists.
  destruct (mapM_total (resolve dirPath) (fun _ => True)
              (flat_map (fun m => [item m 1; item m 1])
                        (all_matches addpath_regex content))) as (added & H & _).
  - intros v Hv. apply in_flat_map in Hv. destruct Hv as (m & Hm & Hv).
    destruct (all_matches_item addpath_regex content m 1 Hm) as (s & E);
      [vm_compute; tauto | cbn; lia |].
    rewrite E in Hv. destruct Hv as [<-|[<-|[]]]; unfold resolve; cbn [as_string bind];
      eauto.
  - exists added. split; [reflexivity | exact H].
Qed.

Lemma getCurrentFileVariables_total content :
  exists quickSuggestions, getCurrentFileVariables content = Ok quickSuggestions.
Proof.
  unfold getCurrentFileVariables. rewrite token_regex_eq. cbn [bind].
  rewrite exec_while_all by reflexivity. cbn [bind fst].
  rewrite filter_regex_eq. cbn [bind]. eauto.
Qed.

(** X8.  When every directory can be listed, [getCommands] answers an
    array without duplicates that holds exactly the identifiers of
    [getCurrentFileVariables] and, for the directory of the file and every
    directory of an [addpath] directive (relative ones joined to the
    directory of the file), the names of the entries that end in [.m],
    without these two code units. *)
Theorem X8_commands_listed (fileName content : jsstring) :
  (forall d, readdirSync d <> None) ->
  exists addPaths added quickSuggestions arr,
    matchAddPath content = Ok addPaths
    /\ mapM (resolve (dirname fileName)) addPaths = Ok added
    /\ getCurrentFileVariables content = Ok quickSuggestions
    /\ getCommands fileName content = Commands arr
    /\ NoDup arr
    /\ forall v,
         In v arr
         <-> In v quickSuggestions
             \/ exists dir entries f,
                  In dir (dirname fileName :: added)
                  /\ readdirSync dir = Some entries
                  /\ In f entries /\ ends_with f (u ".m") = true
                  /\ v = Str (strip_extension f).
Proof.
  intros Hread.
  destruct (resolve_total (dirname fileName) content) as (addPaths & added & Hp & Ha).
  destruct (getCurrentFileVariables_total content) as (quick & Hq).
  destruct (read_all_ok (dirname fileName :: added) (fun d _ => Hread d) [])
    as (more & Hmore & Hiff).
  exists addPaths, added, quick. eexists.
  split; [exact Hp|]. split; [exact Ha|]. split; [exact Hq|].
  unfold getCommands. rewrite Hp, Ha, Hmore, Hq. cbn [app].
  split; [reflexivity|]. split.
  - apply fold_set_add_NoDup. constructor.
  - intros v. rewrite fold_set_add_In, in_app_iff, Hiff. cbn [In]. tauto.
Qed.

Lemma read_all_error before dir after :
  (forall d, In d before -> readdirSync d <> None) ->
  readdirSync dir = None ->
  forall arr, read_all (before ++ dir :: after) arr = inr dir.
Proof.
  intros Hbefore Hdir. induction before as [|d before IH]; intros arr;
    cbn [app read_all].
  - now rewrite Hdir.
  - destruct (readdirSync d) eqn:E;
      [|exfalso; apply (Hbefore d); [now left | exact E]].
    apply IH. intros x Hx. apply Hbefore. now right.
Qed.

(** X9.  When the directory of the file cannot be listed, [getCommands]
    throws the error of [readdirSync] for it, whatever the text; in
    general the call throws the error of the first directory, in the order
    file directory and then directives, that cannot be listed. *)
Theorem X9_commands_read_error (fileName content : jsstring) :
  (readdirSync (dirname fileName) = None ->
   getCommands fileName content = ReadError (dirname fileName))
  /\ (forall addPaths added before dir after,
         matchAddPath content = Ok addPaths ->
         mapM (resolve (dirname fileName)) addPaths = Ok added ->
         dirname fileName :: added = before ++ dir :: after ->
         (forall d, In d before -> readdirSync d <> None) ->
         readdirSync dir = None ->
         getCommands fileName content = ReadError dir).
Proof.
  split.
  - intros H.
    destruct (resolve_total (dirname fileName) content) as (addPaths & added & Hp & Ha).
    unfold getCommands. rewrite Hp, Ha. cbn [read_all]. now rewrite H.
  - intros addPaths added before dir after Hp Ha Hsplit Hbefore Hdir.
    unfold getCommands. now rewrite Hp, Ha, Hsplit, read_all_error.
Qed.

End Commands.

(** *** The further properties on inputs *)


Lemma X4_occurrences_of_identifier_witness :
  exists ranges,
    getRangesByName occurrence_text (u "x") = Ok ranges
    /\ forall row column,
         In (MkRange row column) ranges
         <-> exists line pre post,
               nth_error (split occurrence_text newline) row = Some line
               /\ line = pre ++ u "x" ++ post /\ length pre = column
               /\ word_at_end pre = false /\ word_at_head post = false.
Proof.
  apply (X4_occurrences_of_identifier occurrence_text (u "x")).
  - vm_compute. discriminate.
  - vm_compute. repeat constructor.
Defined.

Lemma X5_ranges_inside_text_witness :
  getRangesByName occurrence_text (u "x")
  = Ok [MkRange 0 0; MkRange 1 4; MkRange 1 8]
  /\ forall r,
       In r [MkRange 0 0; MkRange 1 4; MkRange 1 8] ->
       exists line,
         nth_error (split occurrence_text newline) (r_row r) = Some line
         /\ r_column r <= length line.
Proof.
  split; [vm_compute; reflexivity|].
  apply (X5_ranges_inside_text occurrence_text (u "x")). vm_compute. reflexivity.
Defined.

Lemma X6_position_inside_text_witness :
  exists line,
    nth_error (split declaration_text newline) 0 = Some line /\ 13 <= length line.
Proof.
  apply (X6_position_inside_text declaration_text (u "f") (MkRowCol 0 13)).
  vm_compute. reflexivity.
Defined.

(** A small file system: every directory holds [foo.m] and [notes.txt]. *)
Definition toy_dirname (fileName : jsstring) : jsstring := u "/w".
Definition toy_isAbsolute (s : jsstring) : bool := starts_with (u "/") s.
Definition toy_join (a b : jsstring) : jsstring := a ++ u "/" ++ b.
Definition toy_readdirSync (dir : jsstring) : option (list jsstring) :=
  Some [u "foo.m"; u "notes.txt"].
Definition toy_unreadable (dir : jsstring) : option (list jsstring) := None.

Definition toy_text : jsstring := u "addpath('lib')" ++ newline ++ u "xy = foo(1)".

Lemma X8_commands_listed_witness :
  exists addPaths added quickSuggestions arr,
    matchAddPath toy_text = Ok addPaths
    /\ mapM (resolve toy_isAbsolute toy_join (toy_dirname (u "/w/main.m"))) addPaths
       = Ok added
    /\ getCurrentFileVariables toy_text = Ok quickSuggestions
    /\ getCommands toy_dirname toy_isAbsolute toy_join toy_readdirSync
                   (u "/w/main.m") toy_text
       = Commands arr
    /\ NoDup arr
    /\ forall v,
         In v arr
         <-> In v quickSuggestions
             \/ exists dir entries f,
                  In dir (toy_dirname (u "/w/main.m") :: added)
                  /\ toy_readdirSync dir = Some entries
                  /\ In f entries /\ ends_with f (u ".m") = true
                  /\ v = Str (strip_extension f).
Proof.
  apply (X8_commands_listed toy_dirname toy_isAbsolute toy_join toy_readdirSync
           (u "/w/main.m") toy_text).
  discriminate.
Defined.

Lemma X9_commands_read_error_witness :
  getCommands toy_dirname toy_isAbsolute toy_join toy_unreadable
              (u "/w/main.m") (u "xy = 1")
  = ReadError (u "/w").
Proof.
  apply (proj1 (X9_commands_read_error toy_dirname toy_isAbsolute toy_join toy_unreadable
                  (u "/w/main.m") (u "xy = 1"))).
  reflexivity.
Defined.

(* ================================================================== *)
(** ** Where getRowCol finds an identifier *)
(* ================================================================== *)

(** The term of [\b<w>\s*=]. *)
Definition assignment_term (w : jsstring) : regex :=
  Seq WordBoundary
      (literal w (Seq (Quant (Class false [CSpace]) 0 None true) (Seq (Char 61) Empty))).

Lemma compile_assignment w :
  Forall (fun c => is_word_char c = true) w ->
  compile (u "\b" ++ w ++ u "\s*=") = Some (assignment_term w, 0).
Proof.
  intros Hw. unfold compile.
  change (u "\b" ++ w ++ u "\s*=") with (92%N :: 98%N :: w ++ u "\s*=").
  rewrite lex_escape. change (atom_escape 98) with (Some (TAtom WordBoundary false)).
  cbn iota. rewrite lex_word by exact Hw.
  change (lex None (u "\s*="))
    with (Some [TAtom (Class false [CSpace]) true; TQuant 0 None true;
                TAtom (Char 61) true]).
  cbn [option_map cons_tok parse push_term f_kind f_alts f_seq].
  rewrite parse_plain.
  cbn [parse push_term f_kind f_alts f_seq close_frame rev app alts_of].
  unfold seq_of, assignment_term. cbn [fold_left fst].
  now rewrite fold_left_app, fold_left_literal.
Qed.

Definition assignment_regex (w : jsstring) : RegExp :=
  MkRegExp (assignment_term w) 0 false true 0.

Lemma assignment_regex_eq w :
  Forall (fun c => is_word_char c = true) w ->
  regexp (u "\b" ++ w ++ u "\s*=") (u "m") = Ok (assignment_regex w).
Proof.
  intros Hw. unfold regexp, new_RegExp. now rewrite compile_assignment by exact Hw.
Qed.

Definition single_regex (w : jsstring) : RegExp :=
  MkRegExp (word_regex w) 0 false false 0.

Lemma single_regex_eq w :
  Forall (fun c => is_word_char c = true) w ->
  regexp (u "\b" ++ w ++ u "\b") [] = Ok (single_regex w).
Proof.
  intros Hw. unfold regexp, new_RegExp. now rewrite compile_word by exact Hw.
Qed.

(** The text [ws] of white space followed by [=]. *)
Definition assigned (rest : jsstring) : Prop :=
  exists ws post,
    rest = ws ++ 61%N :: post /\ Forall (fun a => is_white_space a = true) ws.

Lemma space_class_eq a : class_mem false [CSpace] a = is_white_space a.
Proof. unfold class_mem. cbn. now rewrite orb_false_r. Qed.

(** [\b<w>\s*=] matches where [w] stands with no word character before it,
    followed by white space, if any, and [=]. *)
Lemma match_at_assignment re w x :
  re_term re = assignment_term w ->
  w <> [] -> Forall (fun c => is_word_char c = true) w ->
  (exists y, match_at re x = Some y)
  <-> word_before x = false
      /\ exists rest, ms_rest x = w ++ rest /\ assigned rest.
Proof.
  intros Hterm Hne Hw. unfold match_at. rewrite Hterm. cbn [assignment_term matcher].
  rewrite matcher_literal. cbn [matcher groups].
  destruct (starts_with w (ms_rest x)) eqn:E.
  - apply starts_with_spec in E. destruct E as (rest & E).
    assert (Hafter : word_after x = true).
    { unfold word_after. rewrite E.
      destruct w as [|a w]; [congruence|]. inversion Hw; subst. assumption. }
    unfold at_word_boundary. rewrite Hafter. rewrite E, skipn_length_app.
    rewrite repeat_class by (cbn [jump ms_rest]; lia).
    cbn [jump ms_rest].
    destruct (word_before x); cbn [xorb].
    + split; [intros (y & H); discriminate | intros (H & _); discriminate].
    + split.
      * intros (y & H). split; [reflexivity|]. exists rest. split; [reflexivity|].
        apply greedy_class_inv in H; [|reflexivity].
        destruct H as (run & tail & -> & Hall & _ & Hc).
        apply match_char_inv in Hc. destruct Hc as (a & t & Hr & Ha & _).
        cbn [jump ms_rest] in Hr. subst tail. apply N.eqb_eq in Ha. subst a.
        exists run, t. split; [reflexivity|].
        eapply Forall_impl; [|exact Hall]. intros a. cbn beta. now rewrite space_class_eq.
      * intros (_ & rest' & Hr & ws & post & -> & Hws).
        apply app_inv_head in Hr. subst rest.
        apply (greedy_class_exists _ _ ws _ 0 (61%N :: post)
                 (advance (jump (jump x w (ws ++ 61%N :: post)) ws (61%N :: post)) 61 post)).
        -- eapply Forall_impl; [|exact Hws]. intros a. cbn beta. now rewrite space_class_eq.
        -- lia.
        -- reflexivity.
        -- reflexivity.
  - split; [|intros (_ & rest & Hr & _)].
    + destruct (at_word_boundary x); intros (y & H); discriminate.
    + assert (K : starts_with w (ms_rest x) = true)
        by (apply starts_with_spec; now exists rest).
      congruence.
Qed.

(** [search] answers the first position at which the pattern matches. *)
Lemma search_first re input :
  forall rest pre m,
    search re input (last_opt pre) rest (length pre) = Some m ->
    exists m1 m2 y,
      rest = m1 ++ m2
      /\ match_at re (state_between (pre ++ m1) m2) = Some y
      /\ m_index m = length (pre ++ m1)
      /\ forall a b,
           m1 = a ++ b -> b <> [] ->
           match_at re (state_between (pre ++ a) (b ++ m2)) = None.
Proof.
  induction rest as [|c rest IH]; intros pre m H; cbn [search] in H.
  - fold (state_between pre (@nil N)) in H.
    destruct (match_at re (state_between pre [])) as [y|] eqn:E; [|discriminate].
    injection H as <-. exists [], [], y. rewrite (app_nil_r pre).
    repeat split; auto. intros a b K Hb. destruct a; destruct b; try discriminate.
    congruence.
  - fold (state_between pre (c :: rest)) in H.
    destruct (match_at re (state_between pre (c :: rest))) as [y|] eqn:E.
    + injection H as <-. exists [], (c :: rest), y. rewrite (app_nil_r pre).
      repeat split; auto. intros a b K Hb. destruct a; destruct b; try discriminate.
      congruence.
    + specialize (IH (pre ++ [c]) m).
      rewrite last_opt_snoc, length_app, Nat.add_1_r in IH.
      destruct (IH H) as (m1 & m2 & y & -> & Hy & Hi & Hnone).
      exists (c :: m1), m2, y. rewrite <- app_assoc in Hy, Hi.
      repeat split; auto.
      intros a b K Hb. destruct a as [|c' a].
      * cbn [app] in K. subst b. rewrite (app_nil_r pre). exact E.
      * injection K as <- ->. specialize (Hnone a b eq_refl Hb).
        now rewrite <- app_assoc in Hnone.
Qed.

(** [exec] of a RegExp without the flag [g]: the first position of the
    input at which the pattern matches. *)
Lemma exec_first re input m :
  re_global re = false ->
  fst (exec re input) = Some m ->
  exists pre rest y,
    input = pre ++ rest
    /\ match_at re (state_between pre rest) = Some y
    /\ m_index m = length pre
    /\ forall pre' rest',
         input = pre' ++ rest' -> length pre' < length pre ->
         match_at re (state_between pre' rest') = None.
Proof.
  intros Hg. unfold exec. rewrite Hg. cbn [Nat.ltb Nat.leb].
  unfold search_from. cbn [firstn skipn map last].
  destruct (search re input None input 0) as [m'|] eqn:E; [|discriminate].
  cbn [fst]. intros K. injection K as ->.
  apply (search_first re input input [] m) in E.
  destruct E as (m1 & m2 & y & -> & Hy & Hi & Hnone). cbn [app] in *.
  exists m1, m2, y. repeat split; auto.
  intros pre' rest' K Hlen.
  apply app_eq_app in K. destruct K as (l & [(-> & K)|(-> & K)]).
  - destruct l as [|c l]; [rewrite app_nil_r in Hlen; lia|].
    subst rest'. apply (Hnone pre' (c :: l) eq_refl). discriminate.
  - rewrite length_app in Hlen. lia.
Qed.

Lemma exec_none re input :
  re_global re = false ->
  fst (exec re input) = None
  <-> forall pre rest, input = pre ++ rest -> match_at re (state_between pre rest) = None.
Proof.
  intros Hg. unfold exec. rewrite Hg. cbn [Nat.ltb Nat.leb].
  unfold search_from. cbn [firstn skipn map last].
  pose proof (search_found re input input []) as H.
  cbn [last_opt map last length app] in H.
  destruct (search re input None input 0) as [m|]; cbn [fst]; split.
  - discriminate.
  - intros K. exfalso. destruct H as (H & _).
    destruct H as (m1 & m2 & y & E & Hy); [discriminate|].
    rewrite (K m1 m2 E) in Hy. discriminate.
  - intros _ pre rest E.
    destruct (match_at re (state_between pre rest)) as [y|] eqn:Ey; [|reflexivity].
    exfalso. destruct H as (_ & H). apply H; [|reflexivity]. now exists pre, rest, y.
  - reflexivity.
Qed.

Lemma word_char_not_newline (w : jsstring) :
  Forall (fun c => is_word_char c = true) w -> ~ In 10%N w.
Proof.
  intros Hw K. rewrite Forall_forall in Hw. specialize (Hw _ K). discriminate.
Qed.

Lemma word_at_end_line (before line_text : jsstring) :
  (before = [] \/ exists b, before = b ++ newline) ->
  word_at_end (before ++ line_text) = word_at_end line_text.
Proof.
  intros Hends. unfold word_at_end.
  destruct line_text as [|a l] using rev_ind.
  - rewrite app_nil_r. destruct Hends as [->|(b & ->)]; [reflexivity|].
    unfold newline. now rewrite last_opt_snoc.
  - now rewrite app_assoc, !last_opt_snoc.
Qed.

(** The line on which a word stands: the row of the word is the number of
    line feeds before it and its column the length of the text between the
    last of them and the word. *)
Lemma word_on_line (content pre w rest : jsstring) :
  content = pre ++ w ++ rest -> ~ In 10%N w ->
  exists before line_text more,
    pre = before ++ line_text
    /\ (before = [] \/ exists b, before = b ++ newline)
    /\ ~ In 10%N line_text
    /\ length (split pre newline) = S (count_occ N.eq_dec pre 10%N)
    /\ nth (count_occ N.eq_dec pre 10%N) (split pre newline) [] = line_text
    /\ nth_error (split content newline) (count_occ N.eq_dec pre 10%N)
       = Some (line_text ++ w ++ more)
    /\ word_at_end line_text = word_at_end pre.
Proof.
  intros Hc Hw.
  destruct (split_go_newline pre []) as (before & line_text & Happ & Hends & Hnl & Hlen & Hnth).
  cbn [rev app] in Happ.
  assert (Hline : ~ In 10%N line_text) by (apply Hnl; intros []).
  destruct (line_of_prefix content (length (pre ++ w)) before (line_text ++ w))
    as (more & Hmore).
  - rewrite Hc, app_assoc, firstn_length_app, Happ. now rewrite app_assoc.
  - exact Hends.
  - intros K. apply in_app_or in K. tauto.
  - exists before, line_text, more.
    rewrite Hc, app_assoc, firstn_length_app, count_occ_app in Hmore.
    rewrite (count_occ_absent w Hw), Nat.add_0_r, <- app_assoc in Hmore.
    rewrite <- app_assoc in Hmore.
    repeat split; auto.
    + now rewrite Hc.
    + rewrite Happ. symmetry. now apply word_at_end_line.
Qed.

(** The text that case 1 of [getRowCol] splits for a match that starts
    after [pre]. *)
Lemma slice_head (content pre rest : jsstring) :
  content = pre ++ rest -> slice content 0 (Z.of_nat (length pre)) = pre.
Proof. intros ->. now rewrite slice_prefix, firstn_length_app. Qed.

(** Case 2 of [getRowCol] for an identifier: an answered position holds the
    word, which begins there. *)
Lemma function_line_word (w : jsstring) :
  w <> [] -> Forall (fun c => is_word_char c = true) w ->
  forall arr i,
    exists answer,
      function_line w arr i = Ok answer
      /\ forall pos,
           answer = Some pos ->
           exists k line pre post,
             nth_error arr k = Some line /\ row pos = i + k
             /\ line = pre ++ w ++ post /\ length pre = col pos
             /\ word_at_end pre = false.
Proof.
  intros Hne Hw. induction arr as [|line arr IH]; intros i; cbn [function_line].
  - exists None. split; [reflexivity | discriminate].
  - destruct (negb (indexOf line FUNCTION_PART =? -1)%Z).
    + rewrite single_regex_eq by exact Hw. cbn [bind].
      destruct (fst (exec (single_regex w) line)) as [m|] eqn:E.
      * destruct (negb (Nat.eqb (m_index m) 0)).
        -- eexists. split; [reflexivity|]. intros pos K. injection K as <-.
           apply exec_first in E; [|reflexivity].
           destruct E as (pre & rest & y & Hin & Hy & Hi & _).
           rewrite (match_at_word (single_regex w) w) in Hy by auto.
           destruct (negb (word_before (state_between pre rest)) && _ && _) eqn:B;
             [|discriminate].
           apply andb_true_iff in B. destruct B as (B & _).
           apply andb_true_iff in B. destruct B as (B1 & B2).
           cbn [state_between ms_rest] in B2. apply starts_with_spec in B2.
           destruct B2 as (post & ->). rewrite word_before_between in B1.
           apply negb_true_iff in B1.
           exists 0, line, pre, post. cbn [nth_error row col].
           repeat split; auto.
        -- exists None. split; [reflexivity | discriminate].
      * exists None. split; [reflexivity | discriminate].
    + destruct (IH (S i)) as (answer & Ha & Hpos). exists answer. split; [exact Ha|].
      intros pos K. destruct (Hpos pos K) as (k & l & pre & post & Hk & Hr & H).
      exists (S k), l, pre, post. cbn [nth_error]. split; [exact Hk|].
      split; [lia | exact H].
Qed.

(** X10.  For a word made of word characters [getRowCol] answers, and a
    position it answers holds the word: the line at that row has the word
    at that column, with no word character right before it. *)
Theorem X10_word_at_answered_position (content word : jsstring) :
  word <> [] -> Forall (fun c => is_word_char c = true) word ->
  exists answer,
    getRowCol content word = Ok answer
    /\ forall pos,
         answer = Some pos ->
         exists line pre post,
           nth_error (split content newline) (row pos) = Some line
           /\ line = pre ++ word ++ post /\ length pre = col pos
           /\ word_at_end pre = false.
Proof.
  intros Hne Hw. unfold getRowCol. rewrite assignment_regex_eq by exact Hw.
  cbn [bind]. destruct (fst (exec (assignment_regex word) content)) as [res|] eqn:E.
  - eexists. split; [reflexivity|]. intros pos K. injection K as <-.
    apply exec_first in E; [|reflexivity].
    destruct E as (pre & rest & y & Hin & Hy & Hi & _). rewrite Hi.
    destruct (proj1 (match_at_assignment (assignment_regex word) word _ eq_refl Hne Hw)
                    (ex_intro _ y Hy)) as (Hb & rest' & Hr & _).
    cbn [state_between ms_rest] in Hr. subst rest. rewrite word_before_between in Hb.
    rewrite (slice_head content pre (word ++ rest') Hin). cbn zeta.
    change (split_go newline pre 0 []) with (split pre newline).
    destruct (word_on_line content pre word rest' Hin (word_char_not_newline word Hw))
      as (before & line_text & more & _ & _ & _ & Hlen & Hnth & Hline & Hend).
    rewrite Hlen. cbn [Nat.sub]. rewrite Nat.sub_0_r, Hnth. cbn [row col].
    exists (line_text ++ word ++ more), line_text, more.
    repeat split; auto. congruence.
  - destruct (negb (indexOf content FUNCTION_PART =? -1)%Z).
    + destruct (function_line_word word Hne Hw (split content newline) 0)
        as (answer & Ha & Hpos).
      exists answer. split; [exact Ha|]. intros pos K.
      destruct (Hpos pos K) as (k & line & pre & post & Hk & Hr & H).
      exists line, pre, post. cbn [Nat.add] in Hr. rewrite Hr. now split.
    + exists None. split; [reflexivity | discriminate].
Qed.

(** X11.  For a word made of word characters, when the text has the word
    at a word start followed by white space, if any, and [=], [getRowCol]
    answers the position of the first such place: as the row the number of
    line feeds before it, as the column the length of the text between the
    last of these line feeds and the word. *)
Theorem X11_first_assignment_answered (content word pre rest : jsstring) :
  word <> [] -> Forall (fun c => is_word_char c = true) word ->
  content = pre ++ word ++ rest -> assigned rest -> word_at_end pre = false ->
  (forall pre' rest',
      content = pre' ++ word ++ rest' -> assigned rest' -> word_at_end pre' = false ->
      length pre <= length pre') ->
  exists before line_text,
    pre = before ++ line_text
    /\ (before = [] \/ exists b, before = b ++ newline)
    /\ ~ In 10%N line_text
    /\ getRowCol content word
       = Ok (Some (MkRowCol (count_occ N.eq_dec pre 10%N) (length line_text))).
Proof.
  intros Hne Hw Hin Hassigned Hpre Hfirst.
  pose proof (match_at_assignment (assignment_regex word) word) as Hmatch.
  assert (Hhere : exists y, match_at (assignment_regex word)
                                     (state_between pre (word ++ rest)) = Some y).
  { apply Hmatch; auto. rewrite word_before_between. split; [exact Hpre|].
    now exists rest. }
  destruct Hhere as (y & Hy).
  unfold getRowCol. rewrite assignment_regex_eq by exact Hw. cbn [bind].
  destruct (fst (exec (assignment_regex word) content)) as [res|] eqn:E.
  - apply exec_first in E; [|reflexivity].
    destruct E as (pre0 & rest0 & y0 & Hin0 & Hy0 & Hi & Hnone). rewrite Hi.
    destruct (proj1 (Hmatch _ eq_refl Hne Hw) (ex_intro _ y0 Hy0)) as (Hb & rest' & Hr & Ha).
    cbn [state_between ms_rest] in Hr. subst rest0. rewrite word_before_between in Hb.
    assert (Hlen : length pre0 = length pre).
    { pose proof (Hfirst pre0 rest' Hin0 Ha Hb).
      destruct (Nat.eq_dec (length pre0) (length pre)) as [K|K]; [exact K|].
      rewrite (Hnone pre (word ++ rest) Hin) in Hy by lia. discriminate. }
    assert (pre0 = pre) as ->.
    { rewrite Hin in Hin0. now apply app_same_length in Hin0. }
    rewrite (slice_head content pre (word ++ rest') Hin0). cbn zeta.
    change (split_go newline pre 0 []) with (split pre newline).
    destruct (word_on_line content pre word rest Hin (word_char_not_newline word Hw))
      as (before & line_text & more & H1 & H2 & H3 & Hrows & Hnth & _).
    rewrite Hrows. cbn [Nat.sub]. rewrite Nat.sub_0_r, Hnth.
    exists before, line_text. repeat split; auto.
  - rewrite (proj1 (exec_none (assignment_regex word) content eq_refl) E
                    pre (word ++ rest) Hin) in Hy.
    discriminate.
Qed.

(** X12.  For a word made of word characters, when the text has no place
    where the word begins and white space, if any, and [=] follow it, and
    the text does not hold [function ], [getRowCol] answers no position. *)
Theorem X12_nothing_to_find (content word : jsstring) :
  word <> [] -> Forall (fun c => is_word_char c = true) word ->
  (forall pre rest,
      content = pre ++ word ++ rest -> assigned rest -> word_at_end pre = true) ->
  ~ occurs_in FUNCTION_PART content ->
  getRowCol content word = Ok None.
Proof.
  intros Hne Hw Hnone Hmark.
  unfold getRowCol. rewrite assignment_regex_eq by exact Hw. cbn [bind].
  destruct (fst (exec (assignment_regex word) content)) as [res|] eqn:E.
  - exfalso. apply exec_first in E; [|reflexivity].
    destruct E as (pre & rest & y & Hin & Hy & _).
    destruct (proj1 (match_at_assignment (assignment_regex word) word _ eq_refl Hne Hw)
                    (ex_intro _ y Hy)) as (Hb & rest' & Hr & Ha).
    cbn [state_between ms_rest] in Hr. subst rest. rewrite word_before_between in Hb.
    rewrite (Hnone pre rest' Hin Ha) in Hb. discriminate.
  - apply indexOf_absent in Hmark. now rewrite Hmark.
Qed.

Lemma X10_word_at_answered_position_witness :
  exists answer,
    getRowCol assignment_text (u "b") = Ok answer
    /\ forall pos,
         answer = Some pos ->
         exists line pre post,
           nth_error (split assignment_text newline) (row pos) = Some line
           /\ line = pre ++ u "b" ++ post /\ length pre = col pos
           /\ word_at_end pre = false.
Proof.
  apply (X10_word_at_answered_position assignment_text (u "b")).
  - discriminate.
  - vm_compute. repeat constructor.
Defined.

Lemma X11_first_assignment_answered_witness :
  exists before line_text,
    u "a = 1;" ++ newline ++ u "  " = before ++ line_text
    /\ (before = [] \/ exists b, before = b ++ newline)
    /\ ~ In 10%N line_text
    /\ getRowCol assignment_text (u "b")
       = Ok (Some (MkRowCol (count_occ N.eq_dec (u "a = 1;" ++ newline ++ u "  ") 10%N)
                            (length line_text))).
Proof.
  apply (X11_first_assignment_answered assignment_text (u "b")
           (u "a = 1;" ++ newline ++ u "  ") (u " = 2; y = x*2;")).
  - discriminate.
  - vm_compute. repeat constructor.
  - vm_compute. reflexivity.
  - exists (u " "), (u " 2; y = x*2;"). split; [reflexivity|].
    vm_compute. repeat constructor.
  - reflexivity.
  - intros pre' rest' H _ _.
    do 9 (destruct pre' as [|? pre']; [exfalso; vm_compute in H; discriminate H|]).
    cbn [length app newline u]. vm_compute. lia.
Defined.

Lemma X12_nothing_to_find_witness : getRowCol (u "disp(x)") (u "x") = Ok None.
Proof.
  apply (X12_nothing_to_find (u "disp(x)") (u "x")).
  - discriminate.
  - vm_compute. repeat constructor.
  - intros pre rest H (ws & post & -> & _). exfalso.
    assert (K : In 61%N (u "disp(x)")).
    { rewrite H. apply in_or_app. right. apply in_or_app. right.
      apply in_or_app. right. now left. }
    vm_compute in K. intuition discriminate.
  - apply indexOf_absent. reflexivity.
Defined.

(* ================================================================== *)
(** ** The call sites of getFunctionCall *)
(* ================================================================== *)

(** The text [rest] begins with [[<r>]<ws1>=<ws2><n>(<p>)]: [r] is not
    empty and [r] and [p] hold no line terminator, [n] is not empty and
    holds no white space, and [ws1] and [ws2] are white space. *)
Definition call_shape (rest r n p : jsstring) : Prop :=
  exists ws1 ws2 post,
    rest = 91%N :: r ++ 93%N :: ws1 ++ 61%N :: ws2 ++ n ++ 40%N :: p ++ 41%N :: post
    /\ r <> [] /\ Forall (fun a => is_line_terminator a = false) r
    /\ Forall (fun a => is_white_space a = true) ws1
    /\ Forall (fun a => is_white_space a = true) ws2
    /\ n <> [] /\ Forall (fun a => is_white_space a = false) n
    /\ Forall (fun a => is_line_terminator a = false) p.

Lemma call_match_inv x y :
  ms_caps x = [] ->
  match_at call_regex x = Some y ->
  exists r ws1 ws2 n p post,
    ms_rest x = 91%N :: r ++ 93%N :: ws1 ++ 61%N :: ws2 ++ n ++ 40%N :: p ++ 41%N :: post
    /\ r <> [] /\ Forall (fun a => is_line_terminator a = false) r
    /\ Forall (fun a => is_white_space a = true) ws1
    /\ Forall (fun a => is_white_space a = true) ws2
    /\ n <> [] /\ Forall (fun a => is_white_space a = false) n
    /\ Forall (fun a => is_line_terminator a = false) p
    /\ ms_caps y
       = [(3, (ms_end x + length (91%N :: r ++ 93%N :: ws1 ++ 61%N :: ws2 ++ n ++ [40%N]),
               ms_end x + length (91%N :: r ++ 93%N :: ws1 ++ 61%N :: ws2 ++ n ++ [40%N])
               + length p));
          (2, (ms_end x + length (91%N :: r ++ 93%N :: ws1 ++ 61%N :: ws2),
               ms_end x + length (91%N :: r ++ 93%N :: ws1 ++ 61%N :: ws2) + length n));
          (1, (ms_end x + 1, ms_end x + 1 + length r))].
Proof.
  intros Hcaps H. unfold match_at in H.
  cbn [call_regex re_term re_multiline matcher] in H.
  apply match_char_inv in H. destruct H as (c0 & t0 & Hrest & Hc0 & H).
  apply N.eqb_eq in Hc0. subst c0.
  rewrite repeat_class in H by (cbn; lia).
  apply greedy_class_inv in H; [|reflexivity].
  cbn [groups advance ms_rest] in H. destruct H as (r & t1 & Ht0 & Hr & Hrmin & H).
  apply match_char_inv in H. destruct H as (c1 & t2 & Ht1 & Hc1 & H).
  apply N.eqb_eq in Hc1. subst c1. cbn [set_capture jump ms_rest] in Ht1.
  rewrite repeat_class in H by (cbn; lia).
  apply greedy_class_inv in H; [|reflexivity].
  cbn [groups advance ms_rest] in H. destruct H as (ws1 & t3 & Ht2 & Hws1 & _ & H).
  apply match_char_inv in H. destruct H as (c2 & t4 & Ht3 & Hc2 & H).
  apply N.eqb_eq in Hc2. subst c2. cbn [jump ms_rest] in Ht3.
  rewrite repeat_class in H by (cbn; lia).
  apply greedy_class_inv in H; [|reflexivity].
  cbn [groups advance ms_rest] in H. destruct H as (ws2 & t5 & Ht4 & Hws2 & _ & H).
  rewrite repeat_class in H by (cbn; lia).
  apply greedy_class_inv in H; [|reflexivity].
  cbn [groups jump ms_rest] in H. destruct H as (n & t6 & Ht5 & Hn & Hnmin & H).
  apply match_char_inv in H. destruct H as (c3 & t7 & Ht6 & Hc3 & H).
  apply N.eqb_eq in Hc3. subst c3. cbn [set_capture jump ms_rest] in Ht6.
  rewrite repeat_class in H by (cbn; lia).
  apply greedy_class_inv in H; [|reflexivity].
  cbn [groups advance ms_rest] in H. destruct H as (p & t8 & Ht7 & Hp & _ & H).
  apply match_char_inv in H. destruct H as (c4 & t9 & Ht8 & Hc4 & H).
  apply N.eqb_eq in Hc4. subst c4. cbn [set_capture jump ms_rest] in Ht8.
  injection H as <-.
  exists r, ws1, ws2, n, p, t9.
  assert (Hdot : forall l, Forall (fun a => negb (is_line_terminator a) = true) l ->
                           Forall (fun a => is_line_terminator a = false) l).
  { intros l. apply Forall_impl. intros a. apply negb_true_iff. }
  assert (Hspace : forall l, Forall (fun a => class_mem false [CSpace] a = true) l ->
                             Forall (fun a => is_white_space a = true) l).
  { intros l. apply Forall_impl. intros a. cbn beta. now rewrite space_class_eq. }
  split; [now rewrite Hrest, Ht0, Ht1, Ht2, Ht3, Ht4, Ht5, Ht6, Ht7, Ht8|].
  split; [destruct r; [cbn in Hrmin; lia | discriminate]|].
  split; [now apply Hdot|]. split; [now apply Hspace|]. split; [now apply Hspace|].
  split; [destruct n; [cbn in Hnmin; lia | discriminate]|].
  split.
  { eapply Forall_impl; [|exact Hn]. intros a. cbn beta.
    rewrite not_space_class_eq. apply negb_true_iff. }
  split; [now apply Hdot|].
  cbn. rewrite Hcaps. cbn.
  repeat first [rewrite length_app | progress cbn [length]].
  repeat f_equal; lia.
Qed.

(** X13.  Every call that [getFunctionCall] answers stands in the text:
    the text holds [[<r>]<ws1>=<ws2><n>(<p>)] where [r] is not empty, [r]
    and [p] lie on one line, [n] is not empty and holds no white space and
    [ws1] and [ws2] are white space; the name of the call is [n], its
    returns are the pieces of [r] and its parameters the pieces of [p],
    white space removed and split at the commas. *)
Theorem X13_calls_stand_in_text (content : jsstring) (calls : list FunctionCall) :
  getFunctionCall content = Ok calls ->
  forall call,
    In call calls ->
    exists pre rest r n p,
      content = pre ++ rest
      /\ call_shape rest r n p
      /\ fc_name call = Str n
      /\ fc_returns call = split (remove_white_space r) (u ",")
      /\ fc_params call = split (remove_white_space p) (u ",").
Proof.
  unfold getFunctionCall. rewrite call_regex_eq. cbn [bind].
  rewrite matchAll_all by reflexivity. cbn [bind].
  destruct (mapM _ (all_matches call_regex content)) as [res|] eqn:Eres; [|discriminate].
  cbn [bind app]. intros H. injection H as <-. intros call Hcall.
  apply mapM_Forall2 in Eres.
  destruct (Forall2_In_r _ _ _ _ Eres Hcall) as (m & Hm & Hr).
  apply all_matches_sound in Hm. destruct Hm as (pre & rest & y & Hin & Hy & ->).
  apply call_match_inv in Hy; [|reflexivity].
  destruct Hy as (r & ws1 & ws2 & n & p & post & Hrest & H1 & H2 & H3 & H4 & H5 & H6
                  & H7 & Hcaps).
  cbn [state_between ms_rest ms_end] in Hrest, Hcaps.
  assert (E1 : item (match_array call_regex content (length pre) y) 1 = Str r).
  { unfold item. cbn [match_array m_items nth call_regex re_ngroups seq map].
    rewrite Hcaps. cbn [capture_text find fst Nat.eqb]. f_equal.
    rewrite Hin, Hrest.
    change (pre ++ 91%N :: r ++ 93%N :: ws1 ++ 61%N :: ws2 ++ n ++ 40%N :: p ++ 41%N :: post)
      with (pre ++ [91%N] ++ r ++ 93%N :: ws1 ++ 61%N :: ws2 ++ n ++ 40%N :: p ++ 41%N :: post).
    rewrite (app_assoc pre [91%N]).
    replace (length pre + 1) with (length (pre ++ [91%N]))
      by (rewrite length_app; reflexivity).
    apply substring_middle. }
  assert (E2 : item (match_array call_regex content (length pre) y) 2 = Str n).
  { unfold item. cbn [match_array m_items nth call_regex re_ngroups seq map].
    rewrite Hcaps. cbn [capture_text find fst Nat.eqb]. f_equal.
    rewrite Hin, Hrest.
    replace (pre ++ 91%N :: r ++ 93%N :: ws1 ++ 61%N :: ws2 ++ n ++ 40%N :: p ++ 41%N :: post)
      with ((pre ++ 91%N :: r ++ 93%N :: ws1 ++ 61%N :: ws2) ++ n ++ 40%N :: p ++ 41%N :: post)
      by (rewrite <- app_assoc; cbn [app]; rewrite <- app_assoc; cbn [app];
          now rewrite <- app_assoc).
    rewrite <- length_app. apply substring_middle. }
  assert (E3 : item (match_array call_regex content (length pre) y) 3 = Str p).
  { unfold item. cbn [match_array m_items nth call_regex re_ngroups seq map].
    rewrite Hcaps. cbn [capture_text find fst Nat.eqb]. f_equal.
    rewrite Hin, Hrest.
    replace (pre ++ 91%N :: r ++ 93%N :: ws1 ++ 61%N :: ws2 ++ n ++ 40%N :: p ++ 41%N :: post)
      with ((pre ++ 91%N :: r ++ 93%N :: ws1 ++ 61%N :: ws2 ++ n ++ [40%N])
              ++ p ++ 41%N :: post)
      by (rewrite <- app_assoc; cbn [app]; rewrite <- app_assoc; cbn [app];
          rewrite <- app_assoc; cbn [app]; rewrite <- app_assoc; cbn [app];
          now rewrite <- app_assoc).
    rewrite <- length_app. apply substring_middle. }
  rewrite E1, E2, E3, !comma_list_eq in Hr. cbn [as_string bind] in Hr.
  injection Hr as <-. cbn [fc_name fc_returns fc_params].
  exists pre, rest, r, n, p. split; [exact Hin|]. split; [|now repeat split].
  exists ws1, ws2, post. repeat split; auto.
Qed.

Lemma X13_calls_stand_in_text_witness :
  exists pre rest r n p,
    call_text = pre ++ rest
    /\ call_shape rest r n p
    /\ Str (u "compute") = Str n
    /\ [u "a"; u "b"] = split (remove_white_space r) (u ",")
    /\ [u "x"; u "y"] = split (remove_white_space p) (u ",").
Proof.
  apply (X13_calls_stand_in_text call_text
           [MkFunctionCall (Str (u "compute")) [u "x"; u "y"] [u "a"; u "b"]]
           eq_refl
           (MkFunctionCall (Str (u "compute")) [u "x"; u "y"] [u "a"; u "b"])).
  now left.
Defined.

(* ================================================================== *)
(** ** The members of findMemberNames in the text *)
(* ================================================================== *)




